(** * Explicit MPM substep (week12_taichi_mpm_2d.py): embedding and properties

    The Taichi kernel [substep] is embedded over the real numbers: every
    [float] of the program is an element of [R], every [int] an element of
    [Z].  Particle fields are functions of the particle index, grid fields
    are functions of the node index; a grid access outside the shape
    [(n_grid, n_grid, n_grid)], which Taichi leaves undefined, is the error
    outcome [None].  Parallel loops are run in index order; [+=] on a field
    is the atomic add of the source. *)

From Stdlib Require Import Reals Lra Lia ZArith List Bool Psatz.
From Stdlib Require Import Zfloor FinFun Finite.
From Stdlib Require Import FunctionalExtensionality Permutation.
Import ListNotations.
Local Open Scope R_scope.

(** ** Vectors and matrices ([ti.Vector], [ti.Matrix]) *)

Record vec3 : Type := Vec3 { vx : R; vy : R; vz : R }.
Record ivec3 : Type := IVec3 { ix : Z; iy : Z; iz : Z }.
Record mat3 : Type := Mat3 { row0 : vec3; row1 : vec3; row2 : vec3 }.

Definition vzero : vec3 := Vec3 0 0 0.
Definition vmap (f : R -> R) (u : vec3) : vec3 :=
  Vec3 (f (vx u)) (f (vy u)) (f (vz u)).
Definition vmap2 (f : R -> R -> R) (u w : vec3) : vec3 :=
  Vec3 (f (vx u) (vx w)) (f (vy u) (vy w)) (f (vz u) (vz w)).
Definition vadd : vec3 -> vec3 -> vec3 := vmap2 Rplus.
Definition vsub : vec3 -> vec3 -> vec3 := vmap2 Rminus.
Definition vscale (a : R) : vec3 -> vec3 := vmap (Rmult a).
Definition vdot (u w : vec3) : R := vx u * vx w + vy u * vy w + vz u * vz w.

(** [u[d]] and [u[d] = a] *)
Definition vget (u : vec3) (d : nat) : R :=
  match d with O => vx u | S O => vy u | _ => vz u end.
Definition vset (u : vec3) (d : nat) (a : R) : vec3 :=
  match d with
  | O => Vec3 a (vy u) (vz u)
  | S O => Vec3 (vx u) a (vz u)
  | _ => Vec3 (vx u) (vy u) a
  end.

Definition mzero : mat3 := Mat3 vzero vzero vzero.
Definition identity : mat3 := Mat3 (Vec3 1 0 0) (Vec3 0 1 0) (Vec3 0 0 1).
Definition mmap (f : vec3 -> vec3) (A : mat3) : mat3 :=
  Mat3 (f (row0 A)) (f (row1 A)) (f (row2 A)).
Definition madd (A B : mat3) : mat3 :=
  Mat3 (vadd (row0 A) (row0 B)) (vadd (row1 A) (row1 B)) (vadd (row2 A) (row2 B)).
Definition msub (A B : mat3) : mat3 :=
  Mat3 (vsub (row0 A) (row0 B)) (vsub (row1 A) (row1 B)) (vsub (row2 A) (row2 B)).
Definition mscale (a : R) : mat3 -> mat3 := mmap (vscale a).
Definition col (A : mat3) (d : nat) : vec3 :=
  Vec3 (vget (row0 A) d) (vget (row1 A) d) (vget (row2 A) d).
Definition transpose (A : mat3) : mat3 := Mat3 (col A 0) (col A 1) (col A 2).
Definition mat_vec (A : mat3) (u : vec3) : vec3 :=
  Vec3 (vdot (row0 A) u) (vdot (row1 A) u) (vdot (row2 A) u).
Definition mmul (A B : mat3) : mat3 :=
  let Bt := transpose B in
  Mat3 (mat_vec Bt (row0 A)) (mat_vec Bt (row1 A)) (mat_vec Bt (row2 A)).
Definition outer_product (u w : vec3) : mat3 :=
  Mat3 (vscale (vx u) w) (vscale (vy u) w) (vscale (vz u) w).

(** [A[i, j]] and [A[i, j] = a] *)
Definition mrow (A : mat3) (i : nat) : vec3 :=
  match i with O => row0 A | S O => row1 A | _ => row2 A end.
Definition mget (A : mat3) (i j : nat) : R := vget (mrow A i) j.
Definition mset (A : mat3) (i j : nat) (a : R) : mat3 :=
  match i with
  | O => Mat3 (vset (row0 A) j a) (row1 A) (row2 A)
  | S O => Mat3 (row0 A) (vset (row1 A) j a) (row2 A)
  | _ => Mat3 (row0 A) (row1 A) (vset (row2 A) j a)
  end.

Declare Scope la_scope.
Delimit Scope la_scope with la.
Infix "+v" := vadd (at level 50, left associativity) : la_scope.
Infix "-v" := vsub (at level 50, left associativity) : la_scope.
Infix "*v" := vscale (at level 40, left associativity) : la_scope.
Infix "+m" := madd (at level 50, left associativity) : la_scope.
Infix "-m" := msub (at level 50, left associativity) : la_scope.
Infix "*m" := mscale (at level 40, left associativity) : la_scope.
Infix "@m" := mmul (at level 40, left associativity) : la_scope.
Infix "@v" := mat_vec (at level 40, left associativity) : la_scope.
Local Open Scope la_scope.

(** Integer vectors: [base + offset], [.cast(float)], [.cast(int)].
    A cast of a float to [int] rounds toward zero. *)
Definition iadd (a b : ivec3) : ivec3 :=
  IVec3 (ix a + ix b) (iy a + iy b) (iz a + iz b).
Definition ivec3_eqb (a b : ivec3) : bool :=
  (ix a =? ix b)%Z && (iy a =? iy b)%Z && (iz a =? iz b)%Z.
Definition cast_int (r : R) : Z := if Rlt_dec r 0 then Zceil r else Zfloor r.
Definition vcast_int (u : vec3) : ivec3 :=
  IVec3 (cast_int (vx u)) (cast_int (vy u)) (cast_int (vz u)).
Definition vcast_float (a : ivec3) : vec3 :=
  Vec3 (IZR (ix a)) (IZR (iy a)) (IZR (iz a)).
Definition Rltb (a b : R) : bool := if Rlt_dec a b then true else false.

(** ** Global constants (lines 6-13) *)

Definition quality : Z := 1.
Definition n_particles : nat := Z.to_nat (9000 * quality ^ 2).
Definition n_grid : Z := 128 * quality.
Definition dx : R := 1 / IZR n_grid.
Definition inv_dx : R := IZR n_grid.
Definition dt : R := 1e-4 / IZR quality.
Definition p_vol : R := (dx * 0.5) ^ 2.
Definition p_rho : R := 1.
Definition p_mass : R := p_vol * p_rho.
Definition E : R := 1e3.
Definition nu : R := 0.2.
Definition mu_0 : R := E / (2 * (1 + nu)).
Definition lambda_0 : R := E * nu / ((1 + nu) * (1 - 2 * nu)).

(** ** Fields (lines 15-26)

    [material], [attractor_strength] and [attractor_pos] are not touched by
    [substep] and are left out. *)

Record state : Type := State {
  x : nat -> vec3;
  x_2d : nat -> R * R;
  v : nat -> vec3;
  C : nat -> mat3;
  F : nat -> mat3;
  Jp : nat -> R;
  grid_v : ivec3 -> vec3;
  grid_m : ivec3 -> R;
  gravity : vec3
}.

Definition upd {A : Type} (f : nat -> A) (p : nat) (a : A) : nat -> A :=
  fun q => if Nat.eqb q p then a else f q.
Definition gupd {A : Type} (f : ivec3 -> A) (i : ivec3) (a : A) : ivec3 -> A :=
  fun n => if ivec3_eqb n i then a else f n.

Definition set_x (st : state) (f : nat -> vec3) : state :=
  State f (x_2d st) (v st) (C st) (F st) (Jp st) (grid_v st) (grid_m st) (gravity st).
Definition set_x_2d (st : state) (f : nat -> R * R) : state :=
  State (x st) f (v st) (C st) (F st) (Jp st) (grid_v st) (grid_m st) (gravity st).
Definition set_v (st : state) (f : nat -> vec3) : state :=
  State (x st) (x_2d st) f (C st) (F st) (Jp st) (grid_v st) (grid_m st) (gravity st).
Definition set_C (st : state) (f : nat -> mat3) : state :=
  State (x st) (x_2d st) (v st) f (F st) (Jp st) (grid_v st) (grid_m st) (gravity st).
Definition set_F (st : state) (f : nat -> mat3) : state :=
  State (x st) (x_2d st) (v st) (C st) f (Jp st) (grid_v st) (grid_m st) (gravity st).
Definition set_Jp (st : state) (f : nat -> R) : state :=
  State (x st) (x_2d st) (v st) (C st) (F st) f (grid_v st) (grid_m st) (gravity st).
Definition set_grid_v (st : state) (f : ivec3 -> vec3) : state :=
  State (x st) (x_2d st) (v st) (C st) (F st) (Jp st) f (grid_m st) (gravity st).
Definition set_grid_m (st : state) (f : ivec3 -> R) : state :=
  State (x st) (x_2d st) (v st) (C st) (F st) (Jp st) (grid_v st) f (gravity st).

(** ** Grid shape and checked accesses *)

Definition in_range (i : Z) : bool := (0 <=? i)%Z && (i <? n_grid)%Z.
Definition in_grid (n : ivec3) : bool :=
  in_range (ix n) && in_range (iy n) && in_range (iz n).

(** Errors: an access outside the grid. *)
Notation "'do' a <- e ; k" :=
  (match e with Some a => k | None => None end)
  (at level 10, a name, e at level 100, k at level 200, only parsing).

Fixpoint for_each {A S : Type} (body : A -> S -> option S) (l : list A) (s : S)
  : option S :=
  match l with
  | [] => Some s
  | a :: l' => do s' <- body a s; for_each body l' s'
  end.

(** [grid_v[n] += a], [grid_m[n] += a], [grid_v[n]] *)
Definition grid_v_add (n : ivec3) (a : vec3) (st : state) : option state :=
  if in_grid n then Some (set_grid_v st (gupd (grid_v st) n (grid_v st n +v a)))
  else None.
Definition grid_m_add (n : ivec3) (a : R) (st : state) : option state :=
  if in_grid n then Some (set_grid_m st (gupd (grid_m st) n (grid_m st n + a)))
  else None.
Definition grid_v_read (n : ivec3) (st : state) : option vec3 :=
  if in_grid n then Some (grid_v st n) else None.

(** [range(n)] over [int], [ti.ndrange(3, 3, 3)], and the struct-for
    [for i, j, k in grid_m]. *)
Definition range (n : Z) : list Z := map Z.of_nat (seq 0 (Z.to_nat n)).
Definition ndrange (a b c : Z) : list ivec3 :=
  flat_map (fun i => flat_map (fun j => map (fun k => IVec3 i j k) (range c))
                              (range b)) (range a).
Definition grid_nodes : list ivec3 := ndrange n_grid n_grid n_grid.

(** ** The kernel [substep] (lines 28-134)

    [ti.svd] is Taichi's; the kernel is written over any function [svd]
    returning the triple [(U, sig, V)]. *)

Definition vscale_r (u : vec3) (a : R) : vec3 := vmap (fun c => c * a) u.
Definition mscale_r (A : mat3) (a : R) : mat3 := mmap (fun u => vscale_r u a) A.

(** [w[i][d]] for a Python list [w] of three vectors *)
Definition widx (w : list vec3) (i : Z) (d : nat) : R :=
  vget (nth (Z.to_nat i) w vzero) d.

Definition kirchoff_FCR (Fp Rp : mat3) (J mu la : R) : mat3 :=
  (2 * mu) *m (Fp -m Rp) @m transpose Fp
  +m mscale_r (mscale_r (mscale_r identity la) J) (J - 1).

(** Line 35-37: clean grid data. *)
Definition clear_node (n : ivec3) (st : state) : state :=
  let st := set_grid_v st (gupd (grid_v st) n (Vec3 0 0 0)) in
  set_grid_m st (gupd (grid_m st) n 0).
Definition clear_grid (st : state) : state :=
  fold_left (fun st n => clear_node n st) grid_nodes st.

(** Lines 43-48: base index and quadratic kernels in P2G. *)
Definition p2g_base (xp : vec3) : ivec3 :=
  vcast_int (vmap (fun c => c * inv_dx - 0.5) xp).
Definition p2g_fx (xp : vec3) : vec3 :=
  vmap (fun c => c * inv_dx) xp -v vcast_float (p2g_base xp).
Definition p2g_w (fx : vec3) : list vec3 :=
  [ vmap (fun f => 0.5 * (1.5 - f) ^ 2) fx;
    vmap (fun f => 0.75 - (f - 1) ^ 2) fx;
    vmap (fun f => 0.5 * (f - 0.5) ^ 2) fx ].
Definition p2g_dw (fx : vec3) : list vec3 :=
  [ vmap (fun f => f - 1.5) fx;
    vmap (fun f => -2.0 * (f - 1)) fx;
    vmap (fun f => f - 0.5) fx ].

(** Lines 55-59: the loop over the singular values. *)
Definition sv_step (acc : R * mat3 * R) (d : nat) : R * mat3 * R :=
  let '(jp, sig, J) := acc in
  let new_sig := mget sig d d in
  let jp := jp * (mget sig d d / new_sig) in
  let sig := mset sig d d new_sig in
  let J := J * new_sig in
  (jp, sig, J).

(** Lines 108-111: the same quantities, as G2P writes them. *)
Definition g2p_base (xp : vec3) : ivec3 :=
  vcast_int (vmap (fun c => c * inv_dx - 0.5) xp).
Definition g2p_fx (xp : vec3) : vec3 :=
  vmap (fun c => c * inv_dx) xp -v vcast_float (g2p_base xp).
Definition g2p_w (fx : vec3) : list vec3 :=
  [ vmap (fun f => 0.5 * (1.5 - f) ^ 2) fx;
    vmap (fun f => 0.75 - (f - 1.0) ^ 2) fx;
    vmap (fun f => 0.5 * (f - 0.5) ^ 2) fx ].
Definition g2p_dw (fx : vec3) : list vec3 :=
  [ vmap (fun f => f - 1.5) fx;
    vmap (fun f => -2.0 * (f - 1)) fx;
    vmap (fun f => f - 0.5) fx ].

(** Lines 68-74 and 118-124: weight and its gradient at one node. *)
Definition node_weight (w : list vec3) (o : ivec3) : R :=
  widx w (ix o) 0 * widx w (iy o) 1 * widx w (iz o) 2.
Definition node_dweight (w dw : list vec3) (o : ivec3) : vec3 :=
  let dweight := vzero in
  let dweight :=
    vset dweight 0 (inv_dx * widx dw (ix o) 0 * widx w (iy o) 1 * widx w (iz o) 2) in
  let dweight :=
    vset dweight 1 (inv_dx * widx w (ix o) 0 * widx dw (iy o) 1 * widx w (iz o) 2) in
  let dweight :=
    vset dweight 2 (inv_dx * widx w (ix o) 0 * widx w (iy o) 1 * widx dw (iz o) 2) in
  dweight.

(** Lines 65-82: one iteration of the loop over the 3x3x3 neighbourhood. *)
Definition p2g_node (p : nat) (base : ivec3) (fx : vec3) (w dw : list vec3)
    (kirchoff : mat3) (offset : ivec3) (st : state) : option state :=
  let dpos := vscale_r (vcast_float offset -v fx) dx in
  let weight := node_weight w offset in
  let dweight := node_dweight w dw offset in
  let force := (- p_vol) *m kirchoff @v dweight in
  do st <- grid_v_add (iadd base offset)
             ((p_mass * weight) *v (v st p +v C st p @v dpos)) st;
  do st <- grid_m_add (iadd base offset) (weight * p_mass) st;
  grid_v_add (iadd base offset) (dt *v force) st.

(** Lines 86-104: one grid node of the gravity and boundary loop. *)
Definition wall_collide (n : ivec3) (gv : vec3) : vec3 :=
  let gv := if (ix n <? 3)%Z && Rltb (vget gv 0) 0 then vset gv 0 0 else gv in
  let gv := if (ix n >? n_grid - 3)%Z && Rltb 0 (vget gv 0) then vset gv 0 0 else gv in
  let gv := if (iy n <? 3)%Z && Rltb (vget gv 1) 0 then vset gv 1 0 else gv in
  let gv := if (iy n >? n_grid - 3)%Z && Rltb 0 (vget gv 1) then vset gv 1 0 else gv in
  let gv := if (iz n <? 3)%Z && Rltb (vget gv 2) 0 then vset gv 2 0 else gv in
  let gv := if (iz n >? n_grid - 3)%Z && Rltb 0 (vget gv 2) then vset gv 2 0 else gv in
  gv.
Definition grid_node (n : ivec3) (st : state) : state :=
  if Rltb 0 (grid_m st n) then
    let st := set_grid_v st (gupd (grid_v st) n ((1 / grid_m st n) *v grid_v st n)) in
    let st := set_grid_v st (gupd (grid_v st) n
                (grid_v st n +v vscale_r (dt *v gravity st) 9.8)) in
    set_grid_v st (gupd (grid_v st) n (wall_collide n (grid_v st n)))
  else st.
Definition grid_update (st : state) : state :=
  fold_left (fun st n => grid_node n st) grid_nodes st.

(** Lines 115-128: one iteration of the gather loop. *)
Definition g2p_node (base : ivec3) (fx : vec3) (w dw : list vec3) (st : state)
    (o : ivec3) (acc : vec3 * mat3 * mat3) : option (vec3 * mat3 * mat3) :=
  let '(new_v, new_C, new_F) := acc in
  let dpos := vcast_float o -v fx in
  do g_v <- grid_v_read (iadd base o) st;
  let weight := node_weight w o in
  let dweight := node_dweight w dw o in
  Some (new_v +v weight *v g_v,
        new_C +m (4 * inv_dx * weight) *m outer_product g_v dpos,
        new_F +m outer_product g_v dweight).

Section Kernel.

Variable svd : mat3 -> mat3 * mat3 * mat3.

(** Lines 50-62: singular values, plastic scalar and Kirchhoff stress. *)
Definition p2g_stress (Fp : mat3) (jp : R) : R * mat3 :=
  let mu := mu_0 in
  let la := lambda_0 in
  let '(U, sig, V) := svd Fp in
  let J := 1.0 in
  let '(jp, sig, J) := fold_left sv_step [0; 1; 2]%nat (jp, sig, J) in
  (jp, kirchoff_FCR Fp (U @m transpose V) J mu la).

(** Lines 40-82: P2G for particle [p]. *)
Definition p2g_particle (p : nat) (st : state) : option state :=
  let base := p2g_base (x st p) in
  let fx := p2g_fx (x st p) in
  let w := p2g_w fx in
  let dw := p2g_dw fx in
  let '(jp, kirchoff) := p2g_stress (F st p) (Jp st p) in
  let st := set_Jp st (upd (Jp st) p jp) in
  for_each (p2g_node p base fx w dw kirchoff) (ndrange 3 3 3) st.
Definition p2g (st : state) : option state :=
  for_each p2g_particle (seq 0 n_particles) st.

(** Lines 107-134: G2P for particle [p]. *)
Definition g2p_particle (p : nat) (st : state) : option state :=
  let base := g2p_base (x st p) in
  let fx := g2p_fx (x st p) in
  let w := g2p_w fx in
  let dw := g2p_dw fx in
  do acc <- for_each (g2p_node base fx w dw st) (ndrange 3 3 3)
              (vzero, mzero, mzero);
  let '(new_v, new_C, new_F) := acc in
  let st := set_C (set_v st (upd (v st) p new_v)) (upd (C st) p new_C) in
  let st := set_x st (upd (x st) p (x st p +v dt *v v st p)) in
  let st := set_x_2d st (upd (x_2d st) p (vget (x st p) 0, vget (x st p) 1)) in
  Some (set_F st (upd (F st) p ((identity +m dt *m new_F) @m F st p))).
Definition g2p (st : state) : option state :=
  for_each g2p_particle (seq 0 n_particles) st.

Definition substep (st : state) : option state :=
  let st := clear_grid st in
  do st <- p2g st;
  let st := grid_update st in
  g2p st.

End Kernel.

(** ** Notions used in the statements *)

(** The three quadratic B-spline weights at local offset [f] and their
    derivatives. *)
Definition bspline (i : Z) (f : R) : R :=
  match i with
  | 0%Z => 0.5 * (1.5 - f) ^ 2
  | 1%Z => 0.75 - (f - 1) ^ 2
  | _ => 0.5 * (f - 0.5) ^ 2
  end.
Definition bspline_deriv (i : Z) (f : R) : R :=
  match i with
  | 0%Z => f - 1.5
  | 1%Z => -2.0 * (f - 1)
  | _ => f - 0.5
  end.

(** The base node as the specification words it: a componentwise floor. *)
Definition floor_base (xp : vec3) : ivec3 :=
  IVec3 (Zfloor (vx xp * inv_dx - 0.5)) (Zfloor (vy xp * inv_dx - 0.5))
        (Zfloor (vz xp * inv_dx - 0.5)).

(** All 27 nodes [base + offset] of a particle at [xp] lie in the grid. *)
Definition neighbourhood_in_grid (xp : vec3) : Prop :=
  forall o, In o (ndrange 3 3 3) -> in_grid (iadd (p2g_base xp) o) = true.

(** Two states agree on every particle field and on gravity. *)
Definition same_particles (a b : state) : Prop :=
  x a = x b /\ x_2d a = x_2d b /\ v a = v b /\ C a = C b /\ F a = F b /\
  Jp a = Jp b /\ gravity a = gravity b.

(** The coordinates for which every access of the neighbourhood is inside
    the grid, and the interval that the specification gives for them. *)
Definition safe_coord (c : R) : Prop :=
  - 0.5 * dx < c < (IZR n_grid - 1.5) * dx.
Definition claimed_safe_coord (c : R) : Prop :=
  0.5 * dx <= c < (IZR n_grid - 1.5) * dx.
Definition in_box (P : R -> Prop) (xp : vec3) : Prop :=
  P (vx xp) /\ P (vy xp) /\ P (vz xp).

(** States and a stand-in for [ti.svd] used to run the kernel on concrete
    inputs: every particle at [xp] with velocity [v0], no affine velocity,
    identity deformation gradient, unit plastic scalar. *)
Definition svd_of_identity (Fp : mat3) : mat3 * mat3 * mat3 :=
  (identity, identity, identity).
Definition uniform_state (xp v0 g : vec3) : state :=
  State (fun _ => xp) (fun _ => (vx xp, vy xp)) (fun _ => v0) (fun _ => mzero)
        (fun _ => identity) (fun _ => 1) (fun _ => vzero) (fun _ => 0) g.

(** Sums of lists of reals, vectors and matrices; the total mass on the
    grid. *)
Definition rsum (l : list R) : R := fold_right Rplus 0 l.
Definition vsum (l : list vec3) : vec3 := fold_right vadd vzero l.
Definition msum (l : list mat3) : mat3 := fold_right madd mzero l.
Definition grid_mass (st : state) : R := rsum (map (grid_m st) grid_nodes).

(** Two states agree on the grid and on gravity. *)
Definition same_grid (a b : state) : Prop :=
  grid_v a = grid_v b /\ grid_m a = grid_m b /\ gravity a = gravity b.

(** What the gravity and boundary loop leaves at one node holding momentum
    [gv] and mass [m], and what the wall check does to one component [c] of
    the velocity of a node with index [i] on that axis. *)
Definition node_velocity (g : vec3) (n : ivec3) (gv : vec3) (m : R) : vec3 :=
  if Rltb 0 m
  then wall_collide n ((1 / m) *v gv +v vscale_r (dt *v g) 9.8)
  else gv.
Definition axis_wall (i : Z) (c : R) : R :=
  if ((i <? 3)%Z && Rltb c 0) || ((i >? n_grid - 3)%Z && Rltb 0 c) then 0 else c.

(** The wall check as the specification words it: one margin, counted in
    node layers from either face of the axis. *)
Definition symmetric_margin (margin : Z) : Prop :=
  forall (n : ivec3) (gv : vec3), in_grid n = true ->
    vx (wall_collide n gv)
    = if ((ix n <? margin)%Z && Rltb (vx gv) 0)
         || ((n_grid - 1 - ix n <? margin)%Z && Rltb 0 (vx gv))
      then 0 else vx gv.

(** A state whose grid holds momentum [gv] and mass [m] at every node. *)
Definition loaded_grid_state (gv : vec3) (m : R) (g : vec3) : state :=
  State (fun _ => vzero) (fun _ => (0, 0)) (fun _ => vzero) (fun _ => mzero)
        (fun _ => identity) (fun _ => 1) (fun _ => gv) (fun _ => m) g.

(** The interpolation weight of the node at offset [o] for local offset
    [fx], its gradient, and the three sums over the 27 nodes that G2P forms
    from the grid velocities [gv] for a particle at [xp]. *)
Definition spline_weight (fx : vec3) (o : ivec3) : R :=
  bspline (ix o) (vx fx) * bspline (iy o) (vy fx) * bspline (iz o) (vz fx).
Definition spline_grad (fx : vec3) (o : ivec3) : vec3 :=
  Vec3 (inv_dx * bspline_deriv (ix o) (vx fx) * bspline (iy o) (vy fx)
        * bspline (iz o) (vz fx))
       (inv_dx * bspline (ix o) (vx fx) * bspline_deriv (iy o) (vy fx)
        * bspline (iz o) (vz fx))
       (inv_dx * bspline (ix o) (vx fx) * bspline (iy o) (vy fx)
        * bspline_deriv (iz o) (vz fx)).
Definition gather_velocity (gv : ivec3 -> vec3) (xp : vec3) : vec3 :=
  vsum (map (fun o => spline_weight (p2g_fx xp) o *v gv (iadd (p2g_base xp) o))
            (ndrange 3 3 3)).
Definition gather_affine (gv : ivec3 -> vec3) (xp : vec3) : mat3 :=
  msum (map (fun o => (4 * inv_dx * spline_weight (p2g_fx xp) o)
                      *m outer_product (gv (iadd (p2g_base xp) o))
                           (vcast_float o -v p2g_fx xp))
            (ndrange 3 3 3)).
Definition gather_gradient (gv : ivec3 -> vec3) (xp : vec3) : mat3 :=
  msum (map (fun o => outer_product (gv (iadd (p2g_base xp) o))
                        (spline_grad (p2g_fx xp) o))
            (ndrange 3 3 3)).

(** Invariant of the G2P loop started in [st]: [done] lists the particles
    already gathered. *)
Definition g2p_inv (st : state) (done : list nat) (s : state) : Prop :=
  same_grid s st /\ Jp s = Jp st /\
  (forall q, ~ In q done ->
     x s q = x st q /\ v s q = v st q /\ C s q = C st q /\ F s q = F st q) /\
  (forall q, In q done ->
     neighbourhood_in_grid (x st q) /\
     v s q = gather_velocity (grid_v st) (x st q) /\
     C s q = gather_affine (grid_v st) (x st q) /\
     x s q = x st q +v dt *v v s q /\
     F s q = (identity +m dt *m gather_gradient (grid_v st) (x st q)) @m F st q).

(** The diagonal of [sig] in a triple [(U, sig, V)] has no zero. *)
Definition singular_values_nonzero (usv : mat3 * mat3 * mat3) : Prop :=
  let '(U, sig, V) := usv in
  mget sig 0 0 <> 0 /\ mget sig 1 1 <> 0 /\ mget sig 2 2 <> 0.

(** A state transformer that, run on a state with another plastic scalar
    field, gives the same state up to the plastic scalar field. *)
Definition Jp_blind (f : state -> option state) : Prop :=
  forall st j, exists j',
    f (set_Jp st j) = option_map (fun s => set_Jp s j') (f st).

(** The contract of [ti.svd] at a matrix [Fp]: [U] and [V] orthogonal,
    [sig] diagonal with a non-negative diagonal, and [Fp = U sig V^T]. *)
Definition orthogonal (A : mat3) : Prop :=
  transpose A @m A = identity /\ A @m transpose A = identity.
Definition diagonal (A : mat3) : Prop :=
  mget A 0 1 = 0 /\ mget A 0 2 = 0 /\ mget A 1 0 = 0 /\
  mget A 1 2 = 0 /\ mget A 2 0 = 0 /\ mget A 2 1 = 0.
Definition is_svd (Fp : mat3) (usv : mat3 * mat3 * mat3) : Prop :=
  let '(U, sig, V) := usv in
  orthogonal U /\ orthogonal V /\ diagonal sig /\
  0 <= mget sig 0 0 /\ 0 <= mget sig 1 1 /\ 0 <= mget sig 2 2 /\
  U @m sig @m transpose V = Fp.

(** Nodes that no wall check touches, and particles whose 27 nodes are all
    such nodes. *)
Definition interior_index (i : Z) : bool := (3 <=? i)%Z && (i <=? n_grid - 3)%Z.
Definition interior_node (n : ivec3) : bool :=
  interior_index (ix n) && interior_index (iy n) && interior_index (iz n).
Definition neighbourhood_interior (xp : vec3) : Prop :=
  forall o, In o (ndrange 3 3 3) -> interior_node (iadd (p2g_base xp) o) = true.

(** Invariant of the P2G loop for particles that all move with velocity
    [v0], without affine velocity and undeformed: on the grid, momentum is
    mass times [v0], and the mass of a node is at least what each particle
    already scattered has given it. *)
Definition uniform_flow_inv (v0 : vec3) (st : state) (done : list nat)
    (s : state) : Prop :=
  (x s = x st /\ v s = v st /\ C s = C st /\ F s = F st /\
   gravity s = gravity st) /\
  (forall n, in_grid n = true -> grid_v s n = grid_m s n *v v0) /\
  (forall n, in_grid n = true -> 0 <= grid_m s n) /\
  (forall q o, In q done -> In o (ndrange 3 3 3) ->
     spline_weight (p2g_fx (x st q)) o * p_mass
     <= grid_m s (iadd (p2g_base (x st q)) o)).

(** Further stand-ins for [ti.svd]: for a diagonal matrix with a
    non-negative diagonal, and for an orthogonal matrix. *)
Definition svd_of_diagonal (Fp : mat3) : mat3 * mat3 * mat3 :=
  (identity, Fp, identity).
Definition svd_of_rotation (Fp : mat3) : mat3 * mat3 * mat3 :=
  (Fp, identity, identity).
Definition stretch_x : mat3 := Mat3 (Vec3 2 0 0) (Vec3 0 1 0) (Vec3 0 0 1).
Definition quarter_turn_z : mat3 :=
  Mat3 (Vec3 0 (-1) 0) (Vec3 1 0 0) (Vec3 0 0 1).

(** The total momentum on the grid, and the sum of a per-axis quantity over
    the three offsets 0, 1, 2. *)
Definition grid_momentum (st : state) : vec3 := vsum (map (grid_v st) grid_nodes).
Definition axis_sum (a : Z -> R) : R := a 0%Z + a 1%Z + a 2%Z.

(** A state whose grid holds the affine velocity field A y + b at the node
    of position y = dx * (i, j, k), with every particle at the midpoint of
    the domain. *)
Definition affine_grid_state (A : mat3) (b : vec3) : state :=
  State (fun _ => Vec3 0.5 0.5 0.5) (fun _ => (0.5, 0.5)) (fun _ => vzero)
        (fun _ => mzero) (fun _ => identity) (fun _ => 1)
        (fun n => A @v (dx *v vcast_float n) +v b) (fun _ => 1) vzero.

(** Invariant of P2G for particles in the box where the cast to int is a
    floor: no node has negative mass, and a node without mass has no
    momentum. *)
Definition massless_inv (s : state) : Prop :=
  forall n, in_grid n = true ->
    0 <= grid_m s n /\ (grid_m s n = 0 -> grid_v s n = vzero).

(** P2G of one particle in closed form: whether its 27 nodes are in the
    grid, what a node receives from it, and the state it leaves. *)
Definition neighbourhood_ok (xp : vec3) : bool :=
  forallb (fun o => in_grid (iadd (p2g_base xp) o)) (ndrange 3 3 3).
Definition deposit {T : Type} (zero : T) (base : ivec3) (f : ivec3 -> T)
    (n : ivec3) : T :=
  match find (fun o => ivec3_eqb n (iadd base o)) (ndrange 3 3 3) with
  | Some o => f o
  | None => zero
  end.
Definition p2g_mass_share (xp : vec3) (n : ivec3) : R :=
  deposit 0 (p2g_base xp)
    (fun o => node_weight (p2g_w (p2g_fx xp)) o * p_mass) n.
Definition p2g_momentum_share (xp vp : vec3) (Cp tau : mat3) (n : ivec3)
  : vec3 :=
  deposit vzero (p2g_base xp)
    (fun o => (p_mass * node_weight (p2g_w (p2g_fx xp)) o)
                *v (vp +v Cp @v vscale_r (vcast_float o -v p2g_fx xp) dx)
              +v dt *v ((- p_vol) *m tau
                        @v node_dweight (p2g_w (p2g_fx xp))
                             (p2g_dw (p2g_fx xp)) o)) n.
Definition p2g_result (svd : mat3 -> mat3 * mat3 * mat3) (p : nat)
    (st : state) : state :=
  State (x st) (x_2d st) (v st) (C st) (F st)
        (upd (Jp st) p (fst (p2g_stress svd (F st p) (Jp st p))))
        (fun n => grid_v st n
                  +v p2g_momentum_share (x st p) (v st p) (C st p)
                       (snd (p2g_stress svd (F st p) (Jp st p))) n)
        (fun n => grid_m st n + p2g_mass_share (x st p) n)
        (gravity st).

(** G2P of one particle in closed form. *)
Definition g2p_closed (p : nat) (st : state) : state :=
  State
    (upd (x st) p (x st p +v dt *v gather_velocity (grid_v st) (x st p)))
    (upd (x_2d st) p
       (vx (x st p +v dt *v gather_velocity (grid_v st) (x st p)),
        vy (x st p +v dt *v gather_velocity (grid_v st) (x st p))))
    (upd (v st) p (gather_velocity (grid_v st) (x st p)))
    (upd (C st) p (gather_affine (grid_v st) (x st p)))
    (upd (F st) p
       ((identity +m dt *m gather_gradient (grid_v st) (x st p)) @m F st p))
    (Jp st) (grid_v st) (grid_m st) (gravity st).

(** ** Initialisation and the driver (lines 136-151 and 170-171)

    [ti.random()] is an oracle: [rand i k] is the value of the [k]-th call
    made for particle [i].  [startup] is lines 150-151, [substeps k] the
    loop of lines 170-171 run [k] times. *)
Definition set_gravity (st : state) (g : vec3) : state :=
  State (x st) (x_2d st) (v st) (C st) (F st) (Jp st) (grid_v st) (grid_m st) g.
Definition group_size : Z := Z.of_nat n_particles / 1.
Definition reset_particle (rand : nat -> nat -> R) (i : nat) (st : state)
  : state :=
  let g := IZR (Z.of_nat i / group_size) in
  let st := set_x st (upd (x st) i
              (Vec3 (rand i 0%nat * 0.2 + 0.3 + 0.10 * g)
                    (rand i 1%nat * 0.2 + 0.05 + 0.32 * g)
                    (rand i 2%nat * 0.2 + 0.3 + 0.10 * g))) in
  let st := set_x_2d st (upd (x_2d st) i (vget (x st i) 0, vget (x st i) 1)) in
  let st := set_v st (upd (v st) i (Vec3 0 0 0)) in
  let st := set_F st (upd (F st) i
              (Mat3 (Vec3 1 0 0) (Vec3 0 1 0) (Vec3 0 0 1))) in
  let st := set_Jp st (upd (Jp st) i 1) in
  set_C st (upd (C st) i mzero).
Definition reset (rand : nat -> nat -> R) (st : state) : state :=
  fold_left (fun st i => reset_particle rand i st) (seq 0 n_particles) st.
Definition startup (rand : nat -> nat -> R) (st : state) : state :=
  set_gravity (reset rand st) (Vec3 0 0 0).
Fixpoint substeps (svd : mat3 -> mat3 * mat3 * mat3) (k : nat) (st : state)
  : option state :=
  match k with
  | O => Some st
  | S k => do st <- substep svd st; substeps svd k st
  end.

(** The position that [reset] gives particle [i], and the block that the
    positions fill. *)
Definition reset_position (rand : nat -> nat -> R) (i : nat) : vec3 :=
  Vec3 (rand i 0%nat * 0.2 + 0.3 + 0.10 * IZR (Z.of_nat i / group_size))
       (rand i 1%nat * 0.2 + 0.05 + 0.32 * IZR (Z.of_nat i / group_size))
       (rand i 2%nat * 0.2 + 0.3 + 0.10 * IZR (Z.of_nat i / group_size)).
Definition in_block (xp : vec3) : Prop :=
  0.3 <= vx xp <= 0.5 /\ 0.05 <= vy xp <= 0.25 /\ 0.3 <= vz xp <= 0.5.
Definition unit_oracle (rand : nat -> nat -> R) : Prop :=
  forall i k, 0 <= rand i k < 1.
Definition half_oracle (i k : nat) : R := 0.5.

(** The values that a cast to a 32-bit int represents: [fits_int32 r] says
    that [r], rounded toward zero, lies in [int32_min, int32_max]. *)
Definition int32_min : Z := (- 2 ^ 31)%Z.
Definition int32_max : Z := (2 ^ 31 - 1)%Z.
Definition fits_int32 (r : R) : Prop :=
  IZR int32_min - 1 < r < IZR int32_max + 1.

(** * Properties *)

(** ** Lists, ranges and loops *)

Lemma NoDup_flat_map {A B : Type} (f : A -> list B) (l : list A) :
  NoDup l ->
  (forall a, In a l -> NoDup (f a)) ->
  (forall a a' b, In a l -> In a' l -> In b (f a) -> In b (f a') -> a = a') ->
  NoDup (flat_map f l).
Proof.
  induction 1 as [|a l Hnin Hnd IH]; intros Hf Hkey; cbn.
  - constructor.
  - apply NoDup_app.
    + apply Hf; now left.
    + apply IH.
      * intros a' Ha'. apply Hf. now right.
      * intros a1 a2 b H1 H2. apply Hkey; now right.
    + intros b Hb Hb'. apply in_flat_map in Hb' as (a' & Ha' & Hb').
      assert (a = a') by (apply (Hkey a a' b); auto; [now left | now right]).
      subst a'. contradiction.
Qed.

Lemma in_range_list (n i : Z) : In i (range n) <-> (0 <= i < n)%Z.
Proof.
  unfold range. rewrite in_map_iff. split.
  - intros (k & <- & Hk). apply in_seq in Hk. lia.
  - intros H. exists (Z.to_nat i). split; [lia|]. apply in_seq. lia.
Qed.

Lemma NoDup_range (n : Z) : NoDup (range n).
Proof.
  unfold range. apply Injective_map_NoDup.
  - intros a b. apply Nat2Z.inj.
  - apply seq_NoDup.
Qed.

Lemma in_ndrange (a b c : Z) (n : ivec3) :
  In n (ndrange a b c) <->
  (0 <= ix n < a)%Z /\ (0 <= iy n < b)%Z /\ (0 <= iz n < c)%Z.
Proof.
  unfold ndrange. rewrite in_flat_map. split.
  - intros (i & Hi & H). apply in_flat_map in H as (j & Hj & H).
    apply in_map_iff in H as (k & <- & Hk). cbn.
    rewrite in_range_list in Hi, Hj, Hk. auto.
  - intros (Hi & Hj & Hk). exists (ix n). rewrite in_range_list. split; [assumption|].
    apply in_flat_map. exists (iy n). rewrite in_range_list. split; [assumption|].
    apply in_map_iff. exists (iz n). rewrite in_range_list. split; [|assumption].
    now destruct n.
Qed.

Lemma NoDup_ndrange (a b c : Z) : NoDup (ndrange a b c).
Proof.
  unfold ndrange. apply NoDup_flat_map.
  - apply NoDup_range.
  - intros i _. apply NoDup_flat_map.
    + apply NoDup_range.
    + intros j _. apply Injective_map_NoDup; [|apply NoDup_range].
      intros k k' H. now inversion H.
    + intros j j' n _ _ H H'.
      apply in_map_iff in H as (k & <- & _).
      apply in_map_iff in H' as (k' & H' & _). now inversion H'.
  - intros i i' n _ _ H H'.
    apply in_flat_map in H as (j & _ & H). apply in_map_iff in H as (k & <- & _).
    apply in_flat_map in H' as (j' & _ & H').
    apply in_map_iff in H' as (k' & H' & _). now inversion H'.
Qed.

Lemma in_grid_nodes (n : ivec3) : In n grid_nodes <-> in_grid n = true.
Proof.
  unfold grid_nodes, in_grid, in_range. rewrite in_ndrange.
  rewrite !andb_true_iff, !Z.leb_le, !Z.ltb_lt. tauto.
Qed.

Lemma NoDup_grid_nodes : NoDup grid_nodes.
Proof. apply NoDup_ndrange. Qed.

Lemma ivec3_eqb_eq (a b : ivec3) : ivec3_eqb a b = true <-> a = b.
Proof.
  unfold ivec3_eqb. rewrite !andb_true_iff, !Z.eqb_eq.
  destruct a, b; cbn. split.
  - intros [[-> ->] ->]. reflexivity.
  - intros H. inversion H. auto.
Qed.

Lemma ivec3_eqb_refl (a : ivec3) : ivec3_eqb a a = true.
Proof. now apply ivec3_eqb_eq. Qed.

Lemma ivec3_eqb_neq (a b : ivec3) : a <> b -> ivec3_eqb a b = false.
Proof.
  intros H. destruct (ivec3_eqb a b) eqn:Heq; [|reflexivity].
  apply ivec3_eqb_eq in Heq. contradiction.
Qed.

Lemma gupd_same {A : Type} (f : ivec3 -> A) (i : ivec3) (a : A) : gupd f i a i = a.
Proof. unfold gupd. now rewrite ivec3_eqb_refl. Qed.

Lemma gupd_other {A : Type} (f : ivec3 -> A) (i n : ivec3) (a : A) :
  n <> i -> gupd f i a n = f n.
Proof. intros H. unfold gupd. now rewrite ivec3_eqb_neq. Qed.

Lemma upd_same {A : Type} (f : nat -> A) (p : nat) (a : A) : upd f p a p = a.
Proof. unfold upd. now rewrite Nat.eqb_refl. Qed.

Lemma upd_other {A : Type} (f : nat -> A) (p q : nat) (a : A) :
  q <> p -> upd f p a q = f q.
Proof. intros H. unfold upd. apply Nat.eqb_neq in H. now rewrite H. Qed.

Lemma iadd_cancel (b o o' : ivec3) : iadd b o = iadd b o' -> o = o'.
Proof.
  destruct b, o, o'; unfold iadd; cbn. intros H. inversion H. f_equal; lia.
Qed.

(** A loop that fails nowhere establishes what every iteration preserves;
    [done] is the list of the iterations already run. *)
Lemma for_each_ind {A S : Type} (body : A -> S -> option S)
    (P : list A -> S -> Prop) (l : list A) (s s' : S) :
  P [] s ->
  (forall done a rest s1 s2,
      l = done ++ a :: rest -> P done s1 -> body a s1 = Some s2 ->
      P (done ++ [a]) s2) ->
  for_each body l s = Some s' ->
  P l s'.
Proof.
  intros H0 Hstep.
  enough (Hgen : forall todo done s1,
             l = done ++ todo -> P done s1 ->
             for_each body todo s1 = Some s' -> P l s').
  { intros H. apply (Hgen l [] s); auto. }
  induction todo as [|a todo IH]; intros done s1 Hl HP Hrun; cbn in Hrun.
  - inversion Hrun; subst. now rewrite app_nil_r.
  - destruct (body a s1) as [s2|] eqn:Hb; [|discriminate].
    apply (IH (done ++ [a]) s2).
    + now rewrite <- app_assoc.
    + now apply (Hstep done a todo s1 s2).
    + assumption.
Qed.

(** A loop whose every iteration succeeds under an invariant succeeds. *)
Lemma for_each_total {A S : Type} (body : A -> S -> option S)
    (I : S -> Prop) (l : list A) (s : S) :
  I s ->
  (forall a s1, In a l -> I s1 -> exists s2, body a s1 = Some s2 /\ I s2) ->
  exists s', for_each body l s = Some s' /\ I s'.
Proof.
  revert s. induction l as [|a l IH]; intros s Hs Hstep; cbn.
  - eauto.
  - destruct (Hstep a s) as (s2 & -> & Hs2); [now left | assumption |].
    apply IH; [assumption|]. intros a' s1 Ha'. apply Hstep. now right.
Qed.

Lemma for_each_fails {A S : Type} (body : A -> S -> option S)
    (I : S -> Prop) (l : list A) (s : S) (a : A) :
  I s -> In a l ->
  (forall s1, I s1 -> body a s1 = None) ->
  (forall a' s1 s2, I s1 -> body a' s1 = Some s2 -> I s2) ->
  for_each body l s = None.
Proof.
  revert s. induction l as [|a' l IH]; intros s Hs Hin Hfail Hpres; cbn.
  - contradiction.
  - destruct (body a' s) as [s2|] eqn:Hb; [|reflexivity].
    destruct Hin as [->|Hin].
    + rewrite (Hfail s Hs) in Hb. discriminate.
    + apply IH; eauto.
Qed.

(** A loop over distinct nodes in which every iteration rewrites its own
    node only, from that node's value. *)
Lemma fold_nodes_spec {S T : Type} (body : ivec3 -> S -> S)
    (get : S -> ivec3 -> T) (f : ivec3 -> T -> T) (I : S -> Prop)
    (l : list ivec3) :
  NoDup l ->
  (forall n s, I s -> I (body n s)) ->
  (forall n s n', I s ->
      get (body n s) n' = if ivec3_eqb n' n then f n (get s n) else get s n') ->
  forall s, I s ->
    I (fold_left (fun s n => body n s) l s) /\
    forall n, get (fold_left (fun s n => body n s) l s) n
              = if existsb (ivec3_eqb n) l then f n (get s n) else get s n.
Proof.
  intros Hnd HI Hget. induction Hnd as [|a l Hnin Hnd IH]; intros s Hs; cbn.
  - auto.
  - destruct (IH (body a s) (HI a s Hs)) as [HI' Hval]. split; [assumption|].
    intros n. rewrite Hval, !Hget by assumption.
    destruct (ivec3_eqb n a) eqn:Hna; cbn.
    + apply ivec3_eqb_eq in Hna. subst a.
      destruct (existsb (ivec3_eqb n) l) eqn:Hex; [|reflexivity].
      apply existsb_exists in Hex as (n' & Hin & Heq).
      apply ivec3_eqb_eq in Heq. subst n'. contradiction.
    + reflexivity.
Qed.

Lemma existsb_grid_nodes (n : ivec3) :
  existsb (ivec3_eqb n) grid_nodes = in_grid n.
Proof.
  destruct (in_grid n) eqn:Hin.
  - apply existsb_exists. exists n. split.
    + now apply in_grid_nodes.
    + apply ivec3_eqb_refl.
  - destruct (existsb (ivec3_eqb n) grid_nodes) eqn:Hex; [|reflexivity].
    apply existsb_exists in Hex as (n' & Hn' & Heq).
    apply ivec3_eqb_eq in Heq. subst n'.
    apply in_grid_nodes in Hn'. congruence.
Qed.

(** The list of the n_grid^3 nodes is never to be computed. *)
Opaque grid_nodes.

(** ** Constants *)

Lemma n_grid_val : n_grid = 128%Z.
Proof. reflexivity. Qed.

Lemma inv_dx_val : inv_dx = 128.
Proof. unfold inv_dx. now rewrite n_grid_val. Qed.

Lemma dx_val : dx = 1 / 128.
Proof. unfold dx. now rewrite n_grid_val. Qed.

Lemma dt_val : dt = 1 / 10000.
Proof. unfold dt, quality. lra. Qed.

Lemma p_mass_val : p_mass = 1 / 65536.
Proof. unfold p_mass, p_vol, p_rho. rewrite dx_val. lra. Qed.

Lemma p_mass_pos : 0 < p_mass.
Proof. rewrite p_mass_val. lra. Qed.

(** ** Vector and matrix algebra *)

Ltac la_unfold :=
  unfold kirchoff_FCR, mscale_r, vscale_r, mmul, mat_vec, transpose, col,
    outer_product, mscale, madd, msub, mmap, vadd, vsub, vscale, vmap2, vmap,
    vdot, identity, mzero, vzero, mget, mrow, vget, vset in *;
  cbn [vx vy vz row0 row1 row2] in *.

Ltac la_destruct :=
  repeat match goal with
    | u : vec3 |- _ => destruct u
    | A : mat3 |- _ => destruct A
    end.

Lemma vec3_ext (a a' b b' c c' : R) :
  a = a' -> b = b' -> c = c' -> Vec3 a b c = Vec3 a' b' c'.
Proof. congruence. Qed.

Lemma mat3_ext (a a' b b' c c' : vec3) :
  a = a' -> b = b' -> c = c' -> Mat3 a b c = Mat3 a' b' c'.
Proof. congruence. Qed.

Ltac la_split := repeat (apply mat3_ext || apply vec3_ext).
Ltac la_ring := intros; la_destruct; la_unfold; la_split; ring.

Lemma vadd_zero_r (u : vec3) : u +v vzero = u.
Proof. la_ring. Qed.

Lemma vadd_zero_l (u : vec3) : vzero +v u = u.
Proof. la_ring. Qed.

Lemma vadd_assoc (a b c : vec3) : a +v b +v c = a +v (b +v c).
Proof. la_ring. Qed.

Lemma vscale_zero (u : vec3) : 0 *v u = vzero.
Proof. la_ring. Qed.

Lemma vscale_one (u : vec3) : 1 *v u = u.
Proof. la_ring. Qed.

Lemma vscale_add_l (a b : R) (u : vec3) : (a + b) *v u = a *v u +v b *v u.
Proof. la_ring. Qed.

Lemma madd_zero_l (A : mat3) : mzero +m A = A.
Proof. la_ring. Qed.

Lemma mmul_assoc (A B D : mat3) : A @m B @m D = A @m (B @m D).
Proof. la_ring. Qed.

Lemma mmul_id_l (A : mat3) : identity @m A = A.
Proof. la_ring. Qed.

Lemma mmul_id_r (A : mat3) : A @m identity = A.
Proof. la_ring. Qed.

Lemma transpose_mmul (A B : mat3) :
  transpose (A @m B) = transpose B @m transpose A.
Proof. la_ring. Qed.

Lemma transpose_involutive (A : mat3) : transpose (transpose A) = A.
Proof. la_ring. Qed.

(** ** The cast to [int] *)

Lemma cast_int_nonneg (r : R) : 0 <= r -> cast_int r = Zfloor r.
Proof. intros H. unfold cast_int. destruct (Rlt_dec r 0); [lra | reflexivity]. Qed.

Lemma cast_int_neg (r : R) : r < 0 -> cast_int r = Zceil r.
Proof. intros H. unfold cast_int. destruct (Rlt_dec r 0); [reflexivity | lra]. Qed.

Lemma cast_int_lower (r : R) : (0 <= cast_int r)%Z <-> -1 < r.
Proof.
  unfold cast_int. destruct (Rlt_dec r 0) as [Hneg|Hpos].
  - pose proof (Zceil_bound r) as [Hlo Hhi]. split.
    + intros H. apply IZR_le in H. lra.
    + intros H. assert (H' : IZR (-1) < IZR (Zceil r)) by lra.
      apply lt_IZR in H'. lia.
  - pose proof (Zfloor_bound r) as [Hlo Hhi]. split; [lra|].
    intros _. assert (IZR (Zfloor r) > -1) by lra.
    apply lt_IZR in H. lia.
Qed.

Lemma cast_int_upper (r : R) (k : Z) :
  (0 <= k)%Z -> ((cast_int r <= k)%Z <-> r < IZR k + 1).
Proof.
  intros Hk. unfold cast_int. destruct (Rlt_dec r 0) as [Hneg|Hpos].
  - pose proof (Zceil_bound r) as [Hlo Hhi].
    apply IZR_le in Hk. split; [lra|]. intros _.
    assert (H : IZR (Zceil r) < 1) by lra. apply lt_IZR in H.
    apply le_IZR in Hk. lia.
  - pose proof (Zfloor_bound r) as [Hlo Hhi]. split.
    + intros H. apply IZR_le in H. lra.
    + intros H. assert (H' : IZR (Zfloor r) < IZR (k + 1)) by (rewrite plus_IZR; lra).
      apply lt_IZR in H'. lia.
Qed.

(** ** Constitutive model *)

Lemma lit_1_0 : 1.0 = 1.
Proof. lra. Qed.

Lemma sv_loop_val (jp : R) (sig : mat3) :
  fold_left sv_step [0; 1; 2]%nat (jp, sig, 1.0)
  = (jp * (mget sig 0 0 / mget sig 0 0) * (mget sig 1 1 / mget sig 1 1)
        * (mget sig 2 2 / mget sig 2 2),
     sig,
     mget sig 0 0 * mget sig 1 1 * mget sig 2 2).
Proof.
  destruct sig as [[] [] []]. cbn. rewrite lit_1_0.
  repeat f_equal. ring.
Qed.

Lemma kirchoff_FCR_val (Fp Rp : mat3) (J mu la : R) :
  kirchoff_FCR Fp Rp J mu la
  = (2 * mu) *m ((Fp -m Rp) @m transpose Fp) +m (la * J * (J - 1)) *m identity.
Proof. la_ring. Qed.

(** C1: the Kirchhoff stress that P2G computes for particle [p], and hands to
    every iteration of its neighbourhood loop, is
    2 mu (F - R) F^T + lambda J (J - 1) I, with R = U V^T and J the product
    of the diagonal of sig for (U, sig, V) = svd(F[p]), mu = E / (2 (1 + nu))
    and lambda = E nu / ((1 + nu) (1 - 2 nu)) at E = 1e3, nu = 0.2. *)
Theorem kirchoff_stress_formula (svd : mat3 -> mat3 * mat3 * mat3)
    (st : state) (p : nat) :
  let '(U, sig, V) := svd (F st p) in
  let Rp := U @m transpose V in
  let J := mget sig 0 0 * mget sig 1 1 * mget sig 2 2 in
  let mu := 1e3 / (2 * (1 + 0.2)) in
  let lambda := 1e3 * 0.2 / ((1 + 0.2) * (1 - 2 * 0.2)) in
  let tau := (2 * mu) *m ((F st p -m Rp) @m transpose (F st p))
             +m (lambda * J * (J - 1)) *m identity in
  snd (p2g_stress svd (F st p) (Jp st p)) = tau /\
  p2g_particle svd p st
  = for_each (p2g_node p (p2g_base (x st p)) (p2g_fx (x st p))
                (p2g_w (p2g_fx (x st p))) (p2g_dw (p2g_fx (x st p))) tau)
      (ndrange 3 3 3)
      (set_Jp st (upd (Jp st) p (fst (p2g_stress svd (F st p) (Jp st p))))).
Proof.
  destruct (svd (F st p)) as [[U sig] V] eqn:Hsvd. cbv zeta.
  assert (Htau : snd (p2g_stress svd (F st p) (Jp st p))
     = (2 * (1e3 / (2 * (1 + 0.2))))
         *m ((F st p -m U @m transpose V) @m transpose (F st p))
       +m (1e3 * 0.2 / ((1 + 0.2) * (1 - 2 * 0.2))
           * (mget sig 0 0 * mget sig 1 1 * mget sig 2 2)
           * (mget sig 0 0 * mget sig 1 1 * mget sig 2 2 - 1)) *m identity).
  { unfold p2g_stress. rewrite Hsvd, sv_loop_val. cbn [snd].
    now rewrite kirchoff_FCR_val. }
  split; [exact Htau|].
  unfold p2g_particle. rewrite <- Htau.
  destruct (p2g_stress svd (F st p) (Jp st p)) as [jp tau]. reflexivity.
Qed.

(** ** Scatter (P2G) *)

Lemma offsets_cases (o : ivec3) :
  In o (ndrange 3 3 3) ->
  (ix o = 0 \/ ix o = 1 \/ ix o = 2)%Z /\
  (iy o = 0 \/ iy o = 1 \/ iy o = 2)%Z /\
  (iz o = 0 \/ iz o = 1 \/ iz o = 2)%Z.
Proof. rewrite in_ndrange. lia. Qed.

Lemma node_weight_p2g (fx : vec3) (o : ivec3) :
  In o (ndrange 3 3 3) ->
  node_weight (p2g_w fx) o
  = bspline (ix o) (vx fx) * bspline (iy o) (vy fx) * bspline (iz o) (vz fx).
Proof.
  intros H. apply offsets_cases in H. destruct o as [i j k]. cbn in H.
  destruct H as ([-> | [-> | ->]] & [-> | [-> | ->]] & [-> | [-> | ->]]);
    reflexivity.
Qed.

Lemma node_dweight_p2g (fx : vec3) (o : ivec3) :
  In o (ndrange 3 3 3) ->
  node_dweight (p2g_w fx) (p2g_dw fx) o
  = Vec3 (inv_dx * bspline_deriv (ix o) (vx fx) * bspline (iy o) (vy fx)
          * bspline (iz o) (vz fx))
         (inv_dx * bspline (ix o) (vx fx) * bspline_deriv (iy o) (vy fx)
          * bspline (iz o) (vz fx))
         (inv_dx * bspline (ix o) (vx fx) * bspline (iy o) (vy fx)
          * bspline_deriv (iz o) (vz fx)).
Proof.
  intros H. apply offsets_cases in H. destruct o as [i j k]. cbn in H.
  destruct H as ([-> | [-> | ->]] & [-> | [-> | ->]] & [-> | [-> | ->]]);
    reflexivity.
Qed.

Lemma same_particles_refl (a : state) : same_particles a a.
Proof. unfold same_particles. tauto. Qed.

Lemma same_particles_trans (a b c : state) :
  same_particles a b -> same_particles b c -> same_particles a c.
Proof.
  unfold same_particles.
  intros (? & ? & ? & ? & ? & ? & ?) (? & ? & ? & ? & ? & ? & ?).
  repeat split; congruence.
Qed.

(** One iteration of the neighbourhood loop: it succeeds exactly on a node
    of the grid, and adds to that node only. *)
Lemma p2g_node_spec (p : nat) (base : ivec3) (fx : vec3) (w dw : list vec3)
    (tau : mat3) (o : ivec3) (st st' : state) :
  p2g_node p base fx w dw tau o st = Some st' ->
  in_grid (iadd base o) = true /\
  same_particles st' st /\
  grid_m st' = gupd (grid_m st) (iadd base o)
                 (grid_m st (iadd base o) + node_weight w o * p_mass) /\
  forall n, grid_v st' n
    = if ivec3_eqb n (iadd base o)
      then grid_v st n
           +v (p_mass * node_weight w o)
              *v (v st p +v C st p @v vscale_r (vcast_float o -v fx) dx)
           +v dt *v ((- p_vol) *m tau @v node_dweight w dw o)
      else grid_v st n.
Proof.
  unfold p2g_node, grid_v_add, grid_m_add. cbn.
  destruct (in_grid (iadd base o)); [|discriminate].
  intros H. inversion H; subst; clear H. cbn.
  repeat split. intros n. unfold gupd.
  rewrite ivec3_eqb_refl. destruct (ivec3_eqb n (iadd base o)) eqn:Hn.
  - apply ivec3_eqb_eq in Hn. now subst n.
  - reflexivity.
Qed.

Lemma p2g_node_total (p : nat) (base : ivec3) (fx : vec3) (w dw : list vec3)
    (tau : mat3) (o : ivec3) (st : state) :
  in_grid (iadd base o) = true ->
  exists st', p2g_node p base fx w dw tau o st = Some st'.
Proof.
  intros H. unfold p2g_node, grid_v_add, grid_m_add. cbn. rewrite H. eauto.
Qed.

Lemma p2g_node_fails (p : nat) (base : ivec3) (fx : vec3) (w dw : list vec3)
    (tau : mat3) (o : ivec3) (st : state) :
  in_grid (iadd base o) = false ->
  p2g_node p base fx w dw tau o st = None.
Proof.
  intros H. unfold p2g_node, grid_v_add. now rewrite H.
Qed.

(** The neighbourhood loop of one particle, node by node. *)
Lemma p2g_loop_nodes (p : nat) (base : ivec3) (fx : vec3) (w dw : list vec3)
    (tau : mat3) (l : list ivec3) (st st' : state) :
  NoDup l ->
  for_each (p2g_node p base fx w dw tau) l st = Some st' ->
  same_particles st' st /\
  (forall o, In o l ->
     in_grid (iadd base o) = true /\
     grid_m st' (iadd base o)
       = grid_m st (iadd base o) + node_weight w o * p_mass /\
     grid_v st' (iadd base o)
       = grid_v st (iadd base o)
         +v (p_mass * node_weight w o)
            *v (v st p +v C st p @v vscale_r (vcast_float o -v fx) dx)
         +v dt *v ((- p_vol) *m tau @v node_dweight w dw o)) /\
  (forall n, (forall o, In o l -> n <> iadd base o) ->
     grid_m st' n = grid_m st n /\ grid_v st' n = grid_v st n).
Proof.
  intros Hnd Hrun.
  apply (for_each_ind (p2g_node p base fx w dw tau)
           (fun done s =>
              same_particles s st /\
              (forall o, In o done ->
                 in_grid (iadd base o) = true /\
                 grid_m s (iadd base o)
                   = grid_m st (iadd base o) + node_weight w o * p_mass /\
                 grid_v s (iadd base o)
                   = grid_v st (iadd base o)
                     +v (p_mass * node_weight w o)
                        *v (v st p
                            +v C st p @v vscale_r (vcast_float o -v fx) dx)
                     +v dt *v ((- p_vol) *m tau @v node_dweight w dw o)) /\
              (forall n, (forall o, In o done -> n <> iadd base o) ->
                 grid_m s n = grid_m st n /\ grid_v s n = grid_v st n))
           l st st'); [| | exact Hrun].
  - split; [apply same_particles_refl|]. split; [contradiction | auto].
  - intros done a rest s1 s2 Hl (Hsame & Hin & Hout) Hstep.
    apply p2g_node_spec in Hstep as (Hgrid & Hsame' & Hm & Hv).
    assert (Hfresh : ~ In a done).
    { rewrite Hl in Hnd. apply NoDup_remove_2 in Hnd.
      intros H. apply Hnd. apply in_or_app. now left. }
    pose proof Hsame as (Hx & _ & Hvv & HC & _).
    split; [exact (same_particles_trans _ _ _ Hsame' Hsame)|].
    split.
    + intros o Ho. apply in_app_or in Ho as [Ho | [<- | []]].
      * destruct (Hin o Ho) as (Hg & Hmo & Hvo).
        assert (Hne : iadd base o <> iadd base a).
        { intros H. apply iadd_cancel in H. subst. contradiction. }
        rewrite Hm, Hv, gupd_other, ivec3_eqb_neq by assumption. auto.
      * destruct (Hout (iadd base a)) as [Hma Hva].
        { intros o Ho H. apply iadd_cancel in H. subst. contradiction. }
        rewrite Hm, Hv, gupd_same, ivec3_eqb_refl, Hma, Hva, Hvv, HC. auto.
    + intros n Hn.
      assert (Hne : n <> iadd base a).
      { apply Hn. apply in_or_app. right. now left. }
      rewrite Hm, Hv, gupd_other, ivec3_eqb_neq by assumption.
      apply Hout. intros o Ho. apply Hn. apply in_or_app. now left.
Qed.

Lemma vscale_r_eq (u : vec3) (a : R) : vscale_r u a = a *v u.
Proof. la_ring. Qed.

Lemma mscale_mat_vec (a : R) (A : mat3) (u : vec3) :
  a *m A @v u = a *v (A @v u).
Proof. la_ring. Qed.

Lemma p2g_particle_loop (svd : mat3 -> mat3 * mat3 * mat3) (p : nat)
    (st : state) :
  p2g_particle svd p st
  = for_each (p2g_node p (p2g_base (x st p)) (p2g_fx (x st p))
                (p2g_w (p2g_fx (x st p))) (p2g_dw (p2g_fx (x st p)))
                (snd (p2g_stress svd (F st p) (Jp st p))))
      (ndrange 3 3 3)
      (set_Jp st (upd (Jp st) p (fst (p2g_stress svd (F st p) (Jp st p))))).
Proof.
  unfold p2g_particle.
  now destruct (p2g_stress svd (F st p) (Jp st p)).
Qed.

(** C2: P2G of particle [p] adds to the momentum of each of its 27 nodes
    [base + o] the value p_mass w (v[p] + C[p] ((o - fx) dx)) plus
    dt (- p_vol tau grad w), and to the mass of that node p_mass w, where w is
    the product of the three per-axis quadratic B-spline weights and grad w
    its gradient; no other node changes.  The force term enters the momentum
    as it is, with no division by a mass. *)
Theorem p2g_node_contributions (svd : mat3 -> mat3 * mat3 * mat3) (p : nat)
    (st st' : state) :
  p2g_particle svd p st = Some st' ->
  let base := p2g_base (x st p) in
  let fx := p2g_fx (x st p) in
  let tau := snd (p2g_stress svd (F st p) (Jp st p)) in
  (forall o, In o (ndrange 3 3 3) ->
     let weight :=
       bspline (ix o) (vx fx) * bspline (iy o) (vy fx) * bspline (iz o) (vz fx) in
     let grad :=
       Vec3 (inv_dx * bspline_deriv (ix o) (vx fx) * bspline (iy o) (vy fx)
             * bspline (iz o) (vz fx))
            (inv_dx * bspline (ix o) (vx fx) * bspline_deriv (iy o) (vy fx)
             * bspline (iz o) (vz fx))
            (inv_dx * bspline (ix o) (vx fx) * bspline (iy o) (vy fx)
             * bspline_deriv (iz o) (vz fx)) in
     grid_v st' (iadd base o)
     = grid_v st (iadd base o)
       +v (p_mass * weight)
          *v (v st p +v C st p @v (dx *v (vcast_float o -v fx)))
       +v dt *v ((- p_vol) *v (tau @v grad)) /\
     grid_m st' (iadd base o) = grid_m st (iadd base o) + p_mass * weight) /\
  (forall n, (forall o, In o (ndrange 3 3 3) -> n <> iadd base o) ->
     grid_v st' n = grid_v st n /\ grid_m st' n = grid_m st n).
Proof.
  rewrite p2g_particle_loop. intros Hrun.
  apply p2g_loop_nodes in Hrun as (_ & Hin & Hout); [|apply NoDup_ndrange].
  cbv zeta. split.
  - intros o Ho. destruct (Hin o Ho) as (_ & Hm & Hv).
    unfold set_Jp in Hm, Hv. cbn [grid_m grid_v v C] in Hm, Hv.
    rewrite Hm, Hv, node_weight_p2g, node_dweight_p2g by assumption.
    rewrite vscale_r_eq, mscale_mat_vec. split; [reflexivity | ring].
  - intros n Hn. destruct (Hout n Hn) as [Hm Hv]. auto.
Qed.

(** ** Which particles keep all accesses inside the grid *)

Lemma offsets_in_range (b : Z) :
  (in_range (b + 0) = true /\ in_range (b + 2) = true)
  <-> (0 <= b <= n_grid - 3)%Z.
Proof.
  unfold in_range. rewrite !andb_true_iff, !Z.leb_le, !Z.ltb_lt. lia.
Qed.

Lemma neighbourhood_base (xp : vec3) :
  neighbourhood_in_grid xp <->
  (0 <= ix (p2g_base xp) <= n_grid - 3)%Z /\
  (0 <= iy (p2g_base xp) <= n_grid - 3)%Z /\
  (0 <= iz (p2g_base xp) <= n_grid - 3)%Z.
Proof.
  unfold neighbourhood_in_grid. split.
  - intros H.
    assert (H0 : in_grid (iadd (p2g_base xp) (IVec3 0 0 0)) = true)
      by (apply H; rewrite in_ndrange; cbn; lia).
    assert (H2 : in_grid (iadd (p2g_base xp) (IVec3 2 2 2)) = true)
      by (apply H; rewrite in_ndrange; cbn; lia).
    unfold in_grid, iadd in H0, H2. cbn [ix iy iz] in H0, H2.
    rewrite !andb_true_iff in H0, H2.
    rewrite <- !offsets_in_range. tauto.
  - intros (Hx & Hy & Hz) o Ho. apply in_ndrange in Ho.
    unfold in_grid, in_range, iadd. cbn [ix iy iz].
    rewrite !andb_true_iff, !Z.leb_le, !Z.ltb_lt. lia.
Qed.

Lemma coord_base_range (c : R) :
  (0 <= cast_int (c * inv_dx - 0.5) <= n_grid - 3)%Z <-> safe_coord c.
Proof.
  unfold safe_coord. rewrite cast_int_lower.
  rewrite (cast_int_upper _ (n_grid - 3)) by (rewrite n_grid_val; lia).
  rewrite minus_IZR, dx_val, inv_dx_val, n_grid_val. lra.
Qed.

Lemma neighbourhood_safe (xp : vec3) :
  neighbourhood_in_grid xp <-> in_box safe_coord xp.
Proof.
  rewrite neighbourhood_base. unfold in_box, p2g_base, vcast_int, vmap. cbn.
  now rewrite !coord_base_range.
Qed.

(** ** Gather (G2P) *)

Lemma madd_assoc (A B D : mat3) : A +m B +m D = A +m (B +m D).
Proof. la_ring. Qed.

Lemma madd_zero_r (A : mat3) : A +m mzero = A.
Proof. la_ring. Qed.

Lemma node_weight_g2p (fx : vec3) (o : ivec3) :
  node_weight (g2p_w fx) o = node_weight (p2g_w fx) o.
Proof. unfold g2p_w, p2g_w. now rewrite lit_1_0. Qed.

Lemma node_dweight_g2p (fx : vec3) (o : ivec3) :
  node_dweight (g2p_w fx) (g2p_dw fx) o = node_dweight (p2g_w fx) (p2g_dw fx) o.
Proof. unfold g2p_w, p2g_w, g2p_dw, p2g_dw. now rewrite lit_1_0. Qed.

Lemma node_weight_spline (fx : vec3) (o : ivec3) :
  In o (ndrange 3 3 3) -> node_weight (g2p_w fx) o = spline_weight fx o.
Proof. intros H. rewrite node_weight_g2p. now apply node_weight_p2g. Qed.

Lemma node_dweight_spline (fx : vec3) (o : ivec3) :
  In o (ndrange 3 3 3) ->
  node_dweight (g2p_w fx) (g2p_dw fx) o = spline_grad fx o.
Proof. intros H. rewrite node_dweight_g2p. now apply node_dweight_p2g. Qed.

Lemma g2p_loop_sums (base : ivec3) (fx : vec3) (st : state)
    (l : list ivec3) (a : vec3) (B D : mat3) :
  incl l (ndrange 3 3 3) ->
  (forall o, In o l -> in_grid (iadd base o) = true) ->
  for_each (g2p_node base fx (g2p_w fx) (g2p_dw fx) st) l (a, B, D)
  = Some
      (a +v vsum (map (fun o => spline_weight fx o *v grid_v st (iadd base o)) l),
       B +m msum (map (fun o => (4 * inv_dx * spline_weight fx o)
                        *m outer_product (grid_v st (iadd base o))
                             (vcast_float o -v fx)) l),
       D +m msum (map (fun o => outer_product (grid_v st (iadd base o))
                                  (spline_grad fx o)) l)).
Proof.
  revert a B D. induction l as [|o l IH]; intros a B D Hsub Hin.
  - cbn. now rewrite vadd_zero_r, !madd_zero_r.
  - cbn [for_each]. unfold g2p_node at 1. unfold grid_v_read.
    rewrite (Hin o) by now left.
    rewrite node_weight_spline, node_dweight_spline by (apply Hsub; now left).
    rewrite IH.
    + cbn [map vsum msum fold_right].
      now rewrite vadd_assoc, !madd_assoc.
    + intros o' Ho'. apply Hsub. now right.
    + intros o' Ho'. apply Hin. now right.
Qed.

Lemma g2p_loop_fails (base : ivec3) (fx : vec3) (w dw : list vec3) (st : state)
    (l : list ivec3) (o : ivec3) (acc : vec3 * mat3 * mat3) :
  In o l -> in_grid (iadd base o) = false ->
  for_each (g2p_node base fx w dw st) l acc = None.
Proof.
  intros Hin Hout.
  apply (for_each_fails _ (fun _ => True) l acc o); auto.
  intros [[a B] D] _. unfold g2p_node, grid_v_read. now rewrite Hout.
Qed.

Lemma forallb_false_witness {A : Type} (f : A -> bool) (l : list A) :
  forallb f l = false -> exists a, In a l /\ f a = false.
Proof.
  induction l as [|a l IH]; cbn; [discriminate|].
  destruct (f a) eqn:Hfa; cbn.
  - intros H. destruct (IH H) as (b & Hb & Hfb). exists b. auto.
  - intros _. exists a. auto.
Qed.

Lemma neighbourhood_dec (xp : vec3) :
  {neighbourhood_in_grid xp} +
  {exists o, In o (ndrange 3 3 3) /\ in_grid (iadd (p2g_base xp) o) = false}.
Proof.
  destruct (forallb (fun o => in_grid (iadd (p2g_base xp) o)) (ndrange 3 3 3))
    eqn:Hall.
  - left. intros o Ho. rewrite forallb_forall in Hall. now apply Hall.
  - right. apply forallb_false_witness in Hall as (o & Ho & Hf). eauto.
Qed.

(** ** Grid reset and grid update *)

Lemma Rltb_true (a b : R) : Rltb a b = true <-> a < b.
Proof. unfold Rltb. destruct (Rlt_dec a b); split; auto; discriminate. Qed.

Lemma Rltb_false (a b : R) : Rltb a b = false <-> ~ a < b.
Proof. unfold Rltb. destruct (Rlt_dec a b); split; auto; try discriminate; tauto. Qed.

Lemma clear_grid_spec (st : state) :
  same_particles (clear_grid st) st /\
  forall n, grid_v (clear_grid st) n = (if in_grid n then vzero else grid_v st n)
            /\ grid_m (clear_grid st) n = (if in_grid n then 0 else grid_m st n).
Proof.
  unfold clear_grid.
  destruct (fold_nodes_spec clear_node (fun s n => (grid_v s n, grid_m s n))
              (fun _ _ => (vzero, 0)) (fun s => same_particles s st)
              grid_nodes NoDup_grid_nodes) with (s := st) as [Hsame Hval].
  - intros n s Hs. exact Hs.
  - intros n s n' _. unfold clear_node, gupd. cbn.
    now destruct (ivec3_eqb n' n).
  - apply same_particles_refl.
  - split; [exact Hsame|]. intros n. specialize (Hval n).
    rewrite existsb_grid_nodes in Hval.
    destruct (in_grid n);
      (split; [exact (f_equal fst Hval) | exact (f_equal snd Hval)]).
Qed.

Lemma grid_node_spec (n : ivec3) (st : state) :
  same_particles (grid_node n st) st /\
  grid_m (grid_node n st) = grid_m st /\
  forall n', grid_v (grid_node n st) n'
             = if ivec3_eqb n' n
               then node_velocity (gravity st) n (grid_v st n) (grid_m st n)
               else grid_v st n'.
Proof.
  unfold grid_node, node_velocity.
  destruct (Rltb 0 (grid_m st n)); cbn.
  - repeat split. intros n'. unfold gupd. rewrite !ivec3_eqb_refl.
    now destruct (ivec3_eqb n' n).
  - repeat split. intros n'. destruct (ivec3_eqb n' n) eqn:Hn; [|reflexivity].
    apply ivec3_eqb_eq in Hn. now subst.
Qed.

Lemma grid_update_spec (st : state) :
  same_particles (grid_update st) st /\
  grid_m (grid_update st) = grid_m st /\
  forall n, grid_v (grid_update st) n
            = if in_grid n
              then node_velocity (gravity st) n (grid_v st n) (grid_m st n)
              else grid_v st n.
Proof.
  unfold grid_update.
  destruct (fold_nodes_spec grid_node grid_v
              (fun n gv => node_velocity (gravity st) n gv (grid_m st n))
              (fun s => same_particles s st /\ grid_m s = grid_m st)
              grid_nodes NoDup_grid_nodes) with (s := st)
    as [[Hsame Hm] Hval].
  - intros n s [Hs Hm]. destruct (grid_node_spec n s) as (Hs' & Hm' & _).
    split; [exact (same_particles_trans _ _ _ Hs' Hs) | congruence].
  - intros n s n' [Hs Hm]. destruct (grid_node_spec n s) as (_ & _ & Hv).
    rewrite Hv, Hm. now destruct Hs as (_ & _ & _ & _ & _ & _ & ->).
  - split; [apply same_particles_refl | reflexivity].
  - split; [exact Hsame|]. split; [exact Hm|].
    intros n. rewrite Hval, existsb_grid_nodes. reflexivity.
Qed.

(** C3: in the grid update a node of positive mass gets momentum divided by
    mass, then the increment dt * gravity * 9.8 (and then the wall check);
    a node of zero mass keeps its vector, in particular the zero of the
    reset; no mass changes. *)
Theorem grid_update_velocity (st : state) (n : ivec3) :
  in_grid n = true ->
  (0 < grid_m st n ->
     grid_v (grid_update st) n
     = wall_collide n ((1 / grid_m st n) *v grid_v st n
                       +v (dt * 9.8) *v gravity st)) /\
  (grid_m st n = 0 -> grid_v (grid_update st) n = grid_v st n) /\
  (grid_m st n = 0 -> grid_v st n = vzero -> grid_v (grid_update st) n = vzero) /\
  grid_m (grid_update st) n = grid_m st n.
Proof.
  intros Hin. destruct (grid_update_spec st) as (_ & Hm & Hv).
  rewrite Hv, Hin, Hm. clear Hm Hv. unfold node_velocity.
  split; [|split; [|split; [|reflexivity]]].
  - intros Hpos. apply Rltb_true in Hpos. rewrite Hpos.
    f_equal. f_equal. la_ring.
  - intros H0. assert (Hf : Rltb 0 (grid_m st n) = false)
      by (apply Rltb_false; lra). rewrite Hf. reflexivity.
  - intros H0 Hz. assert (Hf : Rltb 0 (grid_m st n) = false)
      by (apply Rltb_false; lra). rewrite Hf. exact Hz.
Qed.

Lemma grid_update_velocity_witness :
  grid_v (grid_update (loaded_grid_state (Vec3 2 4 6) 2 (Vec3 0 (-1) 0)))
         (IVec3 64 64 64)
  = Vec3 1 (2 - dt * 9.8) 3.
Proof.
  destruct (grid_update_velocity
              (loaded_grid_state (Vec3 2 4 6) 2 (Vec3 0 (-1) 0))
              (IVec3 64 64 64) eq_refl) as (H & _).
  rewrite H by (cbn; lra). cbn [loaded_grid_state grid_m grid_v gravity].
  unfold wall_collide. cbn [ix iy iz].
  replace (64 <? 3)%Z with false by reflexivity.
  replace (64 >? n_grid - 3)%Z with false by reflexivity.
  cbn [andb]. la_unfold. la_split; lra.
Defined.

(** ** Wall check *)

Lemma Rltb_0_0 : Rltb 0 0 = false.
Proof. apply Rltb_false. lra. Qed.

Lemma wall_axis (d : nat) (i : Z) (gv : vec3) :
  (let gv1 := if (i <? 3)%Z && Rltb (vget gv d) 0 then vset gv d 0 else gv in
   if (i >? n_grid - 3)%Z && Rltb 0 (vget gv1 d) then vset gv1 d 0 else gv1)
  = vset gv d (axis_wall i (vget gv d)).
Proof.
  unfold axis_wall. destruct gv as [a b c].
  destruct d as [|[|d]]; cbn [vget vset vx vy vz];
    destruct (i <? 3)%Z, (i >? n_grid - 3)%Z;
    cbn [andb orb vget vset vx vy vz];
    match goal with
    | |- context [Rltb ?u 0] => destruct (Rltb u 0) eqn:H1
    | _ => idtac
    end;
    cbn [andb orb vget vset vx vy vz]; rewrite ?Rltb_0_0;
    try reflexivity;
    match goal with
    | |- context [Rltb 0 ?u] => destruct (Rltb 0 u) eqn:H2
    end; reflexivity.
Qed.

Lemma wall_collide_axes (n : ivec3) (gv : vec3) :
  wall_collide n gv
  = Vec3 (axis_wall (ix n) (vx gv)) (axis_wall (iy n) (vy gv))
         (axis_wall (iz n) (vz gv)).
Proof.
  unfold wall_collide.
  pose proof (wall_axis 0 (ix n) gv) as H0. cbv zeta in H0. rewrite H0.
  pose proof (wall_axis 1 (iy n) (vset gv 0 (axis_wall (ix n) (vget gv 0)))) as H1.
  cbv zeta in H1. rewrite H1.
  pose proof (wall_axis 2 (iz n)
                (vset (vset gv 0 (axis_wall (ix n) (vget gv 0))) 1
                   (axis_wall (iy n)
                      (vget (vset gv 0 (axis_wall (ix n) (vget gv 0))) 1)))) as H2.
  cbv zeta in H2. rewrite H2.
  destruct gv. reflexivity.
Qed.

Lemma axis_wall_cases (i : Z) (c : R) :
  (((i < 3)%Z /\ c < 0) \/ ((n_grid - 1 - i < 2)%Z /\ 0 < c) -> axis_wall i c = 0) /\
  (~ (((i < 3)%Z /\ c < 0) \/ ((n_grid - 1 - i < 2)%Z /\ 0 < c)) -> axis_wall i c = c).
Proof.
  unfold axis_wall, Rltb. rewrite Z.gtb_ltb.
  destruct (Z.ltb_spec i 3) as [Hlo|Hlo];
    destruct (Z.ltb_spec (n_grid - 3) i) as [Hhi|Hhi];
    destruct (Rlt_dec c 0) as [Hneg|Hneg];
    destruct (Rlt_dec 0 c) as [Hpos|Hpos];
    cbn [andb orb]; split; intros H; try reflexivity; try lra;
    try (destruct H as [[? ?]|[? ?]]; (lra || lia));
    exfalso; apply H;
    first [left; split; [lia | lra] | right; split; [lia | lra]].
Qed.

(** C4 as the code has it: on each axis the wall check zeroes exactly the
    component of that axis, when it is negative at a node of index below 3
    (three layers at the low face) or positive at a node of index above
    n_grid - 3 (two layers, n_grid - 2 and n_grid - 1, at the high face);
    every other component is left as it is. *)
Theorem wall_check_components :
  (forall n gv,
     wall_collide n gv
     = Vec3 (axis_wall (ix n) (vx gv)) (axis_wall (iy n) (vy gv))
            (axis_wall (iz n) (vz gv))) /\
  (forall i c,
     (((i < 3)%Z /\ c < 0) \/ ((n_grid - 1 - i < 2)%Z /\ 0 < c)
      -> axis_wall i c = 0) /\
     (~ (((i < 3)%Z /\ c < 0) \/ ((n_grid - 1 - i < 2)%Z /\ 0 < c))
      -> axis_wall i c = c)).
Proof. split; [exact wall_collide_axes | exact axis_wall_cases]. Qed.

(** C4 as stated fails: no single margin in node layers describes both
    faces.  Node 2 is in the low margin, so the margin would exceed 2; node
    n_grid - 3, third layer from the high face, keeps a positive component. *)
Lemma wall_margin_not_symmetric : ~ exists margin : Z, symmetric_margin margin.
Proof.
  intros [M H].
  pose proof (H (IVec3 2 64 64) (Vec3 (-1) 0 0) eq_refl) as Hlo.
  pose proof (H (IVec3 (n_grid - 3) 64 64) (Vec3 1 0 0) eq_refl) as Hhi.
  rewrite wall_collide_axes in Hlo, Hhi. unfold axis_wall in Hlo, Hhi.
  cbn [vx ix] in Hlo, Hhi.
  replace (Rltb (-1) 0) with true in Hlo by (symmetry; apply Rltb_true; lra).
  replace (Rltb 0 (-1)) with false in Hlo by (symmetry; apply Rltb_false; lra).
  replace (Rltb 1 0) with false in Hhi by (symmetry; apply Rltb_false; lra).
  replace (Rltb 0 1) with true in Hhi by (symmetry; apply Rltb_true; lra).
  replace (2 <? 3)%Z with true in Hlo by reflexivity.
  replace (n_grid - 3 <? 3)%Z with false in Hhi by reflexivity.
  replace (n_grid - 3 >? n_grid - 3)%Z with false in Hhi by reflexivity.
  replace (n_grid - 1 - (n_grid - 3))%Z with 2%Z in Hhi by reflexivity.
  rewrite ?andb_true_r, ?andb_false_r, ?orb_false_r in Hlo, Hhi.
  cbn [andb orb] in Hlo, Hhi.
  clear H. destruct (2 <? M)%Z; cbn [orb] in Hlo; lra.
Qed.

(** ** Base node, local offset and weights in the two transfers *)

Lemma cast_int_minus_half : cast_int (0 * inv_dx - 0.5) = 0%Z.
Proof.
  rewrite cast_int_neg by lra. apply Zceil_eq. cbn. lra.
Qed.

Lemma floor_minus_half : Zfloor (0 * inv_dx - 0.5) = (-1)%Z.
Proof. apply Zfloor_eq. cbn. lra. Qed.

(** C6 as stated fails: at the position (0, 0, 0) the code's base node is
    (0, 0, 0), the floor of -0.5 is -1. *)
Lemma base_is_not_floor : p2g_base (Vec3 0 0 0) <> floor_base (Vec3 0 0 0).
Proof.
  unfold p2g_base, floor_base, vcast_int, vmap. cbn [vx vy vz].
  rewrite cast_int_minus_half, floor_minus_half. discriminate.
Qed.

Lemma cast_int_fits (r : R) :
  fits_int32 r -> (int32_min <= cast_int r <= int32_max)%Z.
Proof.
  unfold fits_int32, int32_min, int32_max. intros [Hlo Hhi].
  unfold cast_int. destruct (Rlt_dec r 0) as [Hneg|Hpos].
  - pose proof (Zceil_bound r) as [Hc1 Hc2]. split.
    + assert (H : IZR (- 2 ^ 31 - 1) < IZR (Zceil r)).
      { rewrite minus_IZR. lra. }
      apply lt_IZR in H. lia.
    + assert (H : IZR (Zceil r) < IZR 1) by lra.
      apply lt_IZR in H. lia.
  - pose proof (Zfloor_bound r) as [Hf1 Hf2]. split.
    + assert (H : IZR (-1) < IZR (Zfloor r)) by lra.
      apply lt_IZR in H. lia.
    + assert (H : IZR (Zfloor r) < IZR (2 ^ 31 - 1 + 1)).
      { rewrite plus_IZR. lra. }
      apply lt_IZR in H. lia.
Qed.

(** C6 as the code has it, for a position whose scaled coordinates
    position * inv_dx - 0.5 are in the range of a 32-bit int: in both
    transfers the base node is the cast of position * inv_dx - 0.5 to int,
    which rounds toward zero, stays in the 32-bit range and is the floor for
    every coordinate with position * inv_dx >= 0.5; fx is
    position * inv_dx - base; and base, fx, weights and weight gradients of
    G2P are those of P2G. *)
Theorem base_and_weights (xp : vec3) :
  in_box (fun c => fits_int32 (c * inv_dx - 0.5)) xp ->
  p2g_base xp = IVec3 (cast_int (vx xp * inv_dx - 0.5))
                      (cast_int (vy xp * inv_dx - 0.5))
                      (cast_int (vz xp * inv_dx - 0.5)) /\
  ((int32_min <= ix (p2g_base xp) <= int32_max)%Z /\
   (int32_min <= iy (p2g_base xp) <= int32_max)%Z /\
   (int32_min <= iz (p2g_base xp) <= int32_max)%Z) /\
  (forall r, fits_int32 r ->
     (0 <= r -> cast_int r = Zfloor r) /\ (r < 0 -> cast_int r = Zceil r)) /\
  p2g_fx xp = Vec3 (vx xp * inv_dx - IZR (ix (p2g_base xp)))
                   (vy xp * inv_dx - IZR (iy (p2g_base xp)))
                   (vz xp * inv_dx - IZR (iz (p2g_base xp))) /\
  g2p_base xp = p2g_base xp /\
  g2p_fx xp = p2g_fx xp /\
  g2p_w (g2p_fx xp) = p2g_w (p2g_fx xp) /\
  g2p_dw (g2p_fx xp) = p2g_dw (p2g_fx xp) /\
  (in_box (fun c => 0.5 <= c * inv_dx) xp -> p2g_base xp = floor_base xp).
Proof.
  intros (Fx & Fy & Fz).
  split; [reflexivity|]. split.
  { unfold p2g_base, vcast_int, vmap. cbn [ix iy iz vx vy vz].
    split; [exact (cast_int_fits _ Fx)|].
    split; [exact (cast_int_fits _ Fy) | exact (cast_int_fits _ Fz)]. }
  split.
  { intros r _. split; [apply cast_int_nonneg | apply cast_int_neg]. }
  split; [reflexivity|]. split; [reflexivity|]. split; [reflexivity|].
  split.
  { unfold g2p_w, p2g_w, g2p_fx, p2g_fx, g2p_base, p2g_base.
    now rewrite lit_1_0. }
  split; [reflexivity|].
  intros (Hx & Hy & Hz). unfold p2g_base, floor_base, vcast_int, vmap.
  cbn [vx vy vz]. rewrite !cast_int_nonneg by lra. reflexivity.
Qed.

Lemma midpoint_fits :
  in_box (fun c => fits_int32 (c * inv_dx - 0.5)) (Vec3 0.5 0.5 0.5).
Proof.
  unfold in_box, fits_int32, int32_min, int32_max. cbn [vx vy vz].
  replace (- 2 ^ 31)%Z with (-2147483648)%Z by reflexivity.
  replace (2 ^ 31 - 1)%Z with 2147483647%Z by reflexivity.
  rewrite inv_dx_val. repeat split; lra.
Qed.

Lemma base_and_weights_witness :
  p2g_base (Vec3 0.5 0.5 0.5)
  = IVec3 (cast_int (0.5 * inv_dx - 0.5)) (cast_int (0.5 * inv_dx - 0.5))
          (cast_int (0.5 * inv_dx - 0.5)) /\
  g2p_base (Vec3 0.5 0.5 0.5) = p2g_base (Vec3 0.5 0.5 0.5) /\
  g2p_fx (Vec3 0.5 0.5 0.5) = p2g_fx (Vec3 0.5 0.5 0.5) /\
  (int32_min <= ix (p2g_base (Vec3 0.5 0.5 0.5)) <= int32_max)%Z.
Proof.
  destruct (base_and_weights (Vec3 0.5 0.5 0.5) midpoint_fits)
    as (Hb & (Hr & _) & _ & _ & Hgb & Hgf & _).
  split; [exact Hb|]. split; [exact Hgb|]. split; [exact Hgf | exact Hr].
Defined.

(** ** Failure and success of the particle loops *)

Lemma p2g_particle_total (svd : mat3 -> mat3 * mat3 * mat3) (p : nat)
    (st : state) :
  neighbourhood_in_grid (x st p) ->
  exists st', p2g_particle svd p st = Some st'.
Proof.
  intros Hin. rewrite p2g_particle_loop.
  destruct (for_each_total
              (p2g_node p (p2g_base (x st p)) (p2g_fx (x st p))
                 (p2g_w (p2g_fx (x st p))) (p2g_dw (p2g_fx (x st p)))
                 (snd (p2g_stress svd (F st p) (Jp st p))))
              (fun _ => True) (ndrange 3 3 3)
              (set_Jp st (upd (Jp st) p (fst (p2g_stress svd (F st p) (Jp st p))))))
    as (st' & Hrun & _); [exact I | | eauto].
  intros o s1 Ho _.
  destruct (p2g_node_total p (p2g_base (x st p)) (p2g_fx (x st p))
              (p2g_w (p2g_fx (x st p))) (p2g_dw (p2g_fx (x st p)))
              (snd (p2g_stress svd (F st p) (Jp st p))) o s1 (Hin o Ho))
    as [s2 Hs2].
  eauto.
Qed.

Lemma p2g_particle_fails (svd : mat3 -> mat3 * mat3 * mat3) (p : nat)
    (st : state) :
  ~ neighbourhood_in_grid (x st p) -> p2g_particle svd p st = None.
Proof.
  intros Hout. destruct (neighbourhood_dec (x st p)) as [Hin | (o & Ho & Hf)];
    [contradiction|].
  rewrite p2g_particle_loop.
  apply (for_each_fails _ (fun _ => True) _ _ o); auto.
  intros s1 _. now apply p2g_node_fails.
Qed.

Lemma p2g_particle_frame (svd : mat3 -> mat3 * mat3 * mat3) (p : nat)
    (st st' : state) :
  p2g_particle svd p st = Some st' ->
  neighbourhood_in_grid (x st p) /\
  x st' = x st /\ x_2d st' = x_2d st /\ v st' = v st /\ C st' = C st /\
  F st' = F st /\ gravity st' = gravity st /\
  Jp st' = upd (Jp st) p (fst (p2g_stress svd (F st p) (Jp st p))).
Proof.
  intros Hrun. split.
  - destruct (neighbourhood_dec (x st p)) as [Hin | (o & Ho & Hf)]; [assumption|].
    rewrite p2g_particle_fails in Hrun; [discriminate|].
    intros H. rewrite (H o Ho) in Hf. discriminate.
  - rewrite p2g_particle_loop in Hrun.
    apply p2g_loop_nodes in Hrun as (Hsame & _); [|apply NoDup_ndrange].
    unfold same_particles, set_Jp in Hsame. cbn in Hsame. tauto.
Qed.

Lemma g2p_particle_run (p : nat) (st : state) :
  neighbourhood_in_grid (x st p) ->
  g2p_particle p st
  = Some (State
            (upd (x st) p (x st p +v dt *v gather_velocity (grid_v st) (x st p)))
            (upd (x_2d st) p
               (vx (x st p +v dt *v gather_velocity (grid_v st) (x st p)),
                vy (x st p +v dt *v gather_velocity (grid_v st) (x st p))))
            (upd (v st) p (gather_velocity (grid_v st) (x st p)))
            (upd (C st) p (gather_affine (grid_v st) (x st p)))
            (upd (F st) p
               ((identity +m dt *m gather_gradient (grid_v st) (x st p))
                @m F st p))
            (Jp st) (grid_v st) (grid_m st) (gravity st)).
Proof.
  intros Hin. unfold g2p_particle.
  rewrite g2p_loop_sums; [|apply incl_refl | exact Hin].
  rewrite vadd_zero_l, !madd_zero_l.
  unfold gather_velocity, gather_affine, gather_gradient.
  unfold set_F, set_x_2d, set_x, set_C, set_v.
  cbn [x x_2d v C F Jp grid_v grid_m gravity]. rewrite !upd_same.
  reflexivity.
Qed.

Lemma g2p_particle_fails (p : nat) (st : state) :
  ~ neighbourhood_in_grid (x st p) -> g2p_particle p st = None.
Proof.
  intros Hout. destruct (neighbourhood_dec (x st p)) as [Hin | (o & Ho & Hf)];
    [contradiction|].
  unfold g2p_particle.
  now rewrite (g2p_loop_fails _ _ _ _ _ _ o).
Qed.

Lemma g2p_particle_inv (p : nat) (st st' : state) :
  g2p_particle p st = Some st' -> neighbourhood_in_grid (x st p).
Proof.
  intros Hrun. destruct (neighbourhood_dec (x st p)) as [Hin | (o & Ho & Hf)];
    [assumption|].
  rewrite g2p_particle_fails in Hrun; [discriminate|].
  intros H. rewrite (H o Ho) in Hf. discriminate.
Qed.

Lemma p2g_frame (svd : mat3 -> mat3 * mat3 * mat3) (st st' : state) :
  p2g svd st = Some st' ->
  x st' = x st /\ x_2d st' = x_2d st /\ v st' = v st /\ C st' = C st /\
  F st' = F st /\ gravity st' = gravity st /\
  (forall p, (p < n_particles)%nat ->
     neighbourhood_in_grid (x st p) /\
     Jp st' p = fst (p2g_stress svd (F st p) (Jp st p))).
Proof.
  intros Hrun.
  assert (H : (x st' = x st /\ x_2d st' = x_2d st /\ v st' = v st /\
               C st' = C st /\ F st' = F st /\ gravity st' = gravity st) /\
              (forall p, In p (seq 0 n_particles) ->
                 neighbourhood_in_grid (x st p) /\
                 Jp st' p = fst (p2g_stress svd (F st p) (Jp st p))) /\
              (forall p, ~ In p (seq 0 n_particles) -> Jp st' p = Jp st p)).
  { apply (for_each_ind (p2g_particle svd)
             (fun done s =>
                (x s = x st /\ x_2d s = x_2d st /\ v s = v st /\
                 C s = C st /\ F s = F st /\ gravity s = gravity st) /\
                (forall p, In p done ->
                   neighbourhood_in_grid (x st p) /\
                   Jp s p = fst (p2g_stress svd (F st p) (Jp st p))) /\
                (forall p, ~ In p done -> Jp s p = Jp st p))
             (seq 0 n_particles) st st'); [| | exact Hrun].
    - repeat split; tauto.
    - intros done a rest s1 s2 Hl (Hfr & Hdone & Hrest) Hstep.
      apply p2g_particle_frame in Hstep
        as (Hin & Hx & H2 & Hv & HC & HF & Hg & HJ).
      destruct Hfr as (Hx1 & H21 & Hv1 & HC1 & HF1 & Hg1).
      assert (Hfresh : ~ In a done).
      { pose proof (seq_NoDup n_particles 0) as Hnd. rewrite Hl in Hnd.
        apply NoDup_remove_2 in Hnd. intros H. apply Hnd.
        apply in_or_app. now left. }
      split; [repeat split; congruence|]. split.
      + intros q Hq. apply in_app_or in Hq as [Hq | [<- | []]].
        * destruct (Hdone q Hq) as [Hn Hj]. split; [assumption|].
          rewrite HJ, upd_other; [assumption|]. intros ->. contradiction.
        * rewrite <- Hx1. split; [assumption|].
          rewrite HJ, upd_same, HF1, (Hrest a Hfresh). reflexivity.
      + intros q Hq. rewrite HJ, upd_other.
        * apply Hrest. intros H. apply Hq. apply in_or_app. now left.
        * intros ->. apply Hq. apply in_or_app. right. now left. }
  destruct H as ((Hx & H2 & Hv & HC & HF & Hg) & Hdone & _).
  repeat split; try assumption; apply Hdone; apply in_seq; lia.
Qed.

Lemma p2g_fails (svd : mat3 -> mat3 * mat3 * mat3) (st : state) (p : nat) :
  (p < n_particles)%nat -> ~ neighbourhood_in_grid (x st p) ->
  p2g svd st = None.
Proof.
  intros Hp Hout. unfold p2g.
  apply (for_each_fails _ (fun s => x s = x st) _ _ p).
  - reflexivity.
  - apply in_seq. lia.
  - intros s1 Hs1. apply p2g_particle_fails. now rewrite Hs1.
  - intros a s1 s2 Hs1 Hstep. apply p2g_particle_frame in Hstep.
    destruct Hstep as (_ & Hx & _). congruence.
Qed.

Lemma box_of_origin_safe : in_box safe_coord (Vec3 0 0 0).
Proof.
  unfold in_box, safe_coord. cbn [vx vy vz].
  rewrite dx_val, n_grid_val. lra.
Qed.

(** C10 as stated fails: a particle at (0, 0, 0) has base node (0, 0, 0) and
    all its 27 accesses inside the grid, yet 0 < 0.5 dx. *)
Lemma origin_in_grid_outside_claimed_box :
  ~ (neighbourhood_in_grid (Vec3 0 0 0)
     <-> in_box claimed_safe_coord (Vec3 0 0 0)).
Proof.
  intros [H _].
  assert (Hin : neighbourhood_in_grid (Vec3 0 0 0))
    by (apply neighbourhood_safe, box_of_origin_safe).
  destruct (H Hin) as ([Hlo _] & _). cbn [vx] in Hlo.
  rewrite dx_val in Hlo. lra.
Qed.

(** C10 as the code has it: the 27 accesses at base + offset, in P2G and in
    G2P, are all inside the grid exactly when every coordinate c of the
    position satisfies -0.5 dx < c < (n_grid - 1.5) dx; a particle outside
    that box makes an access of substep fall outside the grid. *)
Theorem accesses_in_grid (svd : mat3 -> mat3 * mat3 * mat3) (p : nat)
    (st : state) :
  (neighbourhood_in_grid (x st p) <-> in_box safe_coord (x st p)) /\
  (p2g_particle svd p st <> None <-> in_box safe_coord (x st p)) /\
  (g2p_particle p st <> None <-> in_box safe_coord (x st p)) /\
  ((p < n_particles)%nat -> ~ in_box safe_coord (x st p) ->
   substep svd st = None).
Proof.
  split; [apply neighbourhood_safe|]. rewrite <- neighbourhood_safe.
  split; [|split].
  - split.
    + intros H. destruct (p2g_particle svd p st) as [st'|] eqn:Hrun; [|congruence].
      now apply p2g_particle_frame in Hrun.
    + intros H. destruct (p2g_particle_total svd p st H) as [st' ->]. discriminate.
  - split.
    + intros H. destruct (g2p_particle p st) as [st'|] eqn:Hrun; [|congruence].
      now apply g2p_particle_inv in Hrun.
    + intros H. rewrite g2p_particle_run by assumption. discriminate.
  - intros Hp Hout. unfold substep.
    destruct (clear_grid_spec st) as ((Hx & _) & _).
    rewrite (p2g_fails svd (clear_grid st) p); [reflexivity | assumption |].
    now rewrite Hx.
Qed.

(** A loop whose every iteration succeeds from what the earlier ones
    established succeeds, and establishes it for the whole list. *)
Lemma for_each_run {A S : Type} (body : A -> S -> option S)
    (P : list A -> S -> Prop) (l : list A) (s : S) :
  P [] s ->
  (forall done a rest s1,
      l = done ++ a :: rest -> P done s1 ->
      exists s2, body a s1 = Some s2 /\ P (done ++ [a]) s2) ->
  exists s', for_each body l s = Some s' /\ P l s'.
Proof.
  intros H0 Hstep.
  enough (Hgen : forall todo done s1,
             l = done ++ todo -> P done s1 ->
             exists s', for_each body todo s1 = Some s' /\ P l s').
  { apply (Hgen l [] s); auto. }
  induction todo as [|a todo IH]; intros done s1 Hl HP; cbn.
  - exists s1. split; [reflexivity|]. now rewrite Hl, app_nil_r.
  - destruct (Hstep done a todo s1 Hl HP) as (s2 & -> & HP2).
    apply (IH (done ++ [a]) s2); [|assumption].
    now rewrite <- app_assoc.
Qed.

Lemma fresh_in_split {A : Type} (l done rest : list A) (a : A) :
  NoDup l -> l = done ++ a :: rest -> ~ In a done.
Proof.
  intros Hnd Hl. rewrite Hl in Hnd. apply NoDup_remove_2 in Hnd.
  intros H. apply Hnd. apply in_or_app. now left.
Qed.

Lemma g2p_inv_init (st : state) : g2p_inv st [] st.
Proof.
  unfold g2p_inv, same_grid. repeat split; try reflexivity; contradiction.
Qed.

Lemma not_in_snoc {A : Type} (l : list A) (a q : A) :
  ~ In q (l ++ [a]) -> ~ In q l /\ q <> a.
Proof.
  intros H. split.
  - intros Hq. apply H, in_or_app. now left.
  - intros ->. apply H, in_or_app. right. now left.
Qed.

Lemma in_snoc {A : Type} (l : list A) (a q : A) :
  In q (l ++ [a]) -> In q l \/ q = a.
Proof.
  intros H. apply in_app_or in H as [H | [H | []]]; auto.
Qed.

Lemma g2p_inv_step (st s1 s2 : state) (done : list nat) (a : nat) :
  g2p_inv st done s1 -> ~ In a done ->
  g2p_particle a s1 = Some s2 ->
  g2p_inv st (done ++ [a]) s2.
Proof.
  intros ((Hgv & Hgm & Hg) & HJ & Hrest & Hdone) Hfresh Hstep.
  pose proof (g2p_particle_inv _ _ _ Hstep) as Hin.
  rewrite (g2p_particle_run a s1 Hin) in Hstep.
  injection Hstep as <-.
  destruct (Hrest a Hfresh) as (Hxa & Hva & HCa & HFa).
  rewrite Hxa in Hin.
  unfold g2p_inv, same_grid. cbn [x v C F Jp grid_v grid_m gravity].
  split; [auto|]. split; [exact HJ|]. split.
  - intros q Hq. apply not_in_snoc in Hq as [Hq Hqa].
    rewrite !upd_other by exact Hqa. now apply Hrest.
  - intros q Hq. apply in_snoc in Hq as [Hq | ->].
    + assert (Hqa : q <> a) by (intros ->; contradiction).
      rewrite !upd_other by exact Hqa. now apply Hdone.
    + rewrite !upd_same, Hgv, Hxa, HFa. auto.
Qed.

Lemma g2p_result (st st' : state) :
  g2p st = Some st' -> g2p_inv st (seq 0 n_particles) st'.
Proof.
  apply for_each_ind.
  - apply g2p_inv_init.
  - intros done a rest s1 s2 Hl Hinv Hstep.
    apply (g2p_inv_step st s1 s2 done a Hinv); [|assumption].
    exact (fresh_in_split _ _ _ _ (seq_NoDup _ _) Hl).
Qed.

Lemma g2p_total (st : state) :
  (forall p, (p < n_particles)%nat -> neighbourhood_in_grid (x st p)) ->
  exists st', g2p st = Some st' /\ g2p_inv st (seq 0 n_particles) st'.
Proof.
  intros Hin. apply for_each_run.
  - apply g2p_inv_init.
  - intros done a rest s1 Hl Hinv.
    pose proof (fresh_in_split _ _ _ _ (seq_NoDup _ _) Hl) as Hfresh.
    assert (Ha : (a < n_particles)%nat).
    { assert (H : In a (seq 0 n_particles))
        by (rewrite Hl; apply in_or_app; right; now left).
      apply in_seq in H. lia. }
    assert (Hx : x s1 a = x st a).
    { destruct Hinv as (_ & _ & Hrest & _). now apply Hrest. }
    assert (Hn : neighbourhood_in_grid (x s1 a)) by (rewrite Hx; auto).
    pose proof (g2p_particle_run a s1 Hn) as Hrun.
    eexists. split; [exact Hrun|].
    now apply (g2p_inv_step st s1 _ done a Hinv Hfresh).
Qed.

(** C5: G2P gives every particle the velocity sum of w * grid_v over its 27
    nodes, the affine matrix sum of 4 inv_dx w (grid_v (x) (o - fx)), moves
    the position by dt times the new velocity, and replaces F by
    (I + dt G) F with G the sum of grid_v (x) grad w over the same nodes. *)
Theorem g2p_particle_update (st st' : state) (p : nat) :
  g2p st = Some st' ->
  (p < n_particles)%nat ->
  v st' p
  = vsum (map (fun o => spline_weight (p2g_fx (x st p)) o
                        *v grid_v st (iadd (p2g_base (x st p)) o))
              (ndrange 3 3 3)) /\
  C st' p
  = msum (map (fun o => (4 * inv_dx * spline_weight (p2g_fx (x st p)) o)
                        *m outer_product (grid_v st (iadd (p2g_base (x st p)) o))
                             (vcast_float o -v p2g_fx (x st p)))
              (ndrange 3 3 3)) /\
  x st' p = x st p +v dt *v v st' p /\
  F st' p
  = (identity
     +m dt *m msum (map (fun o => outer_product
                                    (grid_v st (iadd (p2g_base (x st p)) o))
                                    (spline_grad (p2g_fx (x st p)) o))
                        (ndrange 3 3 3)))
    @m F st p.
Proof.
  intros Hrun Hp. apply g2p_result in Hrun as (_ & _ & _ & Hdone).
  destruct (Hdone p) as (_ & Hv & HC & Hx & HF); [apply in_seq; lia|].
  auto.
Qed.

Lemma midpoint_safe : in_box safe_coord (Vec3 0.5 0.5 0.5).
Proof.
  unfold in_box, safe_coord. cbn [vx vy vz].
  rewrite dx_val, n_grid_val. repeat split; lra.
Qed.

Lemma p2g_node_contributions_witness :
  exists st',
    p2g_particle svd_of_identity 0
      (uniform_state (Vec3 0.5 0.5 0.5) (Vec3 1 0 0) vzero) = Some st' /\
    grid_m st' (iadd (p2g_base (Vec3 0.5 0.5 0.5)) (IVec3 1 1 1))
    = 0 + p_mass * spline_weight (p2g_fx (Vec3 0.5 0.5 0.5)) (IVec3 1 1 1).
Proof.
  destruct (p2g_particle_total svd_of_identity 0
              (uniform_state (Vec3 0.5 0.5 0.5) (Vec3 1 0 0) vzero))
    as [st' Hrun].
  { apply neighbourhood_safe. exact midpoint_safe. }
  exists st'. split; [exact Hrun|].
  destruct (p2g_node_contributions _ _ _ _ Hrun) as [Hin _].
  apply (Hin (IVec3 1 1 1)). apply in_ndrange. cbn. lia.
Defined.

Lemma g2p_particle_update_witness :
  exists st',
    g2p (uniform_state (Vec3 0.5 0.5 0.5) (Vec3 1 0 0) vzero) = Some st' /\
    x st' 0%nat = Vec3 0.5 0.5 0.5 +v dt *v v st' 0%nat.
Proof.
  destruct (g2p_total (uniform_state (Vec3 0.5 0.5 0.5) (Vec3 1 0 0) vzero))
    as (st' & Hrun & _).
  { intros p _. apply neighbourhood_safe. exact midpoint_safe. }
  exists st'. split; [exact Hrun|].
  assert (H0 : (0 < n_particles)%nat) by (unfold n_particles, quality; lia).
  destruct (g2p_particle_update _ _ 0%nat Hrun H0) as (_ & _ & Hx & _).
  exact Hx.
Defined.

(** ** The plastic scalar *)

Lemma p2g_stress_fst (svd : mat3 -> mat3 * mat3 * mat3) (Fp : mat3) (jp : R) :
  singular_values_nonzero (svd Fp) -> fst (p2g_stress svd Fp jp) = jp.
Proof.
  unfold p2g_stress, singular_values_nonzero.
  destruct (svd Fp) as [[U sig] V]. intros (H0 & H1 & H2).
  rewrite sv_loop_val. cbn [fst]. now field.
Qed.

Lemma p2g_stress_snd (svd : mat3 -> mat3 * mat3 * mat3) (Fp : mat3)
    (jp jp' : R) :
  snd (p2g_stress svd Fp jp) = snd (p2g_stress svd Fp jp').
Proof.
  unfold p2g_stress. destruct (svd Fp) as [[U sig] V].
  now rewrite !sv_loop_val.
Qed.

Lemma for_each_set_Jp {A : Type} (body : A -> state -> option state)
    (l : list A) :
  (forall a st j,
      body a (set_Jp st j) = option_map (fun s => set_Jp s j) (body a st)) ->
  forall st j,
    for_each body l (set_Jp st j)
    = option_map (fun s => set_Jp s j) (for_each body l st).
Proof.
  intros Hbody. induction l as [|a l IH]; intros st j; cbn; [reflexivity|].
  rewrite Hbody. destruct (body a st) as [s1|]; cbn; [apply IH | reflexivity].
Qed.

Lemma Jp_blind_for_each {A : Type} (body : A -> state -> option state)
    (l : list A) :
  (forall a, Jp_blind (body a)) -> Jp_blind (for_each body l).
Proof.
  intros Hbody. induction l as [|a l IH]; intros st j; cbn.
  - exists j. reflexivity.
  - destruct (Hbody a st j) as [j1 ->].
    destruct (body a st) as [s1|]; cbn.
    + apply IH.
    + exists j. reflexivity.
Qed.

Lemma p2g_node_set_Jp (p : nat) (base : ivec3) (fx : vec3) (w dw : list vec3)
    (tau : mat3) (o : ivec3) (st : state) (j : nat -> R) :
  p2g_node p base fx w dw tau o (set_Jp st j)
  = option_map (fun s => set_Jp s j) (p2g_node p base fx w dw tau o st).
Proof.
  unfold p2g_node, grid_v_add, grid_m_add. cbn.
  now destruct (in_grid (iadd base o)).
Qed.

Lemma p2g_particle_Jp_blind (svd : mat3 -> mat3 * mat3 * mat3) (p : nat) :
  Jp_blind (p2g_particle svd p).
Proof.
  intros st j. rewrite !p2g_particle_loop.
  exists (upd j p (fst (p2g_stress svd (F st p) (j p)))).
  cbn [set_Jp x F Jp].
  rewrite (p2g_stress_snd svd (F st p) (j p) (Jp st p)).
  change (State (x st) (x_2d st) (v st) (C st) (F st)
            (upd j p (fst (p2g_stress svd (F st p) (j p))))
            (grid_v st) (grid_m st) (gravity st))
    with (set_Jp st (upd j p (fst (p2g_stress svd (F st p) (j p))))).
  change (State (x st) (x_2d st) (v st) (C st) (F st)
            (upd (Jp st) p (fst (p2g_stress svd (F st p) (Jp st p))))
            (grid_v st) (grid_m st) (gravity st))
    with (set_Jp st (upd (Jp st) p (fst (p2g_stress svd (F st p) (Jp st p))))).
  rewrite !(for_each_set_Jp _ _ (p2g_node_set_Jp p _ _ _ _ _)).
  now destruct (for_each _ (ndrange 3 3 3) st).
Qed.

Lemma fold_left_set_Jp (body : ivec3 -> state -> state) (l : list ivec3) :
  (forall n st j, body n (set_Jp st j) = set_Jp (body n st) j) ->
  forall st j,
    fold_left (fun s n => body n s) l (set_Jp st j)
    = set_Jp (fold_left (fun s n => body n s) l st) j.
Proof.
  intros Hbody. induction l as [|n l IH]; intros st j; cbn; [reflexivity|].
  now rewrite Hbody, IH.
Qed.

Lemma clear_grid_set_Jp (st : state) (j : nat -> R) :
  clear_grid (set_Jp st j) = set_Jp (clear_grid st) j.
Proof. apply fold_left_set_Jp. reflexivity. Qed.

Lemma grid_update_set_Jp (st : state) (j : nat -> R) :
  grid_update (set_Jp st j) = set_Jp (grid_update st) j.
Proof.
  apply fold_left_set_Jp. intros n s j'. unfold grid_node. cbn.
  now destruct (Rltb 0 (grid_m s n)).
Qed.

Lemma for_each_ext {A S : Type} (f g : A -> S -> option S) (l : list A) :
  (forall a s, f a s = g a s) -> forall s, for_each f l s = for_each g l s.
Proof.
  intros H. induction l as [|a l IH]; intros s; cbn; [reflexivity|].
  rewrite H. destruct (g a s); auto.
Qed.

Lemma g2p_particle_set_Jp (p : nat) (st : state) (j : nat -> R) :
  g2p_particle p (set_Jp st j)
  = option_map (fun s => set_Jp s j) (g2p_particle p st).
Proof.
  unfold g2p_particle. cbn [set_Jp x].
  rewrite (for_each_ext _ (g2p_node (g2p_base (x st p)) (g2p_fx (x st p))
                             (g2p_w (g2p_fx (x st p)))
                             (g2p_dw (g2p_fx (x st p))) st))
    by reflexivity.
  destruct (for_each _ (ndrange 3 3 3) (vzero, mzero, mzero))
    as [[[nv nC] nF]|]; reflexivity.
Qed.

Lemma substep_Jp_blind (svd : mat3 -> mat3 * mat3 * mat3) :
  Jp_blind (substep svd).
Proof.
  intros st j. unfold substep, p2g, g2p. rewrite clear_grid_set_Jp.
  destruct (Jp_blind_for_each (p2g_particle svd) (seq 0 n_particles)
              (p2g_particle_Jp_blind svd) (clear_grid st) j) as [j1 H1].
  rewrite H1.
  destruct (for_each (p2g_particle svd) (seq 0 n_particles) (clear_grid st))
    as [s1|]; cbn [option_map]; [|exists j; reflexivity].
  rewrite grid_update_set_Jp. exists j1.
  exact (for_each_set_Jp g2p_particle (seq 0 n_particles)
           (fun a s j' => g2p_particle_set_Jp a s j') (grid_update s1) j1).
Qed.

(** ** The whole substep *)

Lemma substep_phases (svd : mat3 -> mat3 * mat3 * mat3) (st st' : state) :
  substep svd st = Some st' ->
  exists s1, p2g svd (clear_grid st) = Some s1 /\ g2p (grid_update s1) = Some st'.
Proof.
  unfold substep. destruct (p2g svd (clear_grid st)) as [s1|]; [|discriminate].
  intros H. exists s1. auto.
Qed.

Lemma p2g_total (svd : mat3 -> mat3 * mat3 * mat3) (st : state) :
  (forall p, (p < n_particles)%nat -> neighbourhood_in_grid (x st p)) ->
  exists st', p2g svd st = Some st'.
Proof.
  intros Hin.
  destruct (for_each_run (p2g_particle svd) (fun _ s => x s = x st)
              (seq 0 n_particles) st) as (st' & Hrun & _); [reflexivity | | eauto].
  intros done a rest s1 Hl Hx.
  assert (Ha : (a < n_particles)%nat).
  { assert (H : In a (seq 0 n_particles))
      by (rewrite Hl; apply in_or_app; right; now left).
    apply in_seq in H. lia. }
  destruct (p2g_particle_total svd a s1) as [s2 Hs2].
  { rewrite Hx. auto. }
  exists s2. split; [assumption|].
  apply p2g_particle_frame in Hs2 as (_ & Hx2 & _). congruence.
Qed.

Lemma substep_total (svd : mat3 -> mat3 * mat3 * mat3) (st : state) :
  (forall p, (p < n_particles)%nat -> neighbourhood_in_grid (x st p)) ->
  exists st', substep svd st = Some st'.
Proof.
  intros Hin. destruct (clear_grid_spec st) as ((Hx0 & _) & _).
  destruct (p2g_total svd (clear_grid st)) as [s1 Hs1].
  { intros p Hp. rewrite Hx0. auto. }
  pose proof (p2g_frame svd _ _ Hs1) as (Hx1 & _).
  destruct (grid_update_spec s1) as ((Hx2 & _) & _).
  destruct (g2p_total (grid_update s1)) as (st' & Hst' & _).
  { intros p Hp. rewrite Hx2, Hx1, Hx0. auto. }
  exists st'. unfold substep. now rewrite Hs1.
Qed.

Lemma substep_Jp (svd : mat3 -> mat3 * mat3 * mat3) (st st' : state) (p : nat) :
  substep svd st = Some st' -> (p < n_particles)%nat ->
  Jp st' p = fst (p2g_stress svd (F st p) (Jp st p)).
Proof.
  intros Hrun Hp. apply substep_phases in Hrun as (s1 & Hp2g & Hg2p).
  apply g2p_result in Hg2p as (_ & HJ & _).
  destruct (grid_update_spec s1) as ((_ & _ & _ & _ & _ & HJ1 & _) & _).
  pose proof (p2g_frame svd _ _ Hp2g) as (_ & _ & _ & _ & _ & _ & Hpart).
  destruct (Hpart p Hp) as [_ HJ2].
  destruct (clear_grid_spec st) as ((_ & _ & _ & _ & HF0 & HJ0 & _) & _).
  rewrite HJ, HJ1, HJ2, HF0, HJ0. reflexivity.
Qed.

(** C9: substep leaves the plastic scalar of every particle whose sig has a
    nonzero diagonal as it was, and the plastic scalar field has no effect on
    any other field that substep updates: run from a state that differs in
    Jp only, it ends in a state that differs in Jp only. *)
Theorem plastic_scalar_inert (svd : mat3 -> mat3 * mat3 * mat3)
    (st st' : state) :
  substep svd st = Some st' ->
  (forall p, (p < n_particles)%nat ->
     singular_values_nonzero (svd (F st p)) -> Jp st' p = Jp st p) /\
  (forall j, exists st'',
     substep svd (set_Jp st j) = Some st'' /\
     x st'' = x st' /\ x_2d st'' = x_2d st' /\ v st'' = v st' /\
     C st'' = C st' /\ F st'' = F st' /\ grid_v st'' = grid_v st' /\
     grid_m st'' = grid_m st' /\ gravity st'' = gravity st').
Proof.
  intros Hrun. split.
  - intros p Hp Hsv. rewrite (substep_Jp svd st st' p Hrun Hp).
    now apply p2g_stress_fst.
  - intros j. destruct (substep_Jp_blind svd st j) as [j' H].
    rewrite Hrun in H. exists (set_Jp st' j'). split; [exact H|].
    repeat split.
Qed.

Lemma plastic_scalar_inert_witness :
  exists st',
    substep svd_of_identity
      (uniform_state (Vec3 0.5 0.5 0.5) (Vec3 1 0 0) vzero) = Some st' /\
    Jp st' 0%nat = 1.
Proof.
  destruct (substep_total svd_of_identity
              (uniform_state (Vec3 0.5 0.5 0.5) (Vec3 1 0 0) vzero))
    as [st' Hrun].
  { intros p _. apply neighbourhood_safe. exact midpoint_safe. }
  exists st'. split; [exact Hrun|].
  destruct (plastic_scalar_inert _ _ _ Hrun) as [HJ _].
  apply (HJ 0%nat).
  - unfold n_particles, quality. lia.
  - cbn. repeat split; lra.
Defined.

(** ** Mass on the grid *)

Lemma rsum_cons (a : R) (l : list R) : rsum (a :: l) = a + rsum l.
Proof. reflexivity. Qed.

Lemma rsum_app (l1 l2 : list R) : rsum (l1 ++ l2) = rsum l1 + rsum l2.
Proof.
  induction l1 as [|a l1 IH]; cbn [app].
  - unfold rsum at 2. cbn. lra.
  - rewrite !rsum_cons, IH. lra.
Qed.

Lemma rsum_gupd_out (m : ivec3 -> R) (n : ivec3) (a : R) (l : list ivec3) :
  ~ In n l -> rsum (map (gupd m n a) l) = rsum (map m l).
Proof.
  induction l as [|n' l IH]; intros Hn; cbn [map]; [reflexivity|].
  rewrite !rsum_cons, gupd_other, IH; [reflexivity | |].
  - intros H. apply Hn. now right.
  - intros ->. apply Hn. now left.
Qed.

Lemma rsum_gupd_in (m : ivec3 -> R) (n : ivec3) (a : R) (l : list ivec3) :
  NoDup l -> In n l ->
  rsum (map (gupd m n (m n + a)) l) = rsum (map m l) + a.
Proof.
  induction 1 as [|n' l Hnin Hnd IH]; intros Hin; [contradiction|].
  cbn [map]. rewrite !rsum_cons. destruct Hin as [-> | Hin].
  - rewrite gupd_same, rsum_gupd_out by assumption. lra.
  - rewrite gupd_other, IH by (try assumption; intros ->; contradiction). lra.
Qed.

Lemma grid_mass_node (p : nat) (base : ivec3) (fx : vec3) (w dw : list vec3)
    (tau : mat3) (o : ivec3) (st st' : state) :
  p2g_node p base fx w dw tau o st = Some st' ->
  grid_mass st' = grid_mass st + node_weight w o * p_mass.
Proof.
  intros H. apply p2g_node_spec in H as (Hin & _ & Hm & _).
  unfold grid_mass. rewrite Hm. apply rsum_gupd_in.
  - exact NoDup_grid_nodes.
  - apply in_grid_nodes. exact Hin.
Qed.

Lemma grid_mass_loop (p : nat) (base : ivec3) (fx : vec3) (w dw : list vec3)
    (tau : mat3) (l : list ivec3) (st st' : state) :
  for_each (p2g_node p base fx w dw tau) l st = Some st' ->
  grid_mass st'
  = grid_mass st + rsum (map (fun o => node_weight w o * p_mass) l).
Proof.
  apply (for_each_ind (p2g_node p base fx w dw tau)
           (fun done s =>
              grid_mass s
              = grid_mass st
                + rsum (map (fun o => node_weight w o * p_mass) done))).
  - unfold rsum at 1. cbn [map fold_right]. lra.
  - intros done a rest s1 s2 _ IH Hstep.
    rewrite (grid_mass_node _ _ _ _ _ _ _ _ _ Hstep), IH, map_app, rsum_app.
    cbn [map]. rewrite rsum_cons. unfold rsum at 3. cbn [fold_right]. lra.
Qed.

Lemma bspline_sum (f : R) : bspline 0 f + bspline 1 f + bspline 2 f = 1.
Proof. unfold bspline. lra. Qed.

Lemma ndrange_333 :
  ndrange 3 3 3
  = [ IVec3 0 0 0; IVec3 0 0 1; IVec3 0 0 2; IVec3 0 1 0; IVec3 0 1 1;
      IVec3 0 1 2; IVec3 0 2 0; IVec3 0 2 1; IVec3 0 2 2; IVec3 1 0 0;
      IVec3 1 0 1; IVec3 1 0 2; IVec3 1 1 0; IVec3 1 1 1; IVec3 1 1 2;
      IVec3 1 2 0; IVec3 1 2 1; IVec3 1 2 2; IVec3 2 0 0; IVec3 2 0 1;
      IVec3 2 0 2; IVec3 2 1 0; IVec3 2 1 1; IVec3 2 1 2; IVec3 2 2 0;
      IVec3 2 2 1; IVec3 2 2 2 ].
Proof. reflexivity. Qed.

(** Partition of unity of the 27 weights. *)
Lemma spline_weight_sum (fx : vec3) :
  rsum (map (spline_weight fx) (ndrange 3 3 3)) = 1.
Proof.
  rewrite ndrange_333. unfold spline_weight, rsum.
  cbn [map fold_right ix iy iz].
  pose proof (bspline_sum (vx fx)) as Ha.
  pose proof (bspline_sum (vy fx)) as Hb.
  pose proof (bspline_sum (vz fx)) as Hc.
  revert Ha Hb Hc.
  generalize (bspline 0 (vx fx)) (bspline 1 (vx fx)) (bspline 2 (vx fx))
             (bspline 0 (vy fx)) (bspline 1 (vy fx)) (bspline 2 (vy fx))
             (bspline 0 (vz fx)) (bspline 1 (vz fx)) (bspline 2 (vz fx)).
  intros a0 a1 a2 b0 b1 b2 c0 c1 c2 Ha Hb Hc.
  transitivity ((a0 + a1 + a2) * (b0 + b1 + b2) * (c0 + c1 + c2)); [ring|].
  rewrite Ha, Hb, Hc. ring.
Qed.

Lemma rsum_scale (a : R) (l : list R) :
  rsum (map (fun r => r * a) l) = rsum l * a.
Proof.
  induction l as [|r l IH]; cbn [map].
  - unfold rsum. cbn. lra.
  - rewrite !rsum_cons, IH. lra.
Qed.

Lemma grid_mass_set_Jp (st : state) (j : nat -> R) :
  grid_mass (set_Jp st j) = grid_mass st.
Proof. reflexivity. Qed.

Lemma grid_mass_particle (svd : mat3 -> mat3 * mat3 * mat3) (p : nat)
    (st st' : state) :
  p2g_particle svd p st = Some st' -> grid_mass st' = grid_mass st + p_mass.
Proof.
  rewrite p2g_particle_loop. intros H. apply grid_mass_loop in H.
  rewrite H, grid_mass_set_Jp. f_equal.
  rewrite (map_ext_in _ (fun o => spline_weight (p2g_fx (x st p)) o * p_mass))
    by (intros o Ho; now rewrite node_weight_p2g).
  rewrite <- (map_map (spline_weight (p2g_fx (x st p))) (fun r => r * p_mass)).
  rewrite rsum_scale, spline_weight_sum. lra.
Qed.

Lemma grid_mass_p2g (svd : mat3 -> mat3 * mat3 * mat3) (st st' : state) :
  p2g svd st = Some st' ->
  grid_mass st' = grid_mass st + INR n_particles * p_mass.
Proof.
  intros Hrun.
  assert (H : grid_mass st'
              = grid_mass st + INR (length (seq 0 n_particles)) * p_mass).
  { apply (for_each_ind (p2g_particle svd)
             (fun done s =>
                grid_mass s = grid_mass st + INR (length done) * p_mass)
             (seq 0 n_particles) st st'); [cbn [length INR]; lra | | exact Hrun].
    intros done a rest s1 s2 _ IH Hstep.
    rewrite (grid_mass_particle _ _ _ _ Hstep), IH, length_app, plus_INR.
    cbn [length INR]. lra. }
  rewrite length_seq in H. exact H.
Qed.

Lemma rsum_zero {A : Type} (l : list A) : rsum (map (fun _ => 0) l) = 0.
Proof.
  induction l as [|a l IH]; cbn [map]; [reflexivity|].
  rewrite rsum_cons, IH. lra.
Qed.

Lemma grid_mass_clear (st : state) : grid_mass (clear_grid st) = 0.
Proof.
  unfold grid_mass. destruct (clear_grid_spec st) as [_ Hval].
  rewrite (map_ext_in _ (fun _ => 0)).
  - apply rsum_zero.
  - intros n Hn. apply in_grid_nodes in Hn.
    destruct (Hval n) as [_ Hm]. rewrite Hm, Hn. reflexivity.
Qed.

(** C7: when the 27 nodes of every particle lie in the grid, P2G succeeds
    and the masses of all grid nodes then add up to n_particles * p_mass. *)
Theorem mass_conservation (svd : mat3 -> mat3 * mat3 * mat3) (st : state) :
  (forall p, (p < n_particles)%nat -> neighbourhood_in_grid (x st p)) ->
  exists s1,
    p2g svd (clear_grid st) = Some s1 /\
    grid_mass s1 = INR n_particles * p_mass.
Proof.
  intros Hin. destruct (clear_grid_spec st) as ((Hx0 & _) & _).
  destruct (p2g_total svd (clear_grid st)) as [s1 Hs1].
  { intros p Hp. rewrite Hx0. exact (Hin p Hp). }
  exists s1. split; [exact Hs1|].
  rewrite (grid_mass_p2g svd _ _ Hs1), grid_mass_clear. lra.
Qed.

Lemma mass_conservation_witness :
  exists s1,
    p2g svd_of_identity
      (clear_grid (uniform_state (Vec3 0.5 0.5 0.5) (Vec3 1 0 0) vzero))
    = Some s1 /\
    grid_mass s1 = INR n_particles * p_mass.
Proof.
  apply (mass_conservation svd_of_identity
           (uniform_state (Vec3 0.5 0.5 0.5) (Vec3 1 0 0) vzero)).
  intros p _. apply neighbourhood_safe. exact midpoint_safe.
Defined.

(** ** Rigid translation *)

Lemma svd_of_identity_sig (U sig V : mat3) :
  is_svd identity (U, sig, V) -> sig = identity /\ U @m transpose V = identity.
Proof.
  intros ((HU1 & HU2) & (HV1 & HV2) & Hd & H0 & H1 & H2 & Hprod).
  assert (HS : sig = transpose U @m V).
  { transitivity (transpose U @m (U @m sig @m transpose V) @m V).
    - rewrite <- !mmul_assoc, HU1, mmul_id_l, mmul_assoc, HV1, mmul_id_r.
      reflexivity.
    - now rewrite Hprod, mmul_id_r. }
  assert (HSS : transpose sig @m sig = identity).
  { rewrite HS, transpose_mmul, transpose_involutive.
    rewrite mmul_assoc, <- (mmul_assoc U), HU2, mmul_id_l. exact HV1. }
  assert (Hsig : sig = identity).
  { clear HS Hprod. destruct sig as [[a b c] [d e f] [g h i]].
    unfold diagonal in Hd. la_unfold.
    destruct Hd as (-> & -> & -> & -> & -> & ->).
    injection HSS as Ha _ _ _ He _ _ _ Hi.
    assert (a = 1) by nra. assert (e = 1) by nra. assert (i = 1) by nra.
    subst. reflexivity. }
  split; [assumption|].
  assert (HUV : V = U).
  { transitivity (U @m transpose U @m V).
    - now rewrite HU2, mmul_id_l.
    - now rewrite mmul_assoc, <- HS, Hsig, mmul_id_r. }
  now rewrite HUV.
Qed.

Lemma stress_at_identity (svd : mat3 -> mat3 * mat3 * mat3) (jp : R) :
  is_svd identity (svd identity) ->
  snd (p2g_stress svd identity jp) = mzero.
Proof.
  intros H. unfold p2g_stress.
  destruct (svd identity) as [[U sig] V].
  apply svd_of_identity_sig in H as [-> ->].
  rewrite sv_loop_val. cbn [snd]. rewrite kirchoff_FCR_val.
  la_ring.
Qed.

Lemma cast_int_frac (r : R) :
  (1 <= cast_int r)%Z -> 0 <= r - IZR (cast_int r) < 1.
Proof.
  intros H. unfold cast_int in *. destruct (Rlt_dec r 0) as [Hneg|Hpos].
  - pose proof (Zceil_bound r) as [Hlo _]. apply IZR_le in H. lra.
  - pose proof (Zfloor_bound r). lra.
Qed.

Lemma interior_fx (xp : vec3) :
  neighbourhood_interior xp ->
  in_box (fun f => 0.5 <= f < 1.5) (p2g_fx xp).
Proof.
  intros H.
  assert (H0 : interior_node (iadd (p2g_base xp) (IVec3 0 0 0)) = true)
    by (apply H; rewrite in_ndrange; cbn; lia).
  unfold interior_node, interior_index, iadd in H0. cbn [ix iy iz] in H0.
  rewrite !andb_true_iff, !Z.leb_le in H0.
  destruct H0 as [[[Hx _] [Hy _]] [Hz _]].
  unfold p2g_base, vcast_int, vmap in Hx, Hy, Hz. cbn [ix iy iz vx vy vz] in *.
  unfold in_box, p2g_fx, p2g_base, vcast_int, vcast_float, vsub, vmap2, vmap.
  cbn [ix iy iz vx vy vz].
  assert (Fx := cast_int_frac (vx xp * inv_dx - 0.5) ltac:(lia)).
  assert (Fy := cast_int_frac (vy xp * inv_dx - 0.5) ltac:(lia)).
  assert (Fz := cast_int_frac (vz xp * inv_dx - 0.5) ltac:(lia)).
  repeat split; lra.
Qed.

Lemma bspline_nonneg (i : Z) (f : R) : 0.5 <= f < 1.5 -> 0 <= bspline i f.
Proof.
  intros Hf. unfold bspline. destruct i as [|[q|q|]|q]; nra.
Qed.

Lemma spline_weight_nonneg (fx : vec3) (o : ivec3) :
  in_box (fun f => 0.5 <= f < 1.5) fx -> 0 <= spline_weight fx o.
Proof.
  intros (Hx & Hy & Hz). unfold spline_weight.
  pose proof (bspline_nonneg (ix o) _ Hx).
  pose proof (bspline_nonneg (iy o) _ Hy).
  pose proof (bspline_nonneg (iz o) _ Hz).
  apply Rmult_le_pos; [apply Rmult_le_pos|]; assumption.
Qed.

Lemma interior_in_grid (n : ivec3) : interior_node n = true -> in_grid n = true.
Proof.
  unfold interior_node, interior_index, in_grid, in_range.
  rewrite !andb_true_iff, !Z.leb_le, !Z.ltb_lt, n_grid_val. lia.
Qed.

Lemma interior_neighbourhood (xp : vec3) :
  neighbourhood_interior xp -> neighbourhood_in_grid xp.
Proof. intros H o Ho. apply interior_in_grid. now apply H. Qed.

Lemma neighbourhood_cases (base n : ivec3) (l : list ivec3) :
  (exists o, In o l /\ n = iadd base o) \/
  (forall o, In o l -> n <> iadd base o).
Proof.
  destruct (existsb (fun o => ivec3_eqb n (iadd base o)) l) eqn:Hex.
  - left. apply existsb_exists in Hex as (o & Ho & Heq).
    apply ivec3_eqb_eq in Heq. eauto.
  - right. intros o Ho Heq.
    assert (H : existsb (fun o => ivec3_eqb n (iadd base o)) l = true).
    { apply existsb_exists. exists o. split; [assumption|].
      now apply ivec3_eqb_eq. }
    congruence.
Qed.

Lemma uniform_node_value (m w : R) (v0 d g : vec3) :
  m *v v0 +v (p_mass * w) *v (v0 +v mzero @v d)
  +v dt *v ((- p_vol) *m mzero @v g)
  = (m + w * p_mass) *v v0.
Proof. la_ring. Qed.

Lemma uniform_particle_step (svd : mat3 -> mat3 * mat3 * mat3) (v0 : vec3)
    (st s1 s2 : state) (done : list nat) (a : nat) :
  is_svd identity (svd identity) ->
  v st a = v0 -> C st a = mzero -> F st a = identity ->
  neighbourhood_interior (x st a) ->
  uniform_flow_inv v0 st done s1 ->
  p2g_particle svd a s1 = Some s2 ->
  uniform_flow_inv v0 st (done ++ [a]) s2.
Proof.
  intros Hsvd Hva HCa HFa Hint ((Hx & Hv & HC & HF & Hg) & Hmom & Hpos & Hlow)
    Hstep.
  pose proof (p2g_particle_frame _ _ _ _ Hstep)
    as (_ & Hx2 & _ & Hv2 & HC2 & HF2 & Hg2 & _).
  rewrite p2g_particle_loop in Hstep.
  apply p2g_loop_nodes in Hstep as (_ & Hin & Hout); [|apply NoDup_ndrange].
  unfold set_Jp in Hin, Hout. cbn [grid_m grid_v v C] in Hin, Hout.
  rewrite Hx, Hv, HC, HF, Hva, HCa, HFa, (stress_at_identity svd _ Hsvd) in Hin.
  rewrite Hx in Hout.
  pose proof (interior_fx _ Hint) as Hfx.
  assert (Hnode : forall o, In o (ndrange 3 3 3) ->
            in_grid (iadd (p2g_base (x st a)) o) = true /\
            0 <= spline_weight (p2g_fx (x st a)) o /\
            grid_m s2 (iadd (p2g_base (x st a)) o)
            = grid_m s1 (iadd (p2g_base (x st a)) o)
              + spline_weight (p2g_fx (x st a)) o * p_mass /\
            grid_v s2 (iadd (p2g_base (x st a)) o)
            = grid_m s2 (iadd (p2g_base (x st a)) o) *v v0).
  { intros o Ho. destruct (Hin o Ho) as (Hg1 & Hm1 & Hv1).
    rewrite node_weight_p2g in Hm1, Hv1 by assumption.
    repeat split; try assumption.
    - now apply spline_weight_nonneg.
    - rewrite Hv1, Hm1, (Hmom _ Hg1). apply uniform_node_value. }
  assert (Hmono : forall n, grid_m s1 n <= grid_m s2 n).
  { intros n.
    destruct (neighbourhood_cases (p2g_base (x st a)) n (ndrange 3 3 3))
      as [(o & Ho & ->) | Hfar].
    - destruct (Hnode o Ho) as (_ & Hw & Hm1 & _). rewrite Hm1.
      pose proof p_mass_pos. nra.
    - destruct (Hout n Hfar) as [-> _]. lra. }
  split; [repeat split; congruence|]. split; [|split].
  - intros n Hn.
    destruct (neighbourhood_cases (p2g_base (x st a)) n (ndrange 3 3 3))
      as [(o & Ho & ->) | Hfar].
    + now destruct (Hnode o Ho) as (_ & _ & _ & Hv1).
    + destruct (Hout n Hfar) as [-> ->]. now apply Hmom.
  - intros n Hn. specialize (Hpos n Hn). specialize (Hmono n). lra.
  - intros q o Hq Ho. apply in_app_or in Hq as [Hq | [<- | []]].
    + specialize (Hlow q o Hq Ho).
      specialize (Hmono (iadd (p2g_base (x st q)) o)). lra.
    + destruct (Hnode o Ho) as (Hg1 & _ & Hm1 & _).
      specialize (Hpos _ Hg1). lra.
Qed.

Lemma uniform_p2g (svd : mat3 -> mat3 * mat3 * mat3) (v0 : vec3)
    (st s1 : state) :
  is_svd identity (svd identity) ->
  (forall p, (p < n_particles)%nat ->
     v st p = v0 /\ C st p = mzero /\ F st p = identity /\
     neighbourhood_interior (x st p)) ->
  (forall n, in_grid n = true -> grid_v st n = vzero /\ grid_m st n = 0) ->
  p2g svd st = Some s1 ->
  uniform_flow_inv v0 st (seq 0 n_particles) s1.
Proof.
  intros Hsvd Hpart Hzero.
  apply for_each_ind.
  - split; [repeat split|]. split; [|split].
    + intros n Hn. destruct (Hzero n Hn) as [-> ->]. now rewrite vscale_zero.
    + intros n Hn. destruct (Hzero n Hn) as [_ ->]. lra.
    + intros q o [].
  - intros done a rest s2 s3 Hl Hinv Hstep.
    assert (Ha : (a < n_particles)%nat).
    { assert (H : In a (seq 0 n_particles))
        by (rewrite Hl; apply in_or_app; right; now left).
      apply in_seq in H. lia. }
    destruct (Hpart a Ha) as (Hv & HC & HF & Hint).
    exact (uniform_particle_step svd v0 st s2 s3 done a Hsvd Hv HC HF Hint
             Hinv Hstep).
Qed.

Lemma axis_wall_interior (i : Z) (c : R) :
  interior_index i = true -> axis_wall i c = c.
Proof.
  unfold interior_index, axis_wall.
  rewrite andb_true_iff, !Z.leb_le. intros [Hlo Hhi].
  replace (i <? 3)%Z with false by (symmetry; apply Z.ltb_ge; lia).
  replace (i >? n_grid - 3)%Z with false
    by (symmetry; rewrite Z.gtb_ltb; apply Z.ltb_ge; lia).
  reflexivity.
Qed.

Lemma wall_collide_interior (n : ivec3) (gv : vec3) :
  interior_node n = true -> wall_collide n gv = gv.
Proof.
  unfold interior_node. rewrite !andb_true_iff. intros [[Hx Hy] Hz].
  rewrite wall_collide_axes, !axis_wall_interior by assumption.
  now destruct gv.
Qed.

Lemma node_velocity_uniform (n : ivec3) (m w : R) (v0 : vec3) :
  interior_node n = true -> 0 <= m -> 0 <= w -> w * p_mass <= m ->
  w *v node_velocity vzero n (m *v v0) m = w *v v0.
Proof.
  intros Hint Hm Hw Hlow. unfold node_velocity.
  destruct (Rltb 0 m) eqn:Hpos.
  - apply Rltb_true in Hpos. rewrite wall_collide_interior by assumption.
    f_equal. destruct v0 as [a b c]. la_unfold. la_split; field; lra.
  - apply Rltb_false in Hpos. assert (m = 0) by lra. subst m.
    assert (w = 0) by (pose proof p_mass_pos; nra). subst w.
    now rewrite !vscale_zero.
Qed.

Lemma vsum_scale {A : Type} (f : A -> R) (u : vec3) (l : list A) :
  vsum (map (fun a => f a *v u) l) = rsum (map f l) *v u.
Proof.
  unfold vsum, rsum. induction l as [|a l IH]; cbn.
  - now rewrite vscale_zero.
  - now rewrite IH, vscale_add_l.
Qed.

(** C8: all particles moving with one velocity v0, with zero affine matrix
    and identity deformation gradient, no gravity, and every neighbourhood
    clear of the wall margins: substep succeeds, leaves every velocity at v0
    and moves every position by dt * v0.  The singular value decomposition
    of the identity is taken to be one: U, V orthogonal, sig diagonal and
    non-negative, U sig V^T the identity. *)
Theorem rigid_translation (svd : mat3 -> mat3 * mat3 * mat3) (st : state)
    (v0 : vec3) :
  is_svd identity (svd identity) ->
  gravity st = vzero ->
  (forall p, (p < n_particles)%nat ->
     v st p = v0 /\ C st p = mzero /\ F st p = identity /\
     neighbourhood_interior (x st p)) ->
  exists st',
    substep svd st = Some st' /\
    forall p, (p < n_particles)%nat ->
      v st' p = v0 /\ x st' p = x st p +v dt *v v0.
Proof.
  intros Hsvd Hgrav Hpart.
  destruct (substep_total svd st) as [st' Hrun].
  { intros p Hp. apply interior_neighbourhood. apply (Hpart p Hp). }
  exists st'. split; [assumption|].
  apply substep_phases in Hrun as (s1 & Hp2g & Hg2p).
  destruct (clear_grid_spec st)
    as ((Hx0 & _ & Hv0 & HC0 & HF0 & _ & Hg0) & Hclear).
  assert (Hinv : uniform_flow_inv v0 (clear_grid st) (seq 0 n_particles) s1).
  { apply (uniform_p2g svd v0 (clear_grid st) s1 Hsvd); [| | exact Hp2g].
    - intros p Hp. rewrite Hx0, Hv0, HC0, HF0. exact (Hpart p Hp).
    - intros n Hn. destruct (Hclear n) as [Hv Hm]. rewrite Hv, Hm, Hn.
      split; reflexivity. }
  destruct Hinv as ((Hx1 & _ & _ & _ & Hg1) & Hmom & Hpos & Hlow).
  destruct (grid_update_spec s1) as ((Hx2 & _) & _ & Hvel).
  apply g2p_result in Hg2p as (_ & _ & _ & Hdone).
  intros p Hp. destruct (Hdone p) as (_ & Hv & _ & Hx & _);
    [apply in_seq; lia|].
  destruct (Hpart p Hp) as (_ & _ & _ & Hint).
  assert (Hvp : v st' p = v0).
  { rewrite Hv. unfold gather_velocity. rewrite Hx2, Hx1, Hx0.
    rewrite (map_ext_in _ (fun o => spline_weight (p2g_fx (x st p)) o *v v0)).
    - rewrite vsum_scale, spline_weight_sum, vscale_one. reflexivity.
    - intros o Ho. pose proof (Hint o Ho) as Hnode.
      pose proof (interior_in_grid _ Hnode) as Hgrid.
      rewrite Hvel, Hgrid, Hg1, Hg0, Hgrav, (Hmom _ Hgrid).
      apply node_velocity_uniform.
      + exact Hnode.
      + exact (Hpos _ Hgrid).
      + apply spline_weight_nonneg. exact (interior_fx _ Hint).
      + specialize (Hlow p o). rewrite Hx0 in Hlow. apply Hlow; [|exact Ho].
        apply in_seq. lia. }
  split; [exact Hvp|].
  rewrite Hx, Hvp, Hx2, Hx1, Hx0. reflexivity.
Qed.

Lemma is_svd_of_identity : is_svd identity (svd_of_identity identity).
Proof.
  unfold is_svd, svd_of_identity, orthogonal, diagonal. la_unfold.
  repeat split; try lra; la_split; ring.
Qed.

Lemma rigid_translation_witness :
  exists st',
    substep svd_of_identity
      (uniform_state (Vec3 0.5 0.5 0.5) (Vec3 1 2 3) vzero) = Some st' /\
    forall p, (p < n_particles)%nat ->
      v st' p = Vec3 1 2 3 /\
      x st' p = Vec3 0.5 0.5 0.5 +v dt *v Vec3 1 2 3.
Proof.
  apply (rigid_translation svd_of_identity
           (uniform_state (Vec3 0.5 0.5 0.5) (Vec3 1 2 3) vzero) (Vec3 1 2 3)).
  - exact is_svd_of_identity.
  - reflexivity.
  - intros p _. repeat split. cbn [uniform_state x].
    assert (Hb : p2g_base (Vec3 0.5 0.5 0.5) = IVec3 63 63 63).
    { unfold p2g_base, vcast_int, vmap. cbn [vx vy vz].
      assert (Hc : cast_int (0.5 * inv_dx - 0.5) = 63%Z).
      { rewrite cast_int_nonneg by (rewrite inv_dx_val; lra).
        apply Zfloor_eq. rewrite inv_dx_val. lra. }
      now rewrite Hc. }
    intros o Ho. rewrite Hb. apply in_ndrange in Ho.
    unfold interior_node, interior_index, iadd. cbn [ix iy iz].
    rewrite !andb_true_iff, !Z.leb_le, n_grid_val. lia.
Defined.

(** ** Concrete values *)

Example cast_int_values :
  cast_int 63.5 = 63%Z /\ cast_int (-0.5) = 0%Z /\ cast_int (-1.5) = (-1)%Z /\
  cast_int 2 = 2%Z.
Proof.
  repeat split.
  - rewrite cast_int_nonneg by lra. apply Zfloor_eq. cbn [IZR]. lra.
  - rewrite cast_int_neg by lra. apply Zceil_eq. cbn [IZR]. lra.
  - rewrite cast_int_neg by lra. apply Zceil_eq.
    replace (IZR (-1)) with (-1) by reflexivity. lra.
  - rewrite cast_int_nonneg by lra. apply Zfloor_eq.
    replace (IZR 2) with 2 by reflexivity. lra.
Qed.

Example lame_parameters : mu_0 = 1250 / 3 /\ lambda_0 = 2500 / 9.
Proof. unfold mu_0, lambda_0, E, nu. split; lra. Qed.

Example wall_collide_corner :
  wall_collide (IVec3 1 64 127) (Vec3 (-1) 5 2) = Vec3 0 5 0 /\
  wall_collide (IVec3 3 64 125) (Vec3 (-1) 5 2) = Vec3 (-1) 5 2.
Proof.
  rewrite !wall_collide_axes. unfold axis_wall. cbn [ix iy iz vx vy vz].
  replace (Rltb (-1) 0) with true by (symmetry; apply Rltb_true; lra).
  replace (Rltb 0 (-1)) with false by (symmetry; apply Rltb_false; lra).
  replace (Rltb 5 0) with false by (symmetry; apply Rltb_false; lra).
  replace (Rltb 0 5) with true by (symmetry; apply Rltb_true; lra).
  replace (Rltb 2 0) with false by (symmetry; apply Rltb_false; lra).
  replace (Rltb 0 2) with true by (symmetry; apply Rltb_true; lra).
  split; reflexivity.
Qed.

(** * Further properties of the kernel *)

(** ** The wall check after the grid update *)

Lemma axis_wall_low (i : Z) (c : R) : (i < 3)%Z -> 0 <= axis_wall i c.
Proof.
  intros Hi. unfold axis_wall, Rltb.
  replace (i <? 3)%Z with true by (symmetry; apply Z.ltb_lt; exact Hi).
  destruct (Rlt_dec c 0), (Rlt_dec 0 c), (i >? n_grid - 3)%Z;
    cbn [andb orb]; lra.
Qed.

Lemma axis_wall_high (i : Z) (c : R) : (i > n_grid - 3)%Z -> axis_wall i c <= 0.
Proof.
  intros Hi. unfold axis_wall, Rltb.
  replace (i >? n_grid - 3)%Z with true by (symmetry; apply Z.gtb_gt; exact Hi).
  destruct (Rlt_dec c 0), (Rlt_dec 0 c), (i <? 3)%Z;
    cbn [andb orb]; lra.
Qed.

Lemma axis_wall_idempotent (i : Z) (c : R) :
  axis_wall i (axis_wall i c) = axis_wall i c.
Proof.
  destruct (((i <? 3)%Z && Rltb c 0) || ((i >? n_grid - 3)%Z && Rltb 0 c))
    eqn:Hc.
  - assert (H : axis_wall i c = 0) by (unfold axis_wall; now rewrite Hc).
    rewrite H. unfold axis_wall. rewrite Rltb_0_0, !andb_false_r. reflexivity.
  - assert (H : axis_wall i c = c) by (unfold axis_wall; now rewrite Hc).
    rewrite H. exact H.
Qed.

(** X2: after the grid update, a node of positive mass in a wall margin has
    no velocity component pointing out of the domain: on every axis the
    component is >= 0 at index < 3 and <= 0 at index > n_grid - 3, whatever
    gravity is. *)
Theorem grid_update_no_outflow (st : state) (n : ivec3) (d : nat) :
  in_grid n = true -> 0 < grid_m st n ->
  let idx := match d with O => ix n | S O => iy n | _ => iz n end in
  ((idx < 3)%Z -> 0 <= vget (grid_v (grid_update st) n) d) /\
  ((idx > n_grid - 3)%Z -> vget (grid_v (grid_update st) n) d <= 0).
Proof.
  intros Hin Hpos. destruct (grid_update_spec st) as (_ & _ & Hv).
  rewrite Hv, Hin. clear Hv. unfold node_velocity.
  replace (Rltb 0 (grid_m st n)) with true
    by (symmetry; apply Rltb_true; exact Hpos).
  rewrite wall_collide_axes.
  destruct d as [|[|d]]; cbn [vget vx vy vz]; split; intros Hi;
    first [apply axis_wall_low; exact Hi | apply axis_wall_high; exact Hi].
Qed.

Lemma grid_update_no_outflow_witness :
  0 <= vget (grid_v (grid_update
                       (loaded_grid_state (Vec3 (-2) 4 6) 2 (Vec3 (-1) 0 0)))
               (IVec3 1 64 64)) 0.
Proof.
  destruct (grid_update_no_outflow
              (loaded_grid_state (Vec3 (-2) 4 6) 2 (Vec3 (-1) 0 0))
              (IVec3 1 64 64) 0 eq_refl) as [Hlo _].
  - cbn [loaded_grid_state grid_m]. lra.
  - apply Hlo. cbn [ix]. lia.
Defined.

(** X3: the wall check is idempotent: applied to its own result it changes
    nothing. *)
Theorem wall_collide_idempotent (n : ivec3) (gv : vec3) :
  wall_collide n (wall_collide n gv) = wall_collide n gv.
Proof.
  rewrite !wall_collide_axes. cbn [vx vy vz].
  now rewrite !axis_wall_idempotent.
Qed.

(** ** The constitutive model under the contract of the decomposition *)

Lemma transpose_identity : transpose identity = identity.
Proof. reflexivity. Qed.

Lemma transpose_madd (A B : mat3) :
  transpose (A +m B) = transpose A +m transpose B.
Proof. la_ring. Qed.

Lemma transpose_mscale (a : R) (A : mat3) :
  transpose (a *m A) = a *m transpose A.
Proof. la_ring. Qed.

Lemma mmul_factor_sub (U S W : mat3) :
  U @m S @m W -m U @m W = U @m (S -m identity) @m W.
Proof. la_ring. Qed.

Lemma sandwich_symmetric (U D : mat3) :
  transpose D = D ->
  transpose (U @m D @m transpose U) = U @m D @m transpose U.
Proof.
  intros HD.
  now rewrite !transpose_mmul, transpose_involutive, HD, mmul_assoc.
Qed.

Lemma diagonal_stretch_symmetric (S : mat3) :
  diagonal S ->
  transpose ((S -m identity) @m transpose S) = (S -m identity) @m transpose S.
Proof.
  destruct S as [[a b c] [d e f] [g h i]]. unfold diagonal. la_unfold.
  intros (-> & -> & -> & -> & -> & ->). la_split; ring.
Qed.

Lemma polar_stretch (Fp U sig V : mat3) :
  is_svd Fp (U, sig, V) ->
  (Fp -m U @m transpose V) @m transpose Fp
  = U @m ((sig -m identity) @m transpose sig) @m transpose U.
Proof.
  intros (_ & (HV1 & _) & _ & _ & _ & _ & Hprod).
  rewrite <- Hprod, mmul_factor_sub.
  rewrite !transpose_mmul, transpose_involutive.
  rewrite !mmul_assoc. rewrite <- (mmul_assoc (transpose V) V), HV1, mmul_id_l.
  reflexivity.
Qed.

(** X4: whenever [svd] returns a singular value decomposition of F, the
    Kirchhoff stress that P2G computes is a symmetric matrix. *)
Theorem kirchoff_stress_symmetric (svd : mat3 -> mat3 * mat3 * mat3)
    (Fp : mat3) (jp : R) :
  is_svd Fp (svd Fp) ->
  transpose (snd (p2g_stress svd Fp jp)) = snd (p2g_stress svd Fp jp).
Proof.
  intros Hsvd. unfold p2g_stress.
  destruct (svd Fp) as [[U sig] V] eqn:Heq.
  rewrite sv_loop_val. cbn [snd]. rewrite kirchoff_FCR_val.
  rewrite (polar_stretch Fp U sig V Hsvd).
  rewrite transpose_madd, !transpose_mscale, transpose_identity.
  rewrite sandwich_symmetric; [reflexivity|].
  apply diagonal_stretch_symmetric.
  now destruct Hsvd as (_ & _ & Hd & _).
Qed.

Lemma is_svd_of_diagonal : is_svd stretch_x (svd_of_diagonal stretch_x).
Proof.
  unfold is_svd, svd_of_diagonal, stretch_x, orthogonal, diagonal. la_unfold.
  repeat split; try lra; la_split; ring.
Qed.

Lemma kirchoff_stress_symmetric_witness :
  transpose (snd (p2g_stress svd_of_diagonal stretch_x 1))
  = snd (p2g_stress svd_of_diagonal stretch_x 1).
Proof.
  apply (kirchoff_stress_symmetric svd_of_diagonal stretch_x 1).
  exact is_svd_of_diagonal.
Defined.

Lemma svd_of_orthogonal (Fp U sig V : mat3) :
  is_svd Fp (U, sig, V) -> orthogonal Fp ->
  sig = identity /\ U @m transpose V = Fp.
Proof.
  intros ((HU1 & HU2) & (HV1 & HV2) & Hd & H0 & H1 & H2 & Hprod) [HF1 HF2].
  assert (HS : sig = transpose U @m Fp @m V).
  { rewrite <- Hprod.
    rewrite <- !mmul_assoc, HU1, mmul_id_l, mmul_assoc, HV1, mmul_id_r.
    reflexivity. }
  assert (HSS : transpose sig @m sig = identity).
  { rewrite HS, !transpose_mmul, transpose_involutive.
    rewrite !mmul_assoc.
    rewrite <- (mmul_assoc U (transpose U)), HU2, mmul_id_l.
    rewrite <- (mmul_assoc (transpose Fp) Fp), HF1, mmul_id_l.
    exact HV1. }
  assert (Hsig : sig = identity).
  { clear HS Hprod. destruct sig as [[a b c] [d e f] [g h i]].
    unfold diagonal in Hd. la_unfold.
    destruct Hd as (-> & -> & -> & -> & -> & ->).
    injection HSS as Ha _ _ _ He _ _ _ Hi.
    assert (a = 1) by nra. assert (e = 1) by nra. assert (i = 1) by nra.
    subst. reflexivity. }
  split; [exact Hsig|].
  rewrite <- Hprod, Hsig, mmul_id_r. reflexivity.
Qed.

(** X5: the Kirchhoff stress is zero at every orthogonal deformation
    gradient (a rigid rotation produces no elastic force), whenever [svd]
    returns a singular value decomposition of it. *)
Theorem kirchoff_stress_rotation (svd : mat3 -> mat3 * mat3 * mat3)
    (Fp : mat3) (jp : R) :
  is_svd Fp (svd Fp) -> orthogonal Fp ->
  snd (p2g_stress svd Fp jp) = mzero.
Proof.
  intros Hsvd Horth. unfold p2g_stress.
  destruct (svd Fp) as [[U sig] V].
  destruct (svd_of_orthogonal Fp U sig V Hsvd Horth) as [-> ->].
  rewrite sv_loop_val. cbn [snd]. rewrite kirchoff_FCR_val.
  la_ring.
Qed.

Lemma quarter_turn_orthogonal : orthogonal quarter_turn_z.
Proof.
  unfold orthogonal, quarter_turn_z. la_unfold. split; la_split; ring.
Qed.

Lemma is_svd_of_rotation :
  is_svd quarter_turn_z (svd_of_rotation quarter_turn_z).
Proof.
  unfold is_svd, svd_of_rotation. split; [exact quarter_turn_orthogonal|].
  unfold orthogonal, diagonal, quarter_turn_z. la_unfold.
  repeat split; try lra; la_split; ring.
Qed.

Lemma kirchoff_stress_rotation_witness :
  snd (p2g_stress svd_of_rotation quarter_turn_z 1) = mzero.
Proof.
  apply (kirchoff_stress_rotation svd_of_rotation quarter_turn_z 1).
  - exact is_svd_of_rotation.
  - exact quarter_turn_orthogonal.
Defined.

(** ** Moments of the interpolation weights *)

Lemma vsum_cons (u : vec3) (l : list vec3) : vsum (u :: l) = u +v vsum l.
Proof. reflexivity. Qed.

Lemma msum_cons (A : mat3) (l : list mat3) : msum (A :: l) = A +m msum l.
Proof. reflexivity. Qed.

Lemma vsum_components (l : list vec3) :
  vsum l = Vec3 (rsum (map vx l)) (rsum (map vy l)) (rsum (map vz l)).
Proof.
  induction l as [|u l IH]; [reflexivity|].
  cbn [map]. rewrite vsum_cons, !rsum_cons, IH. reflexivity.
Qed.

Lemma msum_components (l : list mat3) :
  msum l = Mat3 (vsum (map row0 l)) (vsum (map row1 l)) (vsum (map row2 l)).
Proof.
  induction l as [|A l IH]; [reflexivity|].
  cbn [map]. rewrite msum_cons, !vsum_cons, IH. reflexivity.
Qed.

Lemma rsum_scale_l {A : Type} (k : R) (f : A -> R) (l : list A) :
  rsum (map (fun a => k * f a) l) = k * rsum (map f l).
Proof.
  induction l as [|a l IH]; cbn [map].
  - unfold rsum. cbn [fold_right]. ring.
  - rewrite !rsum_cons, IH. ring.
Qed.

Lemma offsets_sum_product (a b c : Z -> R) :
  rsum (map (fun o => a (ix o) * b (iy o) * c (iz o)) (ndrange 3 3 3))
  = axis_sum a * axis_sum b * axis_sum c.
Proof.
  rewrite ndrange_333. unfold rsum, axis_sum.
  cbn [map fold_right ix iy iz]. ring.
Qed.

Lemma offsets_sum_separable (g : ivec3 -> R) (k : R) (a b c : Z -> R) :
  (forall o, g o = k * (a (ix o) * b (iy o) * c (iz o))) ->
  rsum (map g (ndrange 3 3 3)) = k * (axis_sum a * axis_sum b * axis_sum c).
Proof.
  intros H. rewrite (map_ext _ _ H), rsum_scale_l, offsets_sum_product.
  reflexivity.
Qed.

Lemma axis_sum_W (f : R) : axis_sum (fun i => bspline i f) = 1.
Proof. unfold axis_sum, bspline. lra. Qed.

Lemma axis_sum_WD (f : R) :
  axis_sum (fun i => bspline i f * (IZR i - f)) = 0.
Proof. unfold axis_sum, bspline. lra. Qed.

Lemma axis_sum_WDD (f : R) :
  axis_sum (fun i => bspline i f * (IZR i - f) * (IZR i - f)) = 1 / 4.
Proof. unfold axis_sum, bspline. lra. Qed.

Lemma axis_sum_G (f : R) : axis_sum (fun i => bspline_deriv i f) = 0.
Proof. unfold axis_sum, bspline_deriv. lra. Qed.

Lemma axis_sum_GD (f : R) :
  axis_sum (fun i => (IZR i - f) * bspline_deriv i f) = 1.
Proof. unfold axis_sum, bspline_deriv. lra. Qed.

(** First moment: the weighted offsets to the 27 nodes cancel. *)
Lemma weight_moment1 (fx : vec3) :
  vsum (map (fun o => spline_weight fx o *v (vcast_float o -v fx))
            (ndrange 3 3 3)) = vzero.
Proof.
  rewrite vsum_components, !map_map. apply vec3_ext.
  -
    rewrite (offsets_sum_separable _ 1 (fun i => bspline i (vx fx) * (IZR i - vx fx)) (fun i => bspline i (vy fx)) (fun i => bspline i (vz fx)))
      by (intros o; unfold spline_weight, vcast_float; la_unfold; ring).
    rewrite ?axis_sum_W, ?axis_sum_WD, ?axis_sum_WDD, ?axis_sum_G, ?axis_sum_GD. ring.
  -
    rewrite (offsets_sum_separable _ 1 (fun i => bspline i (vx fx)) (fun i => bspline i (vy fx) * (IZR i - vy fx)) (fun i => bspline i (vz fx)))
      by (intros o; unfold spline_weight, vcast_float; la_unfold; ring).
    rewrite ?axis_sum_W, ?axis_sum_WD, ?axis_sum_WDD, ?axis_sum_G, ?axis_sum_GD. ring.
  -
    rewrite (offsets_sum_separable _ 1 (fun i => bspline i (vx fx)) (fun i => bspline i (vy fx)) (fun i => bspline i (vz fx) * (IZR i - vz fx)))
      by (intros o; unfold spline_weight, vcast_float; la_unfold; ring).
    rewrite ?axis_sum_W, ?axis_sum_WD, ?axis_sum_WDD, ?axis_sum_G, ?axis_sum_GD. ring.
Qed.

(** Second moment: a quarter of the identity. *)
Lemma weight_moment2 (fx : vec3) :
  msum (map (fun o => spline_weight fx o
                      *m outer_product (vcast_float o -v fx)
                           (vcast_float o -v fx))
            (ndrange 3 3 3)) = (1 / 4) *m identity.
Proof.
  rewrite msum_components, !map_map, !vsum_components, !map_map.
  unfold identity, mscale, mmap, vscale, vmap. cbn [vx vy vz row0 row1 row2].
  apply mat3_ext; apply vec3_ext.
  -
    rewrite (offsets_sum_separable _ 1 (fun i => bspline i (vx fx) * (IZR i - vx fx) * (IZR i - vx fx)) (fun i => bspline i (vy fx)) (fun i => bspline i (vz fx)))
      by (intros o; unfold spline_weight, vcast_float; la_unfold; ring).
    rewrite ?axis_sum_W, ?axis_sum_WD, ?axis_sum_WDD, ?axis_sum_G, ?axis_sum_GD. ring.
  -
    rewrite (offsets_sum_separable _ 1 (fun i => bspline i (vx fx) * (IZR i - vx fx)) (fun i => bspline i (vy fx) * (IZR i - vy fx)) (fun i => bspline i (vz fx)))
      by (intros o; unfold spline_weight, vcast_float; la_unfold; ring).
    rewrite ?axis_sum_W, ?axis_sum_WD, ?axis_sum_WDD, ?axis_sum_G, ?axis_sum_GD. ring.
  -
    rewrite (offsets_sum_separable _ 1 (fun i => bspline i (vx fx) * (IZR i - vx fx)) (fun i => bspline i (vy fx)) (fun i => bspline i (vz fx) * (IZR i - vz fx)))
      by (intros o; unfold spline_weight, vcast_float; la_unfold; ring).
    rewrite ?axis_sum_W, ?axis_sum_WD, ?axis_sum_WDD, ?axis_sum_G, ?axis_sum_GD. ring.
  -
    rewrite (offsets_sum_separable _ 1 (fun i => bspline i (vx fx) * (IZR i - vx fx)) (fun i => bspline i (vy fx) * (IZR i - vy fx)) (fun i => bspline i (vz fx)))
      by (intros o; unfold spline_weight, vcast_float; la_unfold; ring).
    rewrite ?axis_sum_W, ?axis_sum_WD, ?axis_sum_WDD, ?axis_sum_G, ?axis_sum_GD. ring.
  -
    rewrite (offsets_sum_separable _ 1 (fun i => bspline i (vx fx)) (fun i => bspline i (vy fx) * (IZR i - vy fx) * (IZR i - vy fx)) (fun i => bspline i (vz fx)))
      by (intros o; unfold spline_weight, vcast_float; la_unfold; ring).
    rewrite ?axis_sum_W, ?axis_sum_WD, ?axis_sum_WDD, ?axis_sum_G, ?axis_sum_GD. ring.
  -
    rewrite (offsets_sum_separable _ 1 (fun i => bspline i (vx fx)) (fun i => bspline i (vy fx) * (IZR i - vy fx)) (fun i => bspline i (vz fx) * (IZR i - vz fx)))
      by (intros o; unfold spline_weight, vcast_float; la_unfold; ring).
    rewrite ?axis_sum_W, ?axis_sum_WD, ?axis_sum_WDD, ?axis_sum_G, ?axis_sum_GD. ring.
  -
    rewrite (offsets_sum_separable _ 1 (fun i => bspline i (vx fx) * (IZR i - vx fx)) (fun i => bspline i (vy fx)) (fun i => bspline i (vz fx) * (IZR i - vz fx)))
      by (intros o; unfold spline_weight, vcast_float; la_unfold; ring).
    rewrite ?axis_sum_W, ?axis_sum_WD, ?axis_sum_WDD, ?axis_sum_G, ?axis_sum_GD. ring.
  -
    rewrite (offsets_sum_separable _ 1 (fun i => bspline i (vx fx)) (fun i => bspline i (vy fx) * (IZR i - vy fx)) (fun i => bspline i (vz fx) * (IZR i - vz fx)))
      by (intros o; unfold spline_weight, vcast_float; la_unfold; ring).
    rewrite ?axis_sum_W, ?axis_sum_WD, ?axis_sum_WDD, ?axis_sum_G, ?axis_sum_GD. ring.
  -
    rewrite (offsets_sum_separable _ 1 (fun i => bspline i (vx fx)) (fun i => bspline i (vy fx)) (fun i => bspline i (vz fx) * (IZR i - vz fx) * (IZR i - vz fx)))
      by (intros o; unfold spline_weight, vcast_float; la_unfold; ring).
    rewrite ?axis_sum_W, ?axis_sum_WD, ?axis_sum_WDD, ?axis_sum_G, ?axis_sum_GD. ring.
Qed.

(** The gradients of the 27 weights cancel. *)
Lemma grad_sum (fx : vec3) :
  vsum (map (spline_grad fx) (ndrange 3 3 3)) = vzero.
Proof.
  rewrite vsum_components, !map_map. apply vec3_ext.
  -
    rewrite (offsets_sum_separable _ inv_dx (fun i => bspline_deriv i (vx fx)) (fun i => bspline i (vy fx)) (fun i => bspline i (vz fx)))
      by (intros o; unfold spline_grad, vcast_float; la_unfold; ring).
    rewrite ?axis_sum_W, ?axis_sum_WD, ?axis_sum_WDD, ?axis_sum_G, ?axis_sum_GD. ring.
  -
    rewrite (offsets_sum_separable _ inv_dx (fun i => bspline i (vx fx)) (fun i => bspline_deriv i (vy fx)) (fun i => bspline i (vz fx)))
      by (intros o; unfold spline_grad, vcast_float; la_unfold; ring).
    rewrite ?axis_sum_W, ?axis_sum_WD, ?axis_sum_WDD, ?axis_sum_G, ?axis_sum_GD. ring.
  -
    rewrite (offsets_sum_separable _ inv_dx (fun i => bspline i (vx fx)) (fun i => bspline i (vy fx)) (fun i => bspline_deriv i (vz fx)))
      by (intros o; unfold spline_grad, vcast_float; la_unfold; ring).
    rewrite ?axis_sum_W, ?axis_sum_WD, ?axis_sum_WDD, ?axis_sum_G, ?axis_sum_GD. ring.
Qed.

(** First moment of the gradients: inv_dx times the identity. *)
Lemma grad_moment1 (fx : vec3) :
  msum (map (fun o => outer_product (vcast_float o -v fx) (spline_grad fx o))
            (ndrange 3 3 3)) = inv_dx *m identity.
Proof.
  rewrite msum_components, !map_map, !vsum_components, !map_map.
  unfold identity, mscale, mmap, vscale, vmap. cbn [vx vy vz row0 row1 row2].
  apply mat3_ext; apply vec3_ext.
  -
    rewrite (offsets_sum_separable _ inv_dx (fun i => (IZR i - vx fx) * bspline_deriv i (vx fx)) (fun i => bspline i (vy fx)) (fun i => bspline i (vz fx)))
      by (intros o; unfold spline_grad, vcast_float; la_unfold; ring).
    rewrite ?axis_sum_W, ?axis_sum_WD, ?axis_sum_WDD, ?axis_sum_G, ?axis_sum_GD. ring.
  -
    rewrite (offsets_sum_separable _ inv_dx (fun i => bspline i (vx fx) * (IZR i - vx fx)) (fun i => bspline_deriv i (vy fx)) (fun i => bspline i (vz fx)))
      by (intros o; unfold spline_grad, vcast_float; la_unfold; ring).
    rewrite ?axis_sum_W, ?axis_sum_WD, ?axis_sum_WDD, ?axis_sum_G, ?axis_sum_GD. ring.
  -
    rewrite (offsets_sum_separable _ inv_dx (fun i => bspline i (vx fx) * (IZR i - vx fx)) (fun i => bspline i (vy fx)) (fun i => bspline_deriv i (vz fx)))
      by (intros o; unfold spline_grad, vcast_float; la_unfold; ring).
    rewrite ?axis_sum_W, ?axis_sum_WD, ?axis_sum_WDD, ?axis_sum_G, ?axis_sum_GD. ring.
  -
    rewrite (offsets_sum_separable _ inv_dx (fun i => bspline_deriv i (vx fx)) (fun i => bspline i (vy fx) * (IZR i - vy fx)) (fun i => bspline i (vz fx)))
      by (intros o; unfold spline_grad, vcast_float; la_unfold; ring).
    rewrite ?axis_sum_W, ?axis_sum_WD, ?axis_sum_WDD, ?axis_sum_G, ?axis_sum_GD. ring.
  -
    rewrite (offsets_sum_separable _ inv_dx (fun i => bspline i (vx fx)) (fun i => (IZR i - vy fx) * bspline_deriv i (vy fx)) (fun i => bspline i (vz fx)))
      by (intros o; unfold spline_grad, vcast_float; la_unfold; ring).
    rewrite ?axis_sum_W, ?axis_sum_WD, ?axis_sum_WDD, ?axis_sum_G, ?axis_sum_GD. ring.
  -
    rewrite (offsets_sum_separable _ inv_dx (fun i => bspline i (vx fx)) (fun i => bspline i (vy fx) * (IZR i - vy fx)) (fun i => bspline_deriv i (vz fx)))
      by (intros o; unfold spline_grad, vcast_float; la_unfold; ring).
    rewrite ?axis_sum_W, ?axis_sum_WD, ?axis_sum_WDD, ?axis_sum_G, ?axis_sum_GD. ring.
  -
    rewrite (offsets_sum_separable _ inv_dx (fun i => bspline_deriv i (vx fx)) (fun i => bspline i (vy fx)) (fun i => bspline i (vz fx) * (IZR i - vz fx)))
      by (intros o; unfold spline_grad, vcast_float; la_unfold; ring).
    rewrite ?axis_sum_W, ?axis_sum_WD, ?axis_sum_WDD, ?axis_sum_G, ?axis_sum_GD. ring.
  -
    rewrite (offsets_sum_separable _ inv_dx (fun i => bspline i (vx fx)) (fun i => bspline_deriv i (vy fx)) (fun i => bspline i (vz fx) * (IZR i - vz fx)))
      by (intros o; unfold spline_grad, vcast_float; la_unfold; ring).
    rewrite ?axis_sum_W, ?axis_sum_WD, ?axis_sum_WDD, ?axis_sum_G, ?axis_sum_GD. ring.
  -
    rewrite (offsets_sum_separable _ inv_dx (fun i => bspline i (vx fx)) (fun i => bspline i (vy fx)) (fun i => (IZR i - vz fx) * bspline_deriv i (vz fx)))
      by (intros o; unfold spline_grad, vcast_float; la_unfold; ring).
    rewrite ?axis_sum_W, ?axis_sum_WD, ?axis_sum_WDD, ?axis_sum_G, ?axis_sum_GD. ring.
Qed.

(** ** Momentum on the grid *)

Lemma vsum_nil : vsum [] = vzero.
Proof. reflexivity. Qed.

Lemma vsum_app (l1 l2 : list vec3) : vsum (l1 ++ l2) = vsum l1 +v vsum l2.
Proof.
  induction l1 as [|a l1 IH]; cbn [app].
  - unfold vsum at 2. cbn [fold_right]. now rewrite vadd_zero_l.
  - now rewrite !vsum_cons, IH, vadd_assoc.
Qed.

Lemma vsum_gupd_out (m : ivec3 -> vec3) (n : ivec3) (a : vec3)
    (l : list ivec3) :
  ~ In n l -> vsum (map (gupd m n a) l) = vsum (map m l).
Proof.
  induction l as [|n' l IH]; intros Hn; cbn [map]; [reflexivity|].
  rewrite !vsum_cons, gupd_other, IH; [reflexivity | |].
  - intros H. apply Hn. now right.
  - intros ->. apply Hn. now left.
Qed.

Lemma vadd_swap_r (a b c : vec3) : a +v c +v b = a +v b +v c.
Proof. la_ring. Qed.

Lemma vsum_gupd_in (m : ivec3 -> vec3) (n : ivec3) (a : vec3)
    (l : list ivec3) :
  NoDup l -> In n l ->
  vsum (map (gupd m n (m n +v a)) l) = vsum (map m l) +v a.
Proof.
  induction 1 as [|n' l Hnin Hnd IH]; intros Hin; [contradiction|].
  cbn [map]. rewrite !vsum_cons. destruct Hin as [-> | Hin].
  - rewrite gupd_same, vsum_gupd_out by assumption. apply vadd_swap_r.
  - rewrite gupd_other, IH by (try assumption; intros ->; contradiction).
    now rewrite vadd_assoc.
Qed.

Lemma grid_momentum_node (p : nat) (base : ivec3) (fx : vec3)
    (w dw : list vec3) (tau : mat3) (o : ivec3) (st st' : state) :
  p2g_node p base fx w dw tau o st = Some st' ->
  grid_momentum st'
  = grid_momentum st
    +v ((p_mass * node_weight w o)
          *v (v st p +v C st p @v vscale_r (vcast_float o -v fx) dx)
        +v dt *v ((- p_vol) *m tau @v node_dweight w dw o)).
Proof.
  intros H. apply p2g_node_spec in H as (Hin & _ & _ & Hv).
  unfold grid_momentum.
  rewrite (map_ext _ (gupd (grid_v st) (iadd base o)
                        (grid_v st (iadd base o)
                         +v ((p_mass * node_weight w o)
                               *v (v st p
                                   +v C st p
                                      @v vscale_r (vcast_float o -v fx) dx)
                             +v dt *v ((- p_vol) *m tau
                                       @v node_dweight w dw o))))).
  - apply vsum_gupd_in; [exact NoDup_grid_nodes|].
    apply in_grid_nodes. exact Hin.
  - intros n. rewrite Hv. unfold gupd.
    destruct (ivec3_eqb n (iadd base o)) eqn:Hn; [|reflexivity].
    apply ivec3_eqb_eq in Hn. subst n. now rewrite vadd_assoc.
Qed.

Lemma grid_momentum_loop (p : nat) (base : ivec3) (fx : vec3)
    (w dw : list vec3) (tau : mat3) (l : list ivec3) (st st' : state) :
  for_each (p2g_node p base fx w dw tau) l st = Some st' ->
  grid_momentum st'
  = grid_momentum st
    +v vsum (map (fun o =>
                    (p_mass * node_weight w o)
                      *v (v st p +v C st p @v vscale_r (vcast_float o -v fx) dx)
                    +v dt *v ((- p_vol) *m tau @v node_dweight w dw o)) l).
Proof.
  intros Hrun.
  enough (H : same_particles st' st /\
              grid_momentum st'
              = grid_momentum st
                +v vsum (map (fun o =>
                     (p_mass * node_weight w o)
                       *v (v st p
                           +v C st p @v vscale_r (vcast_float o -v fx) dx)
                     +v dt *v ((- p_vol) *m tau @v node_dweight w dw o)) l))
    by apply H.
  revert Hrun.
  apply (for_each_ind (p2g_node p base fx w dw tau)
           (fun done s =>
              same_particles s st /\
              grid_momentum s
              = grid_momentum st
                +v vsum (map (fun o =>
                     (p_mass * node_weight w o)
                       *v (v st p
                           +v C st p @v vscale_r (vcast_float o -v fx) dx)
                     +v dt *v ((- p_vol) *m tau @v node_dweight w dw o))
                     done))).
  - split; [apply same_particles_refl|].
    cbn [map]. rewrite vsum_nil. now rewrite vadd_zero_r.
  - intros done a rest s1 s2 _ [Hsame IH] Hstep.
    pose proof (p2g_node_spec _ _ _ _ _ _ _ _ _ Hstep) as (_ & Hsame' & _).
    split; [exact (same_particles_trans _ _ _ Hsame' Hsame)|].
    rewrite (grid_momentum_node _ _ _ _ _ _ _ _ _ Hstep), IH, map_app, vsum_app.
    destruct Hsame as (_ & _ & -> & -> & _).
    cbn [map]. rewrite vsum_cons, vsum_nil.
    now rewrite vadd_zero_r, vadd_assoc.
Qed.

Lemma vsum_scatter_terms {A : Type} (m : R) (vp : vec3) (Cp tau : mat3)
    (w : A -> R) (d g : A -> vec3) (l : list A) :
  vsum (map (fun o => (m * w o) *v (vp +v Cp @v vscale_r (d o) dx)
                      +v dt *v ((- p_vol) *m tau @v g o)) l)
  = (m * rsum (map w l)) *v vp
    +v (m * dx) *v (Cp @v vsum (map (fun o => w o *v d o) l))
    +v (dt * - p_vol) *v (tau @v vsum (map g l)).
Proof.
  induction l as [|o l IH]; cbn [map].
  - unfold vsum, rsum. cbn [fold_right]. la_ring.
  - rewrite !vsum_cons, rsum_cons, IH.
    generalize (rsum (map w l)) (vsum (map (fun o => w o *v d o) l))
               (vsum (map g l)) (w o) (d o) (g o).
    clear. intros r s1 s2 wo d0 g0. la_ring.
Qed.

Lemma grid_momentum_set_Jp (st : state) (j : nat -> R) :
  grid_momentum (set_Jp st j) = grid_momentum st.
Proof. reflexivity. Qed.

Lemma grid_momentum_particle (svd : mat3 -> mat3 * mat3 * mat3) (p : nat)
    (st st' : state) :
  p2g_particle svd p st = Some st' ->
  grid_momentum st' = grid_momentum st +v p_mass *v v st p.
Proof.
  rewrite p2g_particle_loop. intros H. apply grid_momentum_loop in H.
  rewrite H, grid_momentum_set_Jp. unfold set_Jp. cbn [v C]. f_equal.
  rewrite (map_ext_in _
             (fun o => (p_mass * spline_weight (p2g_fx (x st p)) o)
                         *v (v st p
                             +v C st p
                                @v vscale_r (vcast_float o -v p2g_fx (x st p)) dx)
                       +v dt *v ((- p_vol)
                                 *m snd (p2g_stress svd (F st p) (Jp st p))
                                 @v spline_grad (p2g_fx (x st p)) o)))
    by (intros o Ho; now rewrite node_weight_p2g, node_dweight_p2g).
  rewrite (vsum_scatter_terms p_mass (v st p) (C st p) _
             (spline_weight (p2g_fx (x st p)))
             (fun o => vcast_float o -v p2g_fx (x st p))
             (spline_grad (p2g_fx (x st p)))).
  rewrite spline_weight_sum, weight_moment1, grad_sum.
  generalize (v st p) (C st p) (snd (p2g_stress svd (F st p) (Jp st p))).
  clear. la_ring.
Qed.

Lemma vsum_zero {A : Type} (l : list A) : vsum (map (fun _ => vzero) l) = vzero.
Proof.
  induction l as [|a l IH]; cbn [map]; [reflexivity|].
  now rewrite vsum_cons, IH, vadd_zero_r.
Qed.

Lemma grid_momentum_clear (st : state) : grid_momentum (clear_grid st) = vzero.
Proof.
  unfold grid_momentum. destruct (clear_grid_spec st) as [_ Hval].
  rewrite (map_ext_in _ (fun _ => vzero)).
  - apply vsum_zero.
  - intros n Hn. apply in_grid_nodes in Hn.
    destruct (Hval n) as [Hv _]. rewrite Hv, Hn. reflexivity.
Qed.

Lemma vscale_add_r (a : R) (u w : vec3) : a *v (u +v w) = a *v u +v a *v w.
Proof. la_ring. Qed.

Lemma grid_momentum_p2g (svd : mat3 -> mat3 * mat3 * mat3) (st st' : state) :
  p2g svd st = Some st' ->
  grid_momentum st'
  = grid_momentum st +v p_mass *v vsum (map (v st) (seq 0 n_particles)).
Proof.
  intros Hrun.
  enough (H : v st' = v st /\
              grid_momentum st'
              = grid_momentum st
                +v p_mass *v vsum (map (v st) (seq 0 n_particles)))
    by apply H.
  revert Hrun.
  apply (for_each_ind (p2g_particle svd)
           (fun done s =>
              v s = v st /\
              grid_momentum s
              = grid_momentum st +v p_mass *v vsum (map (v st) done))).
  - split; [reflexivity|]. cbn [map]. rewrite vsum_nil.
    generalize (grid_momentum st). clear. la_ring.
  - intros done a rest s1 s2 _ [Hv IH] Hstep.
    pose proof (p2g_particle_frame _ _ _ _ Hstep) as (_ & _ & _ & Hv2 & _).
    split; [congruence|].
    rewrite (grid_momentum_particle _ _ _ _ Hstep), IH, Hv, map_app, vsum_app.
    cbn [map]. rewrite vsum_cons, vsum_nil.
    rewrite vadd_zero_r, vscale_add_r. now rewrite vadd_assoc.
Qed.

(** X6: P2G conserves linear momentum.  When the 27 nodes of every particle
    lie in the grid, the momenta of all grid nodes after P2G add up to
    p_mass times the sum of the particle velocities, whatever the affine
    matrices and deformation gradients are: the APIC terms and the elastic
    forces cancel in the sum. *)
Theorem p2g_momentum_conservation (svd : mat3 -> mat3 * mat3 * mat3)
    (st : state) :
  (forall p, (p < n_particles)%nat -> neighbourhood_in_grid (x st p)) ->
  exists s1,
    p2g svd (clear_grid st) = Some s1 /\
    grid_momentum s1 = p_mass *v vsum (map (v st) (seq 0 n_particles)).
Proof.
  intros Hin. destruct (clear_grid_spec st) as ((Hx0 & _ & Hv0 & _) & _).
  destruct (p2g_total svd (clear_grid st)) as [s1 Hs1].
  { intros p Hp. rewrite Hx0. exact (Hin p Hp). }
  exists s1. split; [exact Hs1|].
  rewrite (grid_momentum_p2g svd _ _ Hs1), grid_momentum_clear, Hv0.
  apply vadd_zero_l.
Qed.

Lemma p2g_momentum_conservation_witness :
  exists s1,
    p2g svd_of_identity
      (clear_grid (uniform_state (Vec3 0.5 0.5 0.5) (Vec3 1 2 3) vzero))
    = Some s1 /\
    grid_momentum s1
    = p_mass *v vsum (map (fun _ => Vec3 1 2 3) (seq 0 n_particles)).
Proof.
  apply (p2g_momentum_conservation svd_of_identity
           (uniform_state (Vec3 0.5 0.5 0.5) (Vec3 1 2 3) vzero)).
  intros p _. apply neighbourhood_safe. exact midpoint_safe.
Defined.

(** ** Gather from an affine velocity field *)

Ltac la_norm :=
  cbv beta iota zeta delta
    [kirchoff_FCR mscale_r vscale_r mmul mat_vec transpose col outer_product
     mscale madd msub mmap vadd vsub vscale vmap2 vmap vdot identity mzero
     vzero mget mrow vget vset vx vy vz row0 row1 row2].
Ltac la_calc := intros; la_destruct; la_norm; la_split; ring.

Lemma position_decomp (xp : vec3) :
  xp = dx *v (vcast_float (p2g_base xp) +v p2g_fx xp).
Proof.
  unfold p2g_fx. generalize (vcast_float (p2g_base xp)). intros B.
  destruct xp as [a b c]. destruct B as [p q r]. la_unfold.
  rewrite dx_val, inv_dx_val. la_split; field.
Qed.

Lemma vcast_float_iadd (a b : ivec3) :
  vcast_float (iadd a b) = vcast_float a +v vcast_float b.
Proof.
  unfold vcast_float, iadd. la_unfold. cbn [ix iy iz].
  now rewrite !plus_IZR.
Qed.

Lemma affine_node_value (A : mat3) (b B fx O xp : vec3) :
  xp = dx *v (B +v fx) ->
  A @v (dx *v (B +v O)) +v b
  = (A @v xp +v b) +v dx *v (A @v (O -v fx)).
Proof. intros ->. la_calc. Qed.

Lemma gather_velocity_terms {T : Type} (A : mat3) (u : vec3) (w : T -> R)
    (d : T -> vec3) (l : list T) :
  vsum (map (fun o => w o *v (u +v dx *v (A @v d o))) l)
  = rsum (map w l) *v u
    +v dx *v (A @v vsum (map (fun o => w o *v d o) l)).
Proof.
  induction l as [|o l IH]; cbn [map].
  - unfold rsum. cbn [fold_right]. rewrite !vsum_nil. la_calc.
  - rewrite !vsum_cons, rsum_cons, IH.
    generalize (rsum (map w l)) (vsum (map (fun o => w o *v d o) l))
               (w o) (d o).
    clear. intros r s wo d0. la_calc.
Qed.

Lemma msum_nil : msum [] = mzero.
Proof. reflexivity. Qed.

Lemma madd_interchange (A B D G : mat3) :
  (A +m B) +m (D +m G) = (A +m D) +m (B +m G).
Proof. la_calc. Qed.

Lemma msum_add_map {T : Type} (f g : T -> mat3) (l : list T) :
  msum (map (fun o => f o +m g o) l) = msum (map f l) +m msum (map g l).
Proof.
  induction l as [|o l IH]; cbn [map].
  - rewrite !msum_nil. now rewrite madd_zero_r.
  - rewrite !msum_cons, IH. apply madd_interchange.
Qed.

Lemma mscale_madd (k : R) (A B : mat3) : k *m (A +m B) = k *m A +m k *m B.
Proof. la_calc. Qed.

Lemma mscale_mzero (k : R) : k *m mzero = mzero.
Proof. la_calc. Qed.

Lemma msum_scale_map {T : Type} (k : R) (f : T -> mat3) (l : list T) :
  msum (map (fun o => k *m f o) l) = k *m msum (map f l).
Proof.
  induction l as [|o l IH]; cbn [map].
  - rewrite !msum_nil. now rewrite mscale_mzero.
  - now rewrite !msum_cons, IH, mscale_madd.
Qed.

Lemma mmul_madd (A B D : mat3) : A @m (B +m D) = A @m B +m A @m D.
Proof. la_calc. Qed.

Lemma mmul_mzero (A : mat3) : A @m mzero = mzero.
Proof. la_calc. Qed.

Lemma msum_mmul_map {T : Type} (A : mat3) (f : T -> mat3) (l : list T) :
  msum (map (fun o => A @m f o) l) = A @m msum (map f l).
Proof.
  induction l as [|o l IH]; cbn [map].
  - rewrite !msum_nil. now rewrite mmul_mzero.
  - now rewrite !msum_cons, IH, mmul_madd.
Qed.

Lemma outer_vadd (u a b : vec3) :
  outer_product u (a +v b) = outer_product u a +m outer_product u b.
Proof. la_calc. Qed.

Lemma outer_vzero (u : vec3) : outer_product u vzero = mzero.
Proof. la_calc. Qed.

Lemma msum_outer_map {T : Type} (u : vec3) (f : T -> vec3) (l : list T) :
  msum (map (fun o => outer_product u (f o)) l)
  = outer_product u (vsum (map f l)).
Proof.
  induction l as [|o l IH]; cbn [map].
  - rewrite msum_nil, vsum_nil. now rewrite outer_vzero.
  - now rewrite msum_cons, vsum_cons, IH, outer_vadd.
Qed.

Lemma affine_term (A : mat3) (u d : vec3) (w : R) :
  (4 * inv_dx * w) *m outer_product (u +v dx *v (A @v d)) d
  = (4 * inv_dx)
    *m (outer_product u (w *v d) +m dx *m (A @m (w *m outer_product d d))).
Proof. la_calc. Qed.

Lemma gradient_term (A : mat3) (u d g : vec3) :
  outer_product (u +v dx *v (A @v d)) g
  = outer_product u g +m dx *m (A @m outer_product d g).
Proof. la_calc. Qed.

Lemma gather_affine_terms {T : Type} (A : mat3) (u : vec3) (w : T -> R)
    (d : T -> vec3) (l : list T) :
  msum (map (fun o => (4 * inv_dx * w o)
                      *m outer_product (u +v dx *v (A @v d o)) (d o)) l)
  = (4 * inv_dx)
    *m (outer_product u (vsum (map (fun o => w o *v d o) l))
        +m dx *m (A @m msum (map (fun o => w o *m outer_product (d o) (d o))
                                 l))).
Proof.
  rewrite (map_ext _ _ (fun o => affine_term A u (d o) (w o))).
  rewrite (msum_scale_map (4 * inv_dx)
             (fun o => outer_product u (w o *v d o)
                       +m dx *m (A @m (w o *m outer_product (d o) (d o))))).
  rewrite (msum_add_map (fun o => outer_product u (w o *v d o))
             (fun o => dx *m (A @m (w o *m outer_product (d o) (d o))))).
  rewrite (msum_outer_map u (fun o => w o *v d o)).
  rewrite (msum_scale_map dx
             (fun o => A @m (w o *m outer_product (d o) (d o)))).
  rewrite (msum_mmul_map A (fun o => w o *m outer_product (d o) (d o))).
  reflexivity.
Qed.

Lemma gather_gradient_terms {T : Type} (A : mat3) (u : vec3)
    (d g : T -> vec3) (l : list T) :
  msum (map (fun o => outer_product (u +v dx *v (A @v d o)) (g o)) l)
  = outer_product u (vsum (map g l))
    +m dx *m (A @m msum (map (fun o => outer_product (d o) (g o)) l)).
Proof.
  rewrite (map_ext _ _ (fun o => gradient_term A u (d o) (g o))).
  rewrite (msum_add_map (fun o => outer_product u (g o))
             (fun o => dx *m (A @m outer_product (d o) (g o)))).
  rewrite (msum_outer_map u g).
  rewrite (msum_scale_map dx (fun o => A @m outer_product (d o) (g o))).
  rewrite (msum_mmul_map A (fun o => outer_product (d o) (g o))).
  reflexivity.
Qed.

Lemma gather_from_affine (gv : ivec3 -> vec3) (xp : vec3) (A : mat3)
    (b : vec3) :
  (forall o, In o (ndrange 3 3 3) ->
     gv (iadd (p2g_base xp) o)
     = A @v (dx *v vcast_float (iadd (p2g_base xp) o)) +v b) ->
  gather_velocity gv xp = A @v xp +v b /\
  gather_affine gv xp = A /\
  gather_gradient gv xp = A.
Proof.
  intros Hgv.
  assert (Hnode : forall o, In o (ndrange 3 3 3) ->
            gv (iadd (p2g_base xp) o)
            = (A @v xp +v b)
              +v dx *v (A @v (vcast_float o -v p2g_fx xp))).
  { intros o Ho. rewrite (Hgv o Ho), vcast_float_iadd.
    apply affine_node_value. apply position_decomp. }
  unfold gather_velocity, gather_affine, gather_gradient.
  split; [|split].
  - rewrite (map_ext_in _
               (fun o => spline_weight (p2g_fx xp) o
                         *v ((A @v xp +v b)
                             +v dx *v (A @v (vcast_float o -v p2g_fx xp)))))
      by (intros o Ho; now rewrite (Hnode o Ho)).
    rewrite (gather_velocity_terms A (A @v xp +v b)
               (spline_weight (p2g_fx xp))
               (fun o => vcast_float o -v p2g_fx xp)).
    rewrite spline_weight_sum, weight_moment1.
    generalize (A @v xp +v b). clear. intros u. la_calc.
  - rewrite (map_ext_in _
               (fun o => (4 * inv_dx * spline_weight (p2g_fx xp) o)
                         *m outer_product
                              ((A @v xp +v b)
                               +v dx *v (A @v (vcast_float o -v p2g_fx xp)))
                              (vcast_float o -v p2g_fx xp)))
      by (intros o Ho; now rewrite (Hnode o Ho)).
    rewrite (gather_affine_terms A (A @v xp +v b)
               (spline_weight (p2g_fx xp))
               (fun o => vcast_float o -v p2g_fx xp)).
    rewrite weight_moment1, weight_moment2, dx_val, inv_dx_val.
    generalize (A @v xp +v b). clear. intros u.
    la_destruct. la_norm. la_split; field.
  - rewrite (map_ext_in _
               (fun o => outer_product
                           ((A @v xp +v b)
                            +v dx *v (A @v (vcast_float o -v p2g_fx xp)))
                           (spline_grad (p2g_fx xp) o)))
      by (intros o Ho; now rewrite (Hnode o Ho)).
    rewrite (gather_gradient_terms A (A @v xp +v b)
               (fun o => vcast_float o -v p2g_fx xp)
               (spline_grad (p2g_fx xp))).
    rewrite grad_sum, grad_moment1, dx_val, inv_dx_val.
    generalize (A @v xp +v b). clear. intros u.
    la_destruct. la_norm. la_split; field.
Qed.

(** X7: G2P reproduces an affine velocity field exactly.  If the grid
    velocity at the 27 nodes of particle p is A y + b at the node position
    y = dx * (i, j, k), then after G2P the particle has velocity A x + b at its
    old position x, affine matrix C = A, and deformation gradient
    (I + dt A) F. *)
Theorem g2p_affine_exact (st st' : state) (p : nat) (A : mat3) (b : vec3) :
  g2p st = Some st' ->
  (p < n_particles)%nat ->
  (forall o, In o (ndrange 3 3 3) ->
     grid_v st (iadd (p2g_base (x st p)) o)
     = A @v (dx *v vcast_float (iadd (p2g_base (x st p)) o)) +v b) ->
  v st' p = A @v x st p +v b /\
  C st' p = A /\
  F st' p = (identity +m dt *m A) @m F st p.
Proof.
  intros Hrun Hp Hgv. apply g2p_result in Hrun as (_ & _ & _ & Hdone).
  destruct (Hdone p) as (_ & Hv & HC & _ & HF); [apply in_seq; lia|].
  destruct (gather_from_affine (grid_v st) (x st p) A b Hgv)
    as (Ev & EC & EF).
  rewrite Hv, HC, HF, Ev, EC, EF. auto.
Qed.

Lemma g2p_affine_exact_witness :
  exists st',
    g2p (affine_grid_state quarter_turn_z (Vec3 1 2 3)) = Some st' /\
    v st' 0%nat = quarter_turn_z @v Vec3 0.5 0.5 0.5 +v Vec3 1 2 3 /\
    C st' 0%nat = quarter_turn_z /\
    F st' 0%nat = (identity +m dt *m quarter_turn_z) @m identity.
Proof.
  destruct (g2p_total (affine_grid_state quarter_turn_z (Vec3 1 2 3)))
    as (st' & Hrun & _).
  { intros p _. apply neighbourhood_safe. exact midpoint_safe. }
  exists st'. split; [exact Hrun|].
  apply (g2p_affine_exact _ _ 0%nat quarter_turn_z (Vec3 1 2 3) Hrun).
  - unfold n_particles, quality. lia.
  - intros o _. reflexivity.
Defined.

(** ** Nodes without mass *)

Lemma bspline_zero_deriv (i : Z) (f : R) :
  (i = 0 \/ i = 1 \/ i = 2)%Z -> 0.5 <= f < 1.5 ->
  bspline i f = 0 -> bspline_deriv i f = 0.
Proof.
  intros [-> | [-> | ->]] Hf; unfold bspline, bspline_deriv; intros H; nra.
Qed.

Lemma weight_zero_grad_zero (fx : vec3) (o : ivec3) :
  in_box (fun f => 0.5 <= f < 1.5) fx -> In o (ndrange 3 3 3) ->
  spline_weight fx o = 0 -> spline_grad fx o = vzero.
Proof.
  intros (Hx & Hy & Hz) Ho Hw. apply offsets_cases in Ho as (Hi & Hj & Hk).
  unfold spline_weight in Hw. unfold spline_grad, vzero.
  apply Rmult_integral in Hw as [Hw | Hw];
    [apply Rmult_integral in Hw as [Hw | Hw]|].
  - rewrite Hw, (bspline_zero_deriv _ _ Hi Hx Hw). apply vec3_ext; ring.
  - rewrite Hw, (bspline_zero_deriv _ _ Hj Hy Hw). apply vec3_ext; ring.
  - rewrite Hw, (bspline_zero_deriv _ _ Hk Hz Hw). apply vec3_ext; ring.
Qed.

Lemma floor_box_fx (xp : vec3) :
  in_box claimed_safe_coord xp ->
  neighbourhood_in_grid xp /\ in_box (fun f => 0.5 <= f < 1.5) (p2g_fx xp).
Proof.
  intros Hbox. split.
  - apply neighbourhood_safe. unfold in_box, claimed_safe_coord, safe_coord in *.
    rewrite dx_val in *. repeat split; lra.
  - unfold in_box, claimed_safe_coord in Hbox. rewrite dx_val, n_grid_val in Hbox.
    destruct Hbox as (Hx & Hy & Hz).
    unfold in_box, p2g_fx, p2g_base, vcast_int, vcast_float, vsub, vmap2, vmap.
    cbn [ix iy iz vx vy vz]. rewrite inv_dx_val.
    rewrite !cast_int_nonneg by lra.
    pose proof (Zfloor_bound (vx xp * 128 - 0.5)).
    pose proof (Zfloor_bound (vy xp * 128 - 0.5)).
    pose proof (Zfloor_bound (vz xp * 128 - 0.5)).
    repeat split; lra.
Qed.

Lemma node_weight_p2g_spline (fx : vec3) (o : ivec3) :
  In o (ndrange 3 3 3) -> node_weight (p2g_w fx) o = spline_weight fx o.
Proof. exact (node_weight_p2g fx o). Qed.

Lemma node_dweight_p2g_spline (fx : vec3) (o : ivec3) :
  In o (ndrange 3 3 3) ->
  node_dweight (p2g_w fx) (p2g_dw fx) o = spline_grad fx o.
Proof. exact (node_dweight_p2g fx o). Qed.

Lemma massless_contribution (w : R) (u g : vec3) (tau : mat3) :
  w = 0 -> g = vzero ->
  (p_mass * w) *v u +v dt *v ((- p_vol) *m tau @v g) = vzero.
Proof. intros -> ->. la_calc. Qed.

Lemma massless_particle_step (svd : mat3 -> mat3 * mat3 * mat3) (p : nat)
    (s1 s2 : state) :
  in_box claimed_safe_coord (x s1 p) ->
  massless_inv s1 ->
  p2g_particle svd p s1 = Some s2 ->
  massless_inv s2.
Proof.
  intros Hbox Hinv Hstep.
  destruct (floor_box_fx _ Hbox) as [_ Hfx].
  rewrite p2g_particle_loop in Hstep.
  apply p2g_loop_nodes in Hstep as (_ & Hin & Hout); [|apply NoDup_ndrange].
  unfold set_Jp in Hin, Hout. cbn [grid_m grid_v v C] in Hin, Hout.
  intros n Hn. destruct (Hinv n Hn) as [Hpos Hzero].
  destruct (neighbourhood_cases (p2g_base (x s1 p)) n (ndrange 3 3 3))
    as [(o & Ho & ->) | Hfar].
  - destruct (Hin o Ho) as (_ & Hm & Hv).
    rewrite node_weight_p2g_spline in Hm, Hv by exact Ho.
    rewrite node_dweight_p2g_spline in Hv by exact Ho.
    pose proof (spline_weight_nonneg (p2g_fx (x s1 p)) o Hfx) as Hw.
    pose proof p_mass_pos as Hpm.
    assert (Hwp : 0 <= spline_weight (p2g_fx (x s1 p)) o * p_mass)
      by (apply Rmult_le_pos; lra).
    rewrite Hm, Hv. split; [lra|].
    intros H0.
    assert (Hw0 : spline_weight (p2g_fx (x s1 p)) o = 0).
    { assert (H : spline_weight (p2g_fx (x s1 p)) o * p_mass = 0) by lra.
      apply Rmult_integral in H as [H | H]; lra. }
    assert (Hm0 : grid_m s1 (iadd (p2g_base (x s1 p)) o) = 0) by lra.
    rewrite (Hzero Hm0), vadd_assoc, vadd_zero_l.
    apply massless_contribution; [exact Hw0|].
    exact (weight_zero_grad_zero _ _ Hfx Ho Hw0).
  - destruct (Hout n Hfar) as [-> ->]. split; assumption.
Qed.

(** X8: when every coordinate c of every particle satisfies
    0.5 dx <= c < (n_grid - 1.5) dx, P2G after the grid reset leaves no grid
    node with negative mass, and every node of zero mass holds zero momentum,
    which the grid update then leaves at zero. *)
Theorem massless_nodes_at_rest (svd : mat3 -> mat3 * mat3 * mat3)
    (st : state) :
  (forall p, (p < n_particles)%nat -> in_box claimed_safe_coord (x st p)) ->
  exists s1,
    p2g svd (clear_grid st) = Some s1 /\
    forall n, in_grid n = true ->
      0 <= grid_m s1 n /\
      (grid_m s1 n = 0 ->
       grid_v s1 n = vzero /\ grid_v (grid_update s1) n = vzero).
Proof.
  intros Hbox. destruct (clear_grid_spec st) as ((Hx0 & _) & Hclear).
  destruct (p2g_total svd (clear_grid st)) as [s1 Hs1].
  { intros p Hp. rewrite Hx0. exact (proj1 (floor_box_fx _ (Hbox p Hp))). }
  exists s1. split; [exact Hs1|].
  assert (Hinv : (x s1 = x st) /\ massless_inv s1).
  { revert Hs1.
    apply (for_each_ind (p2g_particle svd)
             (fun _ s => x s = x st /\ massless_inv s)).
    - split; [exact Hx0|]. intros n Hn. destruct (Hclear n) as [Hv Hm].
      rewrite Hv, Hm, Hn. split; [lra | reflexivity].
    - intros done a rest s2 s3 Hl [Hx Hinv] Hstep.
      pose proof (p2g_particle_frame _ _ _ _ Hstep) as (_ & Hx3 & _).
      split; [rewrite Hx3; exact Hx|].
      apply (massless_particle_step svd a s2 s3); [|exact Hinv | exact Hstep].
      rewrite Hx. apply Hbox.
      assert (H : In a (seq 0 n_particles))
        by (rewrite Hl; apply in_or_app; right; now left).
      apply in_seq in H. lia. }
  destruct Hinv as [_ Hinv]. clear Hclear Hx0 Hs1.
  intros n Hn. destruct (Hinv n Hn) as [Hpos Hzero].
  split; [exact Hpos|]. intros H0. split; [exact (Hzero H0)|].
  destruct (grid_update_spec s1) as (_ & _ & Hv).
  rewrite Hv, Hn. clear Hv. unfold node_velocity.
  replace (Rltb 0 (grid_m s1 n)) with false
    by (symmetry; apply Rltb_false; lra).
  exact (Hzero H0).
Qed.

Lemma massless_nodes_at_rest_witness :
  exists s1,
    p2g svd_of_identity
      (clear_grid (uniform_state (Vec3 0.5 0.5 0.5) (Vec3 1 2 3) vzero))
    = Some s1 /\
    forall n, in_grid n = true ->
      0 <= grid_m s1 n /\
      (grid_m s1 n = 0 ->
       grid_v s1 n = vzero /\ grid_v (grid_update s1) n = vzero).
Proof.
  apply (massless_nodes_at_rest svd_of_identity
           (uniform_state (Vec3 0.5 0.5 0.5) (Vec3 1 2 3) vzero)).
  intros p _. unfold in_box, claimed_safe_coord.
  cbn [uniform_state x vx vy vz]. rewrite dx_val, n_grid_val.
  repeat split; lra.
Defined.

Lemma midpoint_interior : neighbourhood_interior (Vec3 0.5 0.5 0.5).
Proof.
  assert (Hb : p2g_base (Vec3 0.5 0.5 0.5) = IVec3 63 63 63).
  { unfold p2g_base, vcast_int, vmap. cbn [vx vy vz].
    assert (Hc : cast_int (0.5 * inv_dx - 0.5) = 63%Z).
    { rewrite cast_int_nonneg by (rewrite inv_dx_val; lra).
      apply Zfloor_eq. rewrite inv_dx_val. lra. }
    now rewrite Hc. }
  intros o Ho. rewrite Hb. apply in_ndrange in Ho.
  unfold interior_node, interior_index, iadd. cbn [ix iy iz].
  rewrite !andb_true_iff, !Z.leb_le, n_grid_val. lia.
Qed.

(** ** Rigid translation is reproduced *)

Lemma node_velocity_uniform_cases (n : ivec3) (m w : R) (v0 : vec3) :
  interior_node n = true -> 0 <= m -> 0 <= w -> w * p_mass <= m ->
  w = 0 \/ node_velocity vzero n (m *v v0) m = v0.
Proof.
  intros Hint Hm Hw Hlow. unfold node_velocity.
  destruct (Rltb 0 m) eqn:Hpos.
  - right. apply Rltb_true in Hpos. rewrite wall_collide_interior by exact Hint.
    destruct v0 as [a b c]. la_norm. la_split; field; lra.
  - left. apply Rltb_false in Hpos. pose proof p_mass_pos. nra.
Qed.

Lemma gather_uniform (gv : ivec3 -> vec3) (xp v0 : vec3) :
  in_box (fun f => 0.5 <= f < 1.5) (p2g_fx xp) ->
  (forall o, In o (ndrange 3 3 3) ->
     spline_weight (p2g_fx xp) o = 0 \/ gv (iadd (p2g_base xp) o) = v0) ->
  gather_velocity gv xp = v0 /\
  gather_affine gv xp = mzero /\
  gather_gradient gv xp = mzero.
Proof.
  intros Hfx Hnodes.
  destruct (gather_from_affine (fun _ => v0) xp mzero v0) as (Ev & EC & EF).
  { intros o _. clear. la_calc. }
  assert (Ev0 : mzero @v xp +v v0 = v0) by (clear; la_calc).
  rewrite Ev0 in Ev. clear Ev0.
  split; [|split].
  - transitivity (gather_velocity (fun _ => v0) xp); [|exact Ev].
    unfold gather_velocity. f_equal. apply map_ext_in. intros o Ho.
    destruct (Hnodes o Ho) as [Hw | Hg].
    + rewrite Hw. now rewrite !vscale_zero.
    + now rewrite Hg.
  - transitivity (gather_affine (fun _ => v0) xp); [|exact EC].
    unfold gather_affine. f_equal. apply map_ext_in. intros o Ho.
    destruct (Hnodes o Ho) as [Hw | Hg].
    + rewrite Hw. clear. la_calc.
    + now rewrite Hg.
  - transitivity (gather_gradient (fun _ => v0) xp); [|exact EF].
    unfold gather_gradient. f_equal. apply map_ext_in. intros o Ho.
    destruct (Hnodes o Ho) as [Hw | Hg].
    + rewrite (weight_zero_grad_zero _ _ Hfx Ho Hw). clear. la_calc.
    + now rewrite Hg.
Qed.

(** One substep of a uniform flow: velocity, affine matrix and deformation
    gradient are reproduced, the particles advance by dt v0, and gravity
    stays zero. *)
Lemma uniform_flow_step (svd : mat3 -> mat3 * mat3 * mat3)
    (st : state) (v0 : vec3) :
  is_svd identity (svd identity) ->
  gravity st = vzero ->
  (forall p, (p < n_particles)%nat ->
     v st p = v0 /\ C st p = mzero /\ F st p = identity /\
     neighbourhood_interior (x st p)) ->
  exists st',
    substep svd st = Some st' /\
    gravity st' = vzero /\
    forall p, (p < n_particles)%nat ->
      v st' p = v0 /\ C st' p = mzero /\ F st' p = identity /\
      x st' p = x st p +v dt *v v0.
Proof.
  intros Hsvd Hgrav Hpart.
  destruct (substep_total svd st) as [st' Hrun].
  { intros p Hp. apply interior_neighbourhood. apply (Hpart p Hp). }
  exists st'. split; [exact Hrun|].
  apply substep_phases in Hrun as (s1 & Hp2g & Hg2p).
  destruct (clear_grid_spec st)
    as ((Hx0 & _ & Hv0 & HC0 & HF0 & _ & Hg0) & Hclear).
  assert (Hinv : uniform_flow_inv v0 (clear_grid st) (seq 0 n_particles) s1).
  { apply (uniform_p2g svd v0 (clear_grid st) s1 Hsvd); [| | exact Hp2g].
    - intros p Hp. rewrite Hx0, Hv0, HC0, HF0. exact (Hpart p Hp).
    - intros n Hn. destruct (Hclear n) as [Hv Hm]. rewrite Hv, Hm, Hn.
      split; reflexivity. }
  clear Hclear Hp2g.
  destruct Hinv as ((Hx1 & _ & _ & HF1 & Hg1) & Hmom & Hpos & Hlow).
  destruct (grid_update_spec s1) as ((Hx2 & _ & _ & _ & HF2 & _) & _ & Hvel).
  destruct (grid_update_spec s1) as ((_ & _ & _ & _ & _ & _ & Hg2) & _).
  apply g2p_result in Hg2p as ((_ & _ & Hg3) & _ & _ & Hdone).
  split; [rewrite Hg3, Hg2, Hg1, Hg0; exact Hgrav|].
  intros p Hp. destruct (Hdone p) as (_ & Hv & HC & Hx & HF);
    [apply in_seq; lia|].
  destruct (Hpart p Hp) as (_ & _ & HFp & Hint).
  destruct (gather_uniform (grid_v (grid_update s1)) (x st p) v0)
    as (Ev & EC & EF).
  - exact (interior_fx _ Hint).
  - intros o Ho. pose proof (Hint o Ho) as Hnode.
    pose proof (interior_in_grid _ Hnode) as Hgrid.
    rewrite Hvel, Hgrid, Hg1, Hg0, Hgrav, (Hmom _ Hgrid).
    apply node_velocity_uniform_cases.
    + exact Hnode.
    + exact (Hpos _ Hgrid).
    + apply spline_weight_nonneg. exact (interior_fx _ Hint).
    + specialize (Hlow p o). rewrite Hx0 in Hlow. apply Hlow; [|exact Ho].
      apply in_seq. lia.
  - rewrite Hx, Hv, HC, HF, Hx2, Hx1, Hx0, Ev, EC, EF, HF2, HF1, HF0, HFp.
    split; [reflexivity|]. split; [reflexivity|].
    split; [clear; la_calc | reflexivity].
Qed.

(** X9: a rigid translation is reproduced by substep.  Under the conditions
    of the rigid translation (one velocity v0, zero affine matrices, identity
    deformation gradients, no gravity, neighbourhoods clear of the wall
    margins, a decomposition of the identity), after substep every particle
    again has velocity v0, zero affine matrix and identity deformation
    gradient. *)
Theorem rigid_translation_persists (svd : mat3 -> mat3 * mat3 * mat3)
    (st : state) (v0 : vec3) :
  is_svd identity (svd identity) ->
  gravity st = vzero ->
  (forall p, (p < n_particles)%nat ->
     v st p = v0 /\ C st p = mzero /\ F st p = identity /\
     neighbourhood_interior (x st p)) ->
  exists st',
    substep svd st = Some st' /\
    forall p, (p < n_particles)%nat ->
      v st' p = v0 /\ C st' p = mzero /\ F st' p = identity.
Proof.
  intros Hsvd Hgrav Hpart.
  destruct (uniform_flow_step svd st v0 Hsvd Hgrav Hpart)
    as (st' & Hrun & _ & Hdone).
  exists st'. split; [exact Hrun|].
  intros p Hp. destruct (Hdone p Hp) as (Hv & HC & HF & _).
  split; [exact Hv|]. split; [exact HC | exact HF].
Qed.

Lemma rigid_translation_persists_witness :
  exists st',
    substep svd_of_identity
      (uniform_state (Vec3 0.5 0.5 0.5) (Vec3 1 2 3) vzero) = Some st' /\
    forall p, (p < n_particles)%nat ->
      v st' p = Vec3 1 2 3 /\ C st' p = mzero /\ F st' p = identity.
Proof.
  apply (rigid_translation_persists svd_of_identity
           (uniform_state (Vec3 0.5 0.5 0.5) (Vec3 1 2 3) vzero) (Vec3 1 2 3)).
  - exact is_svd_of_identity.
  - reflexivity.
  - intros p _. repeat split. cbn [uniform_state x].
    exact midpoint_interior.
Defined.

(** ** The order of the particles *)

Lemma state_ext (a b : state) :
  x a = x b -> x_2d a = x_2d b -> v a = v b -> C a = C b -> F a = F b ->
  Jp a = Jp b -> (forall n, grid_v a n = grid_v b n) ->
  (forall n, grid_m a n = grid_m b n) -> gravity a = gravity b ->
  a = b.
Proof.
  destruct a, b. cbn. intros -> -> -> -> -> -> Hv Hm ->.
  f_equal; apply functional_extensionality; assumption.
Qed.

Lemma deposit_in {T : Type} (zero : T) (base : ivec3) (f : ivec3 -> T)
    (o : ivec3) :
  In o (ndrange 3 3 3) -> deposit zero base f (iadd base o) = f o.
Proof.
  intros Ho. unfold deposit.
  destruct (find (fun o' => ivec3_eqb (iadd base o) (iadd base o'))
              (ndrange 3 3 3)) as [o'|] eqn:Hfind.
  - apply find_some in Hfind as [_ Heq]. apply ivec3_eqb_eq in Heq.
    apply iadd_cancel in Heq. now subst.
  - pose proof (find_none _ _ Hfind o Ho) as Hf. cbn beta in Hf.
    rewrite ivec3_eqb_refl in Hf. discriminate Hf.
Qed.

Lemma deposit_out {T : Type} (zero : T) (base : ivec3) (f : ivec3 -> T)
    (n : ivec3) :
  (forall o, In o (ndrange 3 3 3) -> n <> iadd base o) ->
  deposit zero base f n = zero.
Proof.
  intros Hfar. unfold deposit.
  destruct (find (fun o' => ivec3_eqb n (iadd base o')) (ndrange 3 3 3))
    as [o'|] eqn:Hfind; [|reflexivity].
  apply find_some in Hfind as [Ho' Heq]. apply ivec3_eqb_eq in Heq.
  exfalso. exact (Hfar o' Ho' Heq).
Qed.

Lemma neighbourhood_ok_spec (xp : vec3) :
  neighbourhood_ok xp = true <-> neighbourhood_in_grid xp.
Proof.
  unfold neighbourhood_ok, neighbourhood_in_grid. rewrite forallb_forall.
  reflexivity.
Qed.

(** P2G of one particle is its closed form. *)
Lemma p2g_particle_closed (svd : mat3 -> mat3 * mat3 * mat3) (p : nat)
    (st : state) :
  p2g_particle svd p st
  = if neighbourhood_ok (x st p) then Some (p2g_result svd p st) else None.
Proof.
  destruct (neighbourhood_ok (x st p)) eqn:Hok.
  - apply neighbourhood_ok_spec in Hok.
    destruct (p2g_particle_total svd p st Hok) as [st1 Hrun].
    rewrite Hrun. f_equal.
    pose proof (p2g_particle_frame _ _ _ _ Hrun)
      as (_ & Hx & H2 & Hv & HC & HF & Hg & HJ).
    rewrite p2g_particle_loop in Hrun.
    apply p2g_loop_nodes in Hrun as (_ & Hin & Hout); [|apply NoDup_ndrange].
    unfold set_Jp in Hin, Hout. cbn [grid_m grid_v v C] in Hin, Hout.
    apply state_ext; try assumption; intros n;
      unfold p2g_result; cbn [grid_v grid_m];
      unfold p2g_momentum_share, p2g_mass_share;
      destruct (neighbourhood_cases (p2g_base (x st p)) n (ndrange 3 3 3))
        as [(o & Ho & ->) | Hfar].
    + destruct (Hin o Ho) as (_ & _ & Hgv).
      rewrite Hgv, deposit_in by exact Ho. now rewrite vadd_assoc.
    + destruct (Hout n Hfar) as [_ Hgv].
      rewrite Hgv, deposit_out by exact Hfar. now rewrite vadd_zero_r.
    + destruct (Hin o Ho) as (_ & Hgm & _).
      rewrite Hgm, deposit_in by exact Ho. reflexivity.
    + destruct (Hout n Hfar) as [Hgm _].
      rewrite Hgm, deposit_out by exact Hfar. ring.
  - apply p2g_particle_fails. intros H. apply neighbourhood_ok_spec in H.
    congruence.
Qed.

Lemma upd_comm {A : Type} (f : nat -> A) (a b : nat) (u w : A) :
  a <> b -> upd (upd f a u) b w = upd (upd f b w) a u.
Proof.
  intros Hab. apply functional_extensionality. intros q. unfold upd.
  destruct (Nat.eqb_spec q b), (Nat.eqb_spec q a); try reflexivity.
  subst. contradiction.
Qed.

Lemma vadd_swap (a b c : vec3) : a +v b +v c = a +v c +v b.
Proof. la_calc. Qed.

Lemma p2g_result_comm (svd : mat3 -> mat3 * mat3 * mat3) (a b : nat)
    (st : state) :
  a <> b ->
  p2g_result svd b (p2g_result svd a st)
  = p2g_result svd a (p2g_result svd b st).
Proof.
  intros Hab. unfold p2g_result. cbn [x x_2d v C F Jp grid_v grid_m gravity].
  rewrite (upd_other _ a b) by (intros H; apply Hab; now symmetry).
  rewrite (upd_other _ b a) by exact Hab.
  apply state_ext; cbn [x x_2d v C F Jp grid_v grid_m gravity];
    try reflexivity.
  - apply upd_comm. exact Hab.
  - intros n. apply vadd_swap.
  - intros n. ring.
Qed.

Lemma p2g_result_x (svd : mat3 -> mat3 * mat3 * mat3) (p : nat)
    (st : state) :
  x (p2g_result svd p st) = x st.
Proof. reflexivity. Qed.

Lemma p2g_particle_comm (svd : mat3 -> mat3 * mat3 * mat3) (a b : nat)
    (st : state) :
  a <> b ->
  (do s <- p2g_particle svd a st; p2g_particle svd b s)
  = (do s <- p2g_particle svd b st; p2g_particle svd a s).
Proof.
  intros Hab.
  rewrite (p2g_particle_closed svd a st), (p2g_particle_closed svd b st).
  destruct (neighbourhood_ok (x st a)) eqn:Ha;
    destruct (neighbourhood_ok (x st b)) eqn:Hb;
    rewrite ?p2g_particle_closed, ?p2g_result_x, ?Ha, ?Hb;
    try reflexivity.
  f_equal. apply p2g_result_comm. exact Hab.
Qed.

Lemma for_each_permutation (body : nat -> state -> option state)
    (l l' : list nat) :
  (forall a b s, a <> b ->
     (do s1 <- body a s; body b s1) = (do s1 <- body b s; body a s1)) ->
  Permutation l l' ->
  forall s, for_each body l s = for_each body l' s.
Proof.
  intros Hcomm. induction 1 as [|a l l' _ IH|a b l|l l' l'' _ IH1 _ IH2];
    intros s.
  - reflexivity.
  - cbn [for_each]. destruct (body a s) as [s1|]; [apply IH | reflexivity].
  - cbn [for_each]. destruct (Nat.eq_dec a b) as [->|Hab]; [reflexivity|].
    pose proof (Hcomm b a s (fun H => Hab (eq_sym H))) as Hc.
    destruct (body b s) as [sb|]; destruct (body a s) as [sa|].
    + now rewrite Hc.
    + now rewrite Hc.
    + now rewrite <- Hc.
    + reflexivity.
  - now rewrite IH1, IH2.
Qed.

(** X10: the result of P2G does not depend on the order in which the
    particles are processed: run over any permutation of the particle
    indices it gives the same state, or fails alike. *)
Theorem p2g_order_independent (svd : mat3 -> mat3 * mat3 * mat3)
    (st : state) (l : list nat) :
  Permutation (seq 0 n_particles) l ->
  for_each (p2g_particle svd) l st = p2g svd st.
Proof.
  intros Hperm. unfold p2g. symmetry.
  apply for_each_permutation; [|exact Hperm].
  intros a b s Hab. apply p2g_particle_comm. exact Hab.
Qed.

Lemma p2g_order_independent_witness :
  for_each (p2g_particle svd_of_identity) (rev (seq 0 n_particles))
    (uniform_state (Vec3 0.5 0.5 0.5) (Vec3 1 2 3) vzero)
  = p2g svd_of_identity (uniform_state (Vec3 0.5 0.5 0.5) (Vec3 1 2 3) vzero).
Proof.
  apply (p2g_order_independent svd_of_identity).
  apply Permutation_rev.
Defined.

Lemma g2p_particle_closed (p : nat) (st : state) :
  g2p_particle p st
  = if neighbourhood_ok (x st p) then Some (g2p_closed p st) else None.
Proof.
  destruct (neighbourhood_ok (x st p)) eqn:Hok.
  - apply neighbourhood_ok_spec in Hok. apply g2p_particle_run. exact Hok.
  - apply g2p_particle_fails. intros H. apply neighbourhood_ok_spec in H.
    congruence.
Qed.

Lemma g2p_closed_comm (a b : nat) (st : state) :
  a <> b ->
  g2p_closed b (g2p_closed a st) = g2p_closed a (g2p_closed b st).
Proof.
  intros Hab. unfold g2p_closed.
  cbn [x x_2d v C F Jp grid_v grid_m gravity].
  rewrite !(upd_other _ a b) by (intros H; apply Hab; now symmetry).
  rewrite !(upd_other _ b a) by exact Hab.
  f_equal; apply upd_comm; exact Hab.
Qed.

Lemma g2p_particle_comm (a b : nat) (st : state) :
  a <> b ->
  (do s <- g2p_particle a st; g2p_particle b s)
  = (do s <- g2p_particle b st; g2p_particle a s).
Proof.
  intros Hab.
  assert (Hx : forall p q s, p <> q -> x (g2p_closed p s) q = x s q).
  { intros p q s Hpq. unfold g2p_closed. cbn [x]. apply upd_other.
    intros H. apply Hpq. now symmetry. }
  rewrite (g2p_particle_closed a st), (g2p_particle_closed b st).
  destruct (neighbourhood_ok (x st a)) eqn:Ha;
    destruct (neighbourhood_ok (x st b)) eqn:Hb;
    rewrite ?g2p_particle_closed, ?(Hx a b) by exact Hab;
    rewrite ?(Hx b a) by (intros H; apply Hab; now symmetry);
    rewrite ?Ha, ?Hb; try reflexivity.
  f_equal. apply g2p_closed_comm. exact Hab.
Qed.

(** X11: the result of G2P does not depend on the order in which the
    particles are processed: a particle reads the grid and its own
    entries only, and writes its own entries only. *)
Theorem g2p_order_independent (st : state) (l : list nat) :
  Permutation (seq 0 n_particles) l ->
  for_each g2p_particle l st = g2p st.
Proof.
  intros Hperm. unfold g2p. symmetry.
  apply for_each_permutation; [|exact Hperm].
  intros a b s Hab. apply g2p_particle_comm. exact Hab.
Qed.

Lemma g2p_order_independent_witness :
  for_each g2p_particle (rev (seq 0 n_particles))
    (uniform_state (Vec3 0.5 0.5 0.5) (Vec3 1 2 3) vzero)
  = g2p (uniform_state (Vec3 0.5 0.5 0.5) (Vec3 1 2 3) vzero).
Proof.
  apply g2p_order_independent.
  apply Permutation_rev.
Defined.

(** ** What a substep leaves of the particle positions *)

Lemma g2p_mirror (st st' : state) :
  g2p st = Some st' ->
  forall p, (p < n_particles)%nat ->
    x_2d st' p = (vx (x st' p), vy (x st' p)).
Proof.
  intros Hrun.
  assert (H : forall p, In p (seq 0 n_particles) ->
                x_2d st' p = (vx (x st' p), vy (x st' p))).
  { unfold g2p in Hrun. revert Hrun.
    apply (for_each_ind g2p_particle
             (fun done s => forall p, In p done ->
                x_2d s p = (vx (x s p), vy (x s p)))).
    - intros p [].
    - intros done a rest s1 s2 _ IH Hstep p Hp.
      rewrite g2p_particle_closed in Hstep.
      destruct (neighbourhood_ok (x s1 a)); [|discriminate Hstep].
      injection Hstep as <-. unfold g2p_closed. cbn [x x_2d].
      destruct (Nat.eq_dec p a) as [->|Hpa].
      + now rewrite !upd_same.
      + rewrite !upd_other by exact Hpa. apply IH.
        apply in_app_or in Hp as [Hp | [Hp | []]]; [exact Hp|].
        symmetry in Hp. contradiction. }
  intros p Hp. apply H. apply in_seq. lia.
Qed.

(** X12: what a substep does to the positions.  When the 27 nodes of every
    particle lie in the grid, substep succeeds, moves every particle by dt
    times its new velocity, leaves in x_2d the first two coordinates of the
    new position, and does not touch gravity. *)
Theorem substep_positions (svd : mat3 -> mat3 * mat3 * mat3) (st : state) :
  (forall p, (p < n_particles)%nat -> neighbourhood_in_grid (x st p)) ->
  exists st',
    substep svd st = Some st' /\
    gravity st' = gravity st /\
    forall p, (p < n_particles)%nat ->
      x st' p = x st p +v dt *v v st' p /\
      x_2d st' p = (vx (x st' p), vy (x st' p)).
Proof.
  intros Hin. destruct (substep_total svd st Hin) as [st' Hrun].
  exists st'. split; [exact Hrun|].
  apply substep_phases in Hrun as (s1 & Hp2g & Hg2p).
  destruct (clear_grid_spec st) as ((Hx0 & _ & _ & _ & _ & _ & Hg0) & _).
  apply p2g_frame in Hp2g as (Hx1 & _ & _ & _ & _ & Hg1 & _).
  destruct (grid_update_spec s1) as ((Hx2 & _ & _ & _ & _ & _ & Hg2) & _).
  pose proof (g2p_mirror _ _ Hg2p) as Hmirror.
  apply g2p_result in Hg2p as ((_ & _ & Hg3) & _ & _ & Hdone).
  split.
  - rewrite Hg3, Hg2, Hg1. exact Hg0.
  - intros p Hp. split; [|exact (Hmirror p Hp)].
    destruct (Hdone p) as (_ & _ & _ & Hx & _); [apply in_seq; lia|].
    rewrite Hx, Hx2, Hx1, Hx0. reflexivity.
Qed.

Lemma substep_positions_witness :
  exists st',
    substep svd_of_identity
      (uniform_state (Vec3 0.5 0.5 0.5) (Vec3 1 2 3) vzero) = Some st' /\
    gravity st' = vzero /\
    forall p, (p < n_particles)%nat ->
      x st' p = Vec3 0.5 0.5 0.5 +v dt *v v st' p /\
      x_2d st' p = (vx (x st' p), vy (x st' p)).
Proof.
  apply (substep_positions svd_of_identity
           (uniform_state (Vec3 0.5 0.5 0.5) (Vec3 1 2 3) vzero)).
  intros p _. apply neighbourhood_safe. exact midpoint_safe.
Defined.

(** ** Initialisation *)

Lemma n_particles_Z : Z.of_nat n_particles = 9000%Z.
Proof. unfold n_particles, quality. rewrite Z2Nat.id by lia. reflexivity. Qed.

Lemma group_size_val : group_size = 9000%Z.
Proof. unfold group_size. rewrite n_particles_Z. reflexivity. Qed.

Lemma reset_position_block (rand : nat -> nat -> R) (i : nat) :
  unit_oracle rand -> (i < n_particles)%nat ->
  in_block (reset_position rand i).
Proof.
  intros Hrand Hi. apply Nat2Z.inj_lt in Hi. rewrite n_particles_Z in Hi.
  unfold reset_position, in_block. cbn [vx vy vz].
  rewrite group_size_val, Z.div_small by lia.
  pose proof (Hrand i 0%nat). pose proof (Hrand i 1%nat).
  pose proof (Hrand i 2%nat). lra.
Qed.

Lemma reset_particle_fields (rand : nat -> nat -> R) (i : nat) (st : state) :
  reset_particle rand i st
  = State (upd (x st) i (reset_position rand i))
          (upd (x_2d st) i
             (vx (reset_position rand i), vy (reset_position rand i)))
          (upd (v st) i vzero) (upd (C st) i mzero) (upd (F st) i identity)
          (upd (Jp st) i 1) (grid_v st) (grid_m st) (gravity st).
Proof.
  destruct st as [x0 x2 v0 C0 F0 J0 gv gm g].
  cbv beta iota zeta delta
    [reset_particle set_x set_x_2d set_v set_C set_F set_Jp
     x x_2d v C F Jp grid_v grid_m gravity].
  rewrite !upd_same. reflexivity.
Qed.

Lemma reset_loop (rand : nat -> nat -> R) (l : list nat) (st : state) :
  same_grid (fold_left (fun st i => reset_particle rand i st) l st) st /\
  (forall i, In i l ->
     x (fold_left (fun st i => reset_particle rand i st) l st) i
     = reset_position rand i /\
     x_2d (fold_left (fun st i => reset_particle rand i st) l st) i
     = (vx (reset_position rand i), vy (reset_position rand i)) /\
     v (fold_left (fun st i => reset_particle rand i st) l st) i = vzero /\
     C (fold_left (fun st i => reset_particle rand i st) l st) i = mzero /\
     F (fold_left (fun st i => reset_particle rand i st) l st) i = identity /\
     Jp (fold_left (fun st i => reset_particle rand i st) l st) i = 1) /\
  (forall i, ~ In i l ->
     x (fold_left (fun st i => reset_particle rand i st) l st) i = x st i /\
     x_2d (fold_left (fun st i => reset_particle rand i st) l st) i
     = x_2d st i /\
     v (fold_left (fun st i => reset_particle rand i st) l st) i = v st i /\
     C (fold_left (fun st i => reset_particle rand i st) l st) i = C st i /\
     F (fold_left (fun st i => reset_particle rand i st) l st) i = F st i /\
     Jp (fold_left (fun st i => reset_particle rand i st) l st) i = Jp st i).
Proof.
  revert st. induction l as [|a l IH]; intros st.
  - cbn [fold_left]. split; [|split].
    + split; [reflexivity|]. split; reflexivity.
    + intros i [].
    + intros i _. repeat split.
  - cbn [fold_left]. destruct (IH (reset_particle rand a st))
      as ((Hgv & Hgm & Hg) & Hin & Hout).
    split; [|split].
    + split; [exact Hgv|]. split; [exact Hgm | exact Hg].
    + intros i Hi. destruct (in_dec Nat.eq_dec i l) as [Hl | Hl].
      * exact (Hin i Hl).
      * destruct Hi as [<- | Hi]; [|contradiction].
        destruct (Hout a Hl) as (Hx & H2 & Hv & HC & HF & HJ).
        rewrite Hx, H2, Hv, HC, HF, HJ.
        rewrite reset_particle_fields. cbn [x x_2d v C F Jp].
        rewrite !upd_same. repeat split.
    + intros i Hi. destruct (Hout i) as (Hx & H2 & Hv & HC & HF & HJ).
      { intros Hl. apply Hi. now right. }
      rewrite Hx, H2, Hv, HC, HF, HJ.
      rewrite reset_particle_fields. cbn [x x_2d v C F Jp].
      rewrite !upd_other by (intros ->; apply Hi; now left).
      repeat split.
Qed.

(** X13: what reset leaves.  Whatever the oracle draws from [0, 1), every
    particle ends in the closed block [0.3, 0.5] x [0.05, 0.25] x [0.3, 0.5],
    at rest, undeformed, with unit plastic scalar and x_2d holding its first
    two coordinates; the grid and gravity are not touched. *)
Theorem reset_block (rand : nat -> nat -> R) (st : state) :
  unit_oracle rand ->
  same_grid (reset rand st) st /\
  forall p, (p < n_particles)%nat ->
    in_block (x (reset rand st) p) /\
    x_2d (reset rand st) p
    = (vx (x (reset rand st) p), vy (x (reset rand st) p)) /\
    v (reset rand st) p = vzero /\ C (reset rand st) p = mzero /\
    F (reset rand st) p = identity /\ Jp (reset rand st) p = 1.
Proof.
  intros Hrand. unfold reset.
  destruct (reset_loop rand (seq 0 n_particles) st) as (Hgrid & Hin & _).
  split; [exact Hgrid|].
  intros p Hp. destruct (Hin p) as (Hx & H2 & Hv & HC & HF & HJ).
  { apply in_seq. lia. }
  rewrite Hx, H2, Hv, HC, HF, HJ.
  split; [exact (reset_position_block rand p Hrand Hp)|].
  repeat split.
Qed.

Lemma half_oracle_unit : unit_oracle half_oracle.
Proof. intros i k. unfold half_oracle. lra. Qed.

Lemma reset_block_witness :
  same_grid (reset half_oracle (uniform_state vzero vzero vzero))
    (uniform_state vzero vzero vzero) /\
  forall p, (p < n_particles)%nat ->
    in_block (x (reset half_oracle (uniform_state vzero vzero vzero)) p) /\
    x_2d (reset half_oracle (uniform_state vzero vzero vzero)) p
    = (vx (x (reset half_oracle (uniform_state vzero vzero vzero)) p),
       vy (x (reset half_oracle (uniform_state vzero vzero vzero)) p)) /\
    v (reset half_oracle (uniform_state vzero vzero vzero)) p = vzero /\
    C (reset half_oracle (uniform_state vzero vzero vzero)) p = mzero /\
    F (reset half_oracle (uniform_state vzero vzero vzero)) p = identity /\
    Jp (reset half_oracle (uniform_state vzero vzero vzero)) p = 1.
Proof.
  apply (reset_block half_oracle (uniform_state vzero vzero vzero)).
  exact half_oracle_unit.
Defined.

(** ** The block at rest *)

Lemma coord_interior (c : R) :
  0.05 <= c <= 0.5 ->
  (3 <= cast_int (c * inv_dx - 0.5) <= 123)%Z.
Proof.
  intros [Hlo Hhi]. rewrite inv_dx_val.
  rewrite cast_int_nonneg by lra.
  pose proof (Zfloor_bound (c * 128 - 0.5)) as [Hf Hc].
  split.
  - assert (H : IZR 2 < IZR (Zfloor (c * 128 - 0.5))) by lra.
    apply lt_IZR in H. lia.
  - assert (H : IZR (Zfloor (c * 128 - 0.5)) < IZR 124) by lra.
    apply lt_IZR in H. lia.
Qed.

Lemma block_interior (xp : vec3) : in_block xp -> neighbourhood_interior xp.
Proof.
  intros (Hx & Hy & Hz) o Ho. apply in_ndrange in Ho.
  pose proof (coord_interior (vx xp)) as Bx.
  pose proof (coord_interior (vy xp)) as By.
  pose proof (coord_interior (vz xp)) as Bz.
  unfold interior_node, interior_index, iadd, p2g_base, vcast_int, vmap.
  cbn [ix iy iz vx vy vz].
  rewrite !andb_true_iff, !Z.leb_le, n_grid_val.
  assert (0.05 <= vx xp <= 0.5) as Cx by lra.
  assert (0.05 <= vy xp <= 0.5) as Cy by lra.
  assert (0.05 <= vz xp <= 0.5) as Cz by lra.
  specialize (Bx Cx). specialize (By Cy). specialize (Bz Cz). lia.
Qed.

(** A block at rest, undeformed, without gravity stays where it is for any
    number of substeps. *)
Lemma rest_persists (svd : mat3 -> mat3 * mat3 * mat3) (k : nat) :
  is_svd identity (svd identity) ->
  forall st,
    gravity st = vzero ->
    (forall p, (p < n_particles)%nat ->
       v st p = vzero /\ C st p = mzero /\ F st p = identity /\
       neighbourhood_interior (x st p)) ->
    exists st',
      substeps svd k st = Some st' /\
      gravity st' = vzero /\
      forall p, (p < n_particles)%nat ->
        x st' p = x st p /\ v st' p = vzero /\ C st' p = mzero /\
        F st' p = identity.
Proof.
  intros Hsvd. induction k as [|k IH]; intros st Hgrav Hpart.
  - exists st. split; [reflexivity|]. split; [exact Hgrav|].
    intros p Hp. destruct (Hpart p Hp) as (Hv & HC & HF & _).
    split; [reflexivity|]. split; [exact Hv|]. split; [exact HC | exact HF].
  - destruct (uniform_flow_step svd st vzero Hsvd Hgrav Hpart)
      as (s1 & Hrun & Hg1 & Hstep).
    assert (Hx1 : forall p, (p < n_particles)%nat -> x s1 p = x st p).
    { intros p Hp. destruct (Hstep p Hp) as (_ & _ & _ & Hx).
      rewrite Hx. generalize (x st p). clear. la_calc. }
    destruct (IH s1 Hg1) as (st' & Hrest & Hg' & Hdone).
    { intros p Hp. destruct (Hstep p Hp) as (Hv & HC & HF & _).
      split; [exact Hv|]. split; [exact HC|]. split; [exact HF|].
      rewrite (Hx1 p Hp). apply (Hpart p Hp). }
    exists st'. cbn [substeps]. rewrite Hrun. split; [exact Hrest|].
    split; [exact Hg'|].
    intros p Hp. destruct (Hdone p Hp) as (Hx & Hv & HC & HF).
    split; [rewrite Hx; exact (Hx1 p Hp)|].
    split; [exact Hv|]. split; [exact HC | exact HF].
Qed.

Lemma set_gravity_fields (s : state) (g : vec3) :
  x (set_gravity s g) = x s /\ v (set_gravity s g) = v s /\
  C (set_gravity s g) = C s /\ F (set_gravity s g) = F s /\
  gravity (set_gravity s g) = g.
Proof. repeat split. Qed.

(** X14: the program starts at rest.  After reset and the zeroing of
    gravity (lines 150-151), with a decomposition of the identity and an
    oracle drawing from [0, 1), any number of substeps succeeds and leaves
    every particle where reset has put it, with zero velocity, zero affine
    matrix and identity deformation gradient. *)
Theorem startup_static (svd : mat3 -> mat3 * mat3 * mat3)
    (rand : nat -> nat -> R) (st : state) (k : nat) :
  is_svd identity (svd identity) ->
  unit_oracle rand ->
  exists st',
    substeps svd k (startup rand st) = Some st' /\
    forall p, (p < n_particles)%nat ->
      x st' p = reset_position rand p /\ v st' p = vzero /\
      C st' p = mzero /\ F st' p = identity.
Proof.
  intros Hsvd Hrand.
  assert (Hstart : forall p, (p < n_particles)%nat ->
            x (startup rand st) p = reset_position rand p /\
            v (startup rand st) p = vzero /\ C (startup rand st) p = mzero /\
            F (startup rand st) p = identity).
  { intros p Hp. unfold startup.
    destruct (set_gravity_fields (reset rand st) (Vec3 0 0 0))
      as (-> & -> & -> & -> & _).
    unfold reset.
    destruct (reset_loop rand (seq 0 n_particles) st) as (_ & Hin & _).
    destruct (Hin p) as (Hx & _ & Hv & HC & HF & _); [apply in_seq; lia|].
    split; [exact Hx|]. split; [exact Hv|]. split; [exact HC | exact HF]. }
  assert (Hgrav : gravity (startup rand st) = vzero).
  { unfold startup.
    destruct (set_gravity_fields (reset rand st) (Vec3 0 0 0))
      as (_ & _ & _ & _ & ->).
    reflexivity. }
  revert Hstart Hgrav. generalize (startup rand st). intros s0 Hstart Hgrav.
  destruct (rest_persists svd k Hsvd s0 Hgrav) as (st' & Hrun & _ & Hdone).
  { intros p Hp. destruct (Hstart p Hp) as (Hx & Hv & HC & HF).
    split; [exact Hv|]. split; [exact HC|]. split; [exact HF|].
    rewrite Hx. apply block_interior.
    exact (reset_position_block rand p Hrand Hp). }
  exists st'. split; [exact Hrun|].
  intros p Hp. destruct (Hdone p Hp) as (Hx & Hv & HC & HF).
  destruct (Hstart p Hp) as (Hx0 & _).
  split; [rewrite Hx; exact Hx0|].
  split; [exact Hv|]. split; [exact HC | exact HF].
Qed.

Lemma startup_static_witness :
  exists st',
    substeps svd_of_identity 20
      (startup half_oracle (uniform_state vzero vzero vzero)) = Some st' /\
    forall p, (p < n_particles)%nat ->
      x st' p = reset_position half_oracle p /\ v st' p = vzero /\
      C st' p = mzero /\ F st' p = identity.
Proof.
  apply (startup_static svd_of_identity half_oracle
           (uniform_state vzero vzero vzero) 20).
  - exact is_svd_of_identity.
  - exact half_oracle_unit.
Defined.
